(** * Pbf-basic-render: tile lifecycle and render coalescing

    A shallow embedding of [src/basic_renderer/index.ts]: the class
    [BasicSourceCache] (tile ownership, reference counts, LRU cache) and the
    class [BasicRenderer] (canonicalisation, fingerprints, pending renders,
    the block compositor), followed by the properties established about
    them.

    JavaScript objects that are shared and mutated (tiles, source caches,
    pending render states) live in an explicit store; a reference to a tile
    is its address in that store.  Calls into the external collaborators
    (the fetch backend, the painter, the style engine, the 2D contexts of
    the consumers and their completion callbacks) are recorded, in order,
    in a trace. *)

From Stdlib Require Import ZArith String Ascii List Lia DecimalString.
From stdpp Require Import base option list gmap strings sorting.

Open Scope Z_scope.

(** ** Numbers

    A JavaScript number is modelled as an integer, one of the two
    infinities, or NaN.  Rounding of fractional doubles is outside the
    model: coordinates are pixel positions. *)

Inductive num : Type :=
  | Fin (z : Z)
  | PInf
  | NInf
  | NaN.

#[global] Instance num_eq_dec : EqDecision num.
Proof. solve_decision. Defined.

(** [a + b] *)
Definition num_add (a b : num) : num :=
  match a, b with
  | NaN, _ | _, NaN => NaN
  | Fin x, Fin y => Fin (x + y)
  | PInf, NInf | NInf, PInf => NaN
  | PInf, _ | _, PInf => PInf
  | NInf, _ | _, NInf => NInf
  end.

(** [a - b] *)
Definition num_sub (a b : num) : num :=
  match a, b with
  | NaN, _ | _, NaN => NaN
  | Fin x, Fin y => Fin (x - y)
  | PInf, PInf | NInf, NInf => NaN
  | PInf, _ | _, NInf => PInf
  | NInf, _ | _, PInf => NInf
  end.

(** [a < b]: false as soon as one side is NaN *)
Definition num_lt (a b : num) : bool :=
  match a, b with
  | NaN, _ | _, NaN => false
  | Fin x, Fin y => x <? y
  | NInf, NInf | PInf, _ | _, NInf => false
  | NInf, _ | _, PInf => true
  end.

(** [a > b] *)
Definition num_gt (a b : num) : bool := num_lt b a.

(** [Math.min(a, b)] *)
Definition Math_min (a b : num) : num :=
  match a, b with
  | NaN, _ | _, NaN => NaN
  | _, _ => if num_lt b a then b else a
  end.

(** [Math.max(a, b)] *)
Definition Math_max (a b : num) : num :=
  match a, b with
  | NaN, _ | _, NaN => NaN
  | _, _ => if num_lt a b then b else a
  end.

(** [a | 0]: ToInt32, the infinities and NaN give 0 *)
Definition to_int32 (a : num) : Z :=
  match a with
  | Fin x => (x + 2 ^ 31) mod 2 ^ 32 - 2 ^ 31
  | _ => 0
  end.

(** Reading a numeric property that may still be [undefined]: arithmetic
    turns [undefined] into NaN. *)
Definition to_number (o : option num) : num := default NaN o.

(** Template-literal conversion of a number to a string. *)
Definition Z_to_string (x : Z) : string := NilZero.string_of_int (Z.to_int x).

Definition num_to_string (a : num) : string :=
  match a with
  | Fin x => Z_to_string x
  | PInf => "Infinity"
  | NInf => "-Infinity"
  | NaN => "NaN"
  end.

(** ** Tiles *)

(** [OverscaledTileID(z, 0, z, x, y)]: with wrap 0 the key is determined by
    the triple, and [wrapped()] is the identity. *)
Definition TileKey : Type := (Z * Z * Z)%type.

(** The arguments [_calculatePosMatrix] was called with; the matrix itself
    is a floating-point function of the three. *)
Record PosMatrix : Type := mkPosMatrix {
  transX : num;
  transY : num;
  pm_tileSize : Z
}.

#[global] Instance PosMatrix_eq_dec : EqDecision PosMatrix.
Proof. solve_decision. Defined.

(** Modelled from the spec: the class [Tile] of [../source/tile] is not
    part of the sources.  A tile has a coordinate, a usage count, a data
    state (here: whether [hasData()] answers true), and the fields this
    file adds to it ([cache], [loadedPromise], [_isDud], [left], [top], here [t_left]
    and [t_top]).
    [loadedPromise] records whether the field holds a promise. *)
Record Tile : Type := mkTile {
  tileID : TileKey;
  tileSize : Z;
  uses : Z;
  cache : option string;
  loadedPromise : bool;
  _isDud : bool;
  hasData : bool;
  t_left : option num;
  t_top : option num;
  posMatrix : option PosMatrix
}.

#[global] Instance Tile_eq_dec : EqDecision Tile.
Proof. solve_decision. Defined.

(** Modelled from the spec: [new Tile(tileID, size)], a tile with usage
    count 0, no data and no load handle. *)
Definition new_Tile (id : TileKey) (size : Z) : Tile :=
  mkTile id size 0 None false false false None None None.

Definition set_uses (f : Z → Z) (t : Tile) : Tile :=
  mkTile (tileID t) (tileSize t) (f (uses t)) (cache t) (loadedPromise t)
         (_isDud t) (hasData t) (t_left t) (t_top t) (posMatrix t).
Definition set_cache (c : option string) (t : Tile) : Tile :=
  mkTile (tileID t) (tileSize t) (uses t) c (loadedPromise t)
         (_isDud t) (hasData t) (t_left t) (t_top t) (posMatrix t).
Definition set_loadedPromise (p : bool) (t : Tile) : Tile :=
  mkTile (tileID t) (tileSize t) (uses t) (cache t) p
         (_isDud t) (hasData t) (t_left t) (t_top t) (posMatrix t).
Definition set_isDud (d : bool) (t : Tile) : Tile :=
  mkTile (tileID t) (tileSize t) (uses t) (cache t) (loadedPromise t)
         d (hasData t) (t_left t) (t_top t) (posMatrix t).
Definition set_hasData (d : bool) (t : Tile) : Tile :=
  mkTile (tileID t) (tileSize t) (uses t) (cache t) (loadedPromise t)
         (_isDud t) d (t_left t) (t_top t) (posMatrix t).
Definition set_placement (size : Z) (l tp : num) (t : Tile) : Tile :=
  mkTile (tileID t) size (uses t) (cache t) (loadedPromise t)
         (_isDud t) (hasData t) (Some l) (Some tp) (posMatrix t).
Definition set_posMatrix (m : PosMatrix) (t : Tile) : Tile :=
  mkTile (tileID t) (tileSize t) (uses t) (cache t) (loadedPromise t)
         (_isDud t) (hasData t) (t_left t) (t_top t) (Some m).

(** ** The LRU cache *)

Definition TILE_CACHE_SIZE : nat := 20.

(** Modelled from the spec: the class [Cache] of [../source/tile_cache] is
    not part of the sources.  It is a bounded store of entries kept in
    insertion order, oldest first; [order] holds coordinate and tile. *)
Record Cache : Type := mkCache {
  cache_max : nat;
  order : list (TileKey * nat)
}.

(** Modelled from the spec: [new Cache(max, onRemove)]. *)
Definition new_Cache (capacity : nat) : Cache := mkCache capacity [].

(** Modelled from the spec: [Cache.add(tileID, tile)] appends the entry;
    when the capacity is exceeded the oldest entry is removed and handed
    to the removal callback (returned here as the second component). *)
Definition Cache_add (id : TileKey) (t : nat) (c : Cache) : Cache * option nat :=
  let entries := order c ++ [(id, t)] in
  if (cache_max c <? length entries)%nat
  then match entries with
       | (_, old) :: rest => (mkCache (cache_max c) rest, Some old)
       | [] => (mkCache (cache_max c) entries, None)
       end
  else (mkCache (cache_max c) entries, None).

(** The tiles held by the cache. *)
Definition Cache_tiles (c : Cache) : list nat := (order c).*2.

(** ** Source caches *)

Record BasicSourceCache : Type := mkSourceCache {
  _tilesInUse : gmap TileKey nat;
  _tileCache : Cache;
  currentlyRenderingTiles : list nat
}.

(** The constructor: an empty in-use map and a cache of
    [TILE_CACHE_SIZE] entries whose removal callback unloads the tile. *)
Definition new_BasicSourceCache : BasicSourceCache :=
  mkSourceCache ∅ (new_Cache TILE_CACHE_SIZE) [].

Definition set_tilesInUse (f : gmap TileKey nat → gmap TileKey nat)
    (c : BasicSourceCache) : BasicSourceCache :=
  mkSourceCache (f (_tilesInUse c)) (_tileCache c) (currentlyRenderingTiles c).
Definition set_tileCache (k : Cache) (c : BasicSourceCache) : BasicSourceCache :=
  mkSourceCache (_tilesInUse c) k (currentlyRenderingTiles c).
Definition set_currentlyRenderingTiles (l : list nat)
    (c : BasicSourceCache) : BasicSourceCache :=
  mkSourceCache (_tilesInUse c) (_tileCache c) l.

(** ** Render requests *)

Record DrawSpec : Type := mkDrawSpec {
  srcLeft : num;
  srcTop : num;
  width : num;
  height : num;
  destLeft : num;
  destTop : num
}.

Record TileSpec : Type := mkTileSpec {
  source : string;
  ts_z : Z;
  ts_x : Z;
  ts_y : Z;
  ts_left : num;
  ts_top : num;
  ts_size : Z
}.

#[global] Instance DrawSpec_eq_dec : EqDecision DrawSpec.
Proof. solve_decision. Defined.
#[global] Instance TileSpec_eq_dec : EqDecision TileSpec.
Proof. solve_decision. Defined.

(** A consumer object [{ctx, drawSpec, tilesSpec, next}].  [c_id] stands
    for the identity of the object ([indexOf] compares by identity);
    [ctx] and [next] name the caller's context and callback. *)
Record Consumer : Type := mkConsumer {
  c_id : nat;
  ctx : nat;
  c_drawSpec : DrawSpec;
  c_tilesSpec : list TileSpec;
  next : nat
}.

#[global] Instance Consumer_eq_dec : EqDecision Consumer.
Proof. solve_decision. Defined.

(** A pending render state [{tileSetID, renderId, tiles, consumers}]. *)
Record RenderState : Type := mkRenderState {
  tileSetID : string;
  renderId : Z;
  rs_tiles : list nat;
  consumers : list Consumer
}.

Definition set_consumers (l : list Consumer) (s : RenderState) : RenderState :=
  mkRenderState (tileSetID s) (renderId s) (rs_tiles s) l.

(** The token returned by [renderTiles]. *)
Record RenderRef : Type := mkRenderRef {
  ref_renderId : Z;
  ref_consumer : Consumer;
  ref_tiles : list nat;
  ref_tileSetID : string
}.

(** The variables captured by the continuation that [renderTiles] chains
    on the tile loads. *)
Record Continuation : Type := mkContinuation {
  k_tileSetID : string;
  k_renderId : Z;
  k_drawSpec : DrawSpec;
  k_tilesSpec : list TileSpec
}.

(** ** The trace of external calls *)

Inductive Event : Type :=
  | LoadTile (src : string) (t : nat)
  | AbortTile (src : string) (t : nat)
  | UnloadTile (src : string) (t : nat)
  | ClearRect (cx : nat) (x y w h : num)
  | DrawImage (cx : nat) (sx sy sw sh : Z) (dx dy : num)
  | StyleUpdate (zoom : Z)
  | PainterRender (placed : list (nat * option PosMatrix))
  | Next (callback : nat) (err : option string).

#[global] Instance Event_eq_dec : EqDecision Event.
Proof. solve_decision. Defined.

(** ** The store

    [tiles] maps the address of every tile object created so far to its
    current state and [nextTile] is the next free address;
    [sourceCaches] is [style.sourceCaches]; [nextConsumer] numbers the
    consumer objects; [trace] lists the external calls made so far. *)

Record World : Type := mkWorld {
  tiles : gmap nat Tile;
  nextTile : nat;
  sourceCaches : gmap string BasicSourceCache;
  _pendingRenders : list (string * RenderState);
  _nextRenderId : Z;
  nextConsumer : nat;
  trace : list Event
}.

Definition set_tiles (f : gmap nat Tile → gmap nat Tile) (w : World) : World :=
  mkWorld (f (tiles w)) (nextTile w) (sourceCaches w) (_pendingRenders w)
          (_nextRenderId w) (nextConsumer w) (trace w).
Definition set_nextTile (n : nat) (w : World) : World :=
  mkWorld (tiles w) n (sourceCaches w) (_pendingRenders w)
          (_nextRenderId w) (nextConsumer w) (trace w).
Definition set_sourceCaches
    (f : gmap string BasicSourceCache → gmap string BasicSourceCache)
    (w : World) : World :=
  mkWorld (tiles w) (nextTile w) (f (sourceCaches w)) (_pendingRenders w)
          (_nextRenderId w) (nextConsumer w) (trace w).
Definition set_pendingRenders
    (f : list (string * RenderState) → list (string * RenderState))
    (w : World) : World :=
  mkWorld (tiles w) (nextTile w) (sourceCaches w) (f (_pendingRenders w))
          (_nextRenderId w) (nextConsumer w) (trace w).
Definition set_nextRenderId (n : Z) (w : World) : World :=
  mkWorld (tiles w) (nextTile w) (sourceCaches w) (_pendingRenders w)
          n (nextConsumer w) (trace w).
Definition set_nextConsumer (n : nat) (w : World) : World :=
  mkWorld (tiles w) (nextTile w) (sourceCaches w) (_pendingRenders w)
          (_nextRenderId w) n (trace w).
Definition set_trace (f : list Event → list Event) (w : World) : World :=
  mkWorld (tiles w) (nextTile w) (sourceCaches w) (_pendingRenders w)
          (_nextRenderId w) (nextConsumer w) (f (trace w)).

(** A renderer whose style declares the sources [names]. *)
Definition init_world (names : list string) : World :=
  mkWorld ∅ 0 (list_to_map ((λ n, (n, new_BasicSourceCache)) <$> names))
          [] 0 0 [].

(** ** Computations

    A method either returns or throws; in both cases the mutations made so
    far stay in the store. *)

Inductive Exn : Type := AssertionError | TypeError.

Inductive Res (A : Type) : Type :=
  | Ok (a : A)
  | Throw (e : Exn).
Arguments Ok {A} a.
Arguments Throw {A} e.

Definition M (A : Type) : Type := World → Res A * World.

Definition ret {A} (a : A) : M A := λ w, (Ok a, w).
Definition throw {A} (e : Exn) : M A := λ w, (Throw e, w).
Definition bind {A B} (m : M A) (k : A → M B) : M B :=
  λ w, match m w with
       | (Ok a, w') => k a w'
       | (Throw e, w') => (Throw e, w')
       end.
Definition gets {A} (f : World → A) : M A := λ w, (Ok (f w), w).
Definition modify (f : World → World) : M unit := λ w, (Ok tt, f w).

Notation "'let!' x ':=' m 'in' k" := (bind m (λ x, k))
  (at level 10, x pattern, m at level 100, k at level 200,
   format "'[v' 'let!'  x  ':='  m  'in' '/' k ']'").
Notation "m ';;;' k" := (bind m (λ _, k))
  (at level 100, k at level 200, right associativity).

(** [l.forEach(f)] *)
Fixpoint forEach {A} (f : A → M unit) (l : list A) : M unit :=
  match l with
  | [] => ret tt
  | a :: l' => f a ;;; forEach f l'
  end.

(** [l.map(f)] for an effectful [f] *)
Fixpoint mapM {A B} (f : A → M B) (l : list A) : M (list B) :=
  match l with
  | [] => ret []
  | a :: l' => let! b := f a in let! bs := mapM f l' in ret (b :: bs)
  end.

Definition emit (e : Event) : M unit := modify (set_trace (λ tr, tr ++ [e])).

(** Mutation of the tile object at address [r]. *)
Definition update_tile (r : nat) (f : Tile → Tile) : M unit :=
  modify (set_tiles (alter f r)).

(** Mutation of the source cache named [name]. *)
Definition update_cache (name : string) (f : BasicSourceCache → BasicSourceCache)
    : M unit :=
  modify (set_sourceCaches (alter f name)).

(** Reading the tile at [r]; a reference always points to an object. *)
Definition read_tile (r : nat) : M Tile :=
  λ w, match tiles w !! r with
       | Some t => (Ok t, w)
       | None => (Throw TypeError, w)
       end.

(** [this.style.sourceCaches[name]], about to be dereferenced. *)
Definition read_cache (name : string) : M BasicSourceCache :=
  λ w, match sourceCaches w !! name with
       | Some c => (Ok c, w)
       | None => (Throw TypeError, w)
       end.

(** Allocation of a fresh object. *)
Definition alloc (t : Tile) : M nat :=
  λ w, (Ok (nextTile w),
        set_nextTile (S (nextTile w)) (set_tiles <[nextTile w := t]> w)).

(** ** BasicSourceCache methods *)

(** [acquireTile(tileID, size)] of the source cache named [this]. *)
Definition acquireTile (this : string) (id : TileKey) (sz : Z) : M nat :=
  let! tile := alloc (new_Tile id sz) in
  update_tile tile (set_uses (λ u, u + 1)) ;;;
  update_cache this (set_tilesInUse <[id := tile]>) ;;;
  update_tile tile (set_cache (Some this)) ;;;
  let! t := read_tile tile in
  if loadedPromise t then ret tile
  else
    (* the promise body runs at once: the timer is armed and the load is
       requested *)
    update_tile tile (set_loadedPromise true) ;;;
    emit (LoadTile this tile) ;;;
    ret tile.

(** The timer of [TILE_LOAD_TIMEOUT] fires before the load called back:
    the fetch is aborted and the handle dropped (the promise rejects). *)
Definition load_timeout (this : string) (tile : nat) : M unit :=
  emit (AbortTile this tile) ;;;
  update_tile tile (set_loadedPromise false).

(** The callback given to [loadTile] is called with [err]; the result
    tells whether the promise fulfils. *)
Definition load_callback (tile : nat) (err : bool) : M bool :=
  if err then update_tile tile (set_isDud true) ;;; ret false
  else ret true.

(** [getTile(tileID)] *)
Definition getTile (this : string) (id : TileKey) (w : World) : option nat :=
  c ← sourceCaches w !! this; _tilesInUse c !! id.

(** [releaseTile(tile)] of the source cache named [this]. *)
Definition releaseTile (this : string) (tile : nat) : M unit :=
  let! t := read_tile tile in
  if negb (0 <? uses t) then throw AssertionError
  else
    update_tile tile (set_uses (λ u, u - 1)) ;;;
    if 0 <? uses t - 1 then ret tt
    else
      update_cache this (set_tilesInUse (delete (tileID t))) ;;;
      if hasData t || _isDud t then
        let! c := read_cache this in
        let '(k, evicted) := Cache_add (tileID t) tile (_tileCache c) in
        update_cache this (set_tileCache k) ;;;
        match evicted with
        | Some old => emit (UnloadTile this old)
        | None => ret tt
        end
      else
        emit (AbortTile this tile) ;;;
        emit (UnloadTile this tile).

(** [loaded()], given the answer of the source. *)
Definition loaded (this : string) (source_loaded : bool) (w : World) : bool :=
  match sourceCaches w !! this with
  | Some c =>
      if negb source_loaded then false
      else if (0 <? size (_tilesInUse c))%nat then false
      else true
  | None => false
  end.

(** [invalidateAllLoadedTiles()].  The cached tiles are reached through
    [keys()] and [get(id)] of the cache, modelled as a visit of every
    cached tile. *)
Definition invalidateAllLoadedTiles (c : BasicSourceCache) : M unit :=
  let clear (t : Tile) :=
    if _isDud t then t else set_loadedPromise false t in
  forEach (λ r, update_tile r clear) (map_to_list (_tilesInUse c)).*2 ;;;
  forEach (λ r, update_tile r clear) (Cache_tiles (_tileCache c)).

(** ** BasicRenderer *)

Definition OFFSCREEN_CANV_SIZE : Z := 1024.

(** The [Map] [_pendingRenders]: entries in insertion order, one per key. *)
Fixpoint Map_get {V} (k : string) (m : list (string * V)) : option V :=
  match m with
  | [] => None
  | (k', v) :: m' => if decide (k' = k) then Some v else Map_get k m'
  end.

Fixpoint Map_set {V} (k : string) (v : V) (m : list (string * V))
    : list (string * V) :=
  match m with
  | [] => [(k, v)]
  | (k', v') :: m' =>
      if decide (k' = k) then (k, v) :: m' else (k', v') :: Map_set k v m'
  end.

Fixpoint Map_delete {V} (k : string) (m : list (string * V))
    : list (string * V) :=
  match m with
  | [] => []
  | (k', v') :: m' =>
      if decide (k' = k) then Map_delete k m' else (k', v') :: Map_delete k m'
  end.

Definition pending (id : string) : M (option RenderState) :=
  gets (λ w, Map_get id (_pendingRenders w)).

(** [_finishRender(tileSetID, renderId, err)] *)
Definition _finishRender (id : string) (rid : Z) (err : option string) : M unit :=
  let! state := pending id in
  match state with
  | None => ret tt
  | Some state =>
      if decide (renderId state ≠ rid) then ret tt
      else
        forEach (λ c, emit (Next (next c) err)) (consumers state) ;;;
        modify (set_pendingRenders (Map_delete id))
  end.

(** [_canonicalizeSpec(tilesSpec, drawSpec)] *)
Definition _canonicalizeSpec (tilesSpec : list TileSpec) (drawSpec : DrawSpec)
    : list TileSpec * DrawSpec :=
  let minLeft := fold_left Math_min (ts_left <$> tilesSpec) PInf in
  let minTop := fold_left Math_min (ts_top <$> tilesSpec) PInf in
  ((λ s, mkTileSpec (source s) (ts_z s) (ts_x s) (ts_y s)
                    (num_sub (ts_left s) minLeft)
                    (num_sub (ts_top s) minTop)
                    (ts_size s)) <$> tilesSpec,
   mkDrawSpec (num_sub (srcLeft drawSpec) minLeft)
              (num_sub (srcTop drawSpec) minTop)
              (width drawSpec) (height drawSpec)
              (destLeft drawSpec) (destTop drawSpec)).

(** The order [Array.prototype.sort] uses without a comparator: strings
    compared code unit by code unit. *)
Definition string_le (a b : string) : Prop := String.leb a b = true.

#[global] Instance string_le_dec : RelDecision string_le.
Proof. intros a b. unfold string_le. apply _. Defined.

(** The template literal of [_tileSpecToString]. *)
Definition tileSpec_entry (s : TileSpec) : string :=
  (source s ++ " " ++ Z_to_string (ts_z s) ++ " " ++ Z_to_string (ts_x s)
   ++ " " ++ Z_to_string (ts_y s) ++ " " ++ num_to_string (ts_left s)
   ++ " " ++ num_to_string (ts_top s) ++ " " ++ Z_to_string (ts_size s))%string.

(** [_tileSpecToString(tilesSpec)] *)
Definition _tileSpecToString (tilesSpec : list TileSpec) : string :=
  String.concat " " (merge_sort string_le (tileSpec_entry <$> tilesSpec)).

(** [state.consumers.indexOf(c)] followed by [splice(idx, 1)] when found. *)
Fixpoint remove_consumer (c : Consumer) (l : list Consumer) : list Consumer :=
  match l with
  | [] => []
  | c' :: l' =>
      if decide (c_id c' = c_id c) then l' else c' :: remove_consumer c l'
  end.

(** Acquisition of the tile of one tile spec:
    [this.style.sourceCaches[s.source].acquireTile(tileID, s.size)]. *)
Definition acquire_spec (s : TileSpec) : M nat :=
  read_cache (source s) ;;;
  acquireTile (source s) (ts_z s, ts_x s, ts_y s) (ts_size s).

(** [renderTiles(ctx, drawSpec, tilesSpec, next)].  Besides the token the
    result holds the continuation chained on the tile loads, when a new
    pending render was created. *)
Definition renderTiles (cx : nat) (drawSpec : DrawSpec)
    (tilesSpec : list TileSpec) (nxt : nat)
    : M (RenderRef * option Continuation) :=
  let '(tilesSpec, drawSpec) := _canonicalizeSpec tilesSpec drawSpec in
  let id := _tileSpecToString tilesSpec in
  let! cid := gets nextConsumer in
  modify (set_nextConsumer (S cid)) ;;;
  let consumer := mkConsumer cid cx drawSpec tilesSpec nxt in
  let! state := pending id in
  match state with
  | Some state =>
      forEach (λ t, update_tile t (set_uses (λ u, u + 1))) (rs_tiles state) ;;;
      modify (set_pendingRenders
                (Map_set id (set_consumers (consumers state ++ [consumer]) state))) ;;;
      ret (mkRenderRef (renderId state) consumer (rs_tiles state) id, None)
  | None =>
      let! last := gets _nextRenderId in
      let rid := last + 1 in
      modify (set_nextRenderId rid) ;;;
      let! acquired := mapM acquire_spec tilesSpec in
      modify (set_pendingRenders
                (Map_set id (mkRenderState id rid acquired [consumer]))) ;;;
      ret (mkRenderRef rid consumer acquired id,
           Some (mkContinuation id rid drawSpec tilesSpec))
  end.

(** [tiles.forEach((t) => t.cache.releaseTile(t))] *)
Definition release_tiles (l : list nat) : M unit :=
  forEach (λ t, let! tile := read_tile t in
                match cache tile with
                | Some c => releaseTile c t
                | None => throw TypeError
                end) l.

(** [releaseRender(renderRef)] *)
Definition releaseRender (renderRef : RenderRef) : M unit :=
  let! state := pending (ref_tileSetID renderRef) in
  release_tiles (ref_tiles renderRef) ;;;
  match state with
  | None => ret tt
  | Some state =>
      if decide (renderId state ≠ ref_renderId renderRef) then ret tt
      else
        emit (Next (next (ref_consumer renderRef)) (Some "canceled"%string)) ;;;
        let rest := remove_consumer (ref_consumer renderRef) (consumers state) in
        modify (set_pendingRenders
                  (Map_set (ref_tileSetID renderRef)
                           (set_consumers rest state))) ;;;
        if decide (length rest = 0%nat)
        then _finishRender (tileSetID state) (ref_renderId renderRef)
                           (Some "fully-canceled"%string)
        else ret tt
  end.

(** [_cancelAllPendingRenders()] *)
Definition _cancelAllPendingRenders : M unit :=
  let! states := gets _pendingRenders in
  forEach (λ s, _finishRender (tileSetID s.2) (renderId s.2)
                              (Some "canceled"%string)) states ;;;
  modify (set_pendingRenders (λ _, [])) ;;;
  let! caches := gets (λ w, map_to_list (sourceCaches w)) in
  forEach (λ c, invalidateAllLoadedTiles c.2) caches.

(** *** The compositor *)

(** A loop of the shape [for (xx = lo; xx < hi; xx += OFFSCREEN_CANV_SIZE)].
    The recursion is bounded by [fuel]; a loop that has not ended when the
    fuel is used up is reported as [Loops]. *)
Inductive LoopRes : Type := Done | Loops.

Fixpoint for_blocks (fuel : nat) (xx hi : num) (body : num → M LoopRes)
    : M LoopRes :=
  match fuel with
  | O => ret Loops
  | S fuel' =>
      if num_lt xx hi then
        let! r := body xx in
        match r with
        | Loops => ret Loops
        | Done => for_blocks fuel' (num_add xx (Fin OFFSCREEN_CANV_SIZE)) hi body
        end
      else ret Done
  end.

(** Fuel that lets a loop over finite bounds run to its end. *)
Definition blocks_fuel (lo hi : num) : nat :=
  match lo, hi with
  | Fin a, Fin b => S (Z.to_nat ((b - a + OFFSCREEN_CANV_SIZE - 1) / OFFSCREEN_CANV_SIZE))
  | _, _ => 1
  end.

(** The filter that selects [relevantConsumers] for the block at
    [(xx, yy)]. *)
Definition relevant (xx yy : num) (c : Consumer) : bool :=
  let d := c_drawSpec c in
  num_gt (num_add (srcLeft d) (width d)) xx
  && num_lt (srcLeft d) (num_add xx (Fin OFFSCREEN_CANV_SIZE))
  && num_gt (num_add (srcTop d) (height d)) yy
  && num_lt (srcTop d) (num_add yy (Fin OFFSCREEN_CANV_SIZE)).

(** The [drawImage] call that copies the part of the block at [(xx, yy)]
    a consumer asked for. *)
Definition copy_out (xx yy : num) (c : Consumer) : Event :=
  let d := c_drawSpec c in
  let sLeft := to_int32 (Math_max (Fin 0) (num_sub (srcLeft d) xx)) in
  let sRight := to_int32 (Math_min (Fin OFFSCREEN_CANV_SIZE)
                            (num_sub (num_add (srcLeft d) (width d)) xx)) in
  let sTop := to_int32 (Math_max (Fin 0) (num_sub (srcTop d) yy)) in
  let sBottom := to_int32 (Math_min (Fin OFFSCREEN_CANV_SIZE)
                             (num_sub (num_add (srcTop d) (height d)) yy)) in
  let dLeft := num_add (destLeft d)
                 (if num_lt (srcLeft d) xx then num_sub xx (srcLeft d) else Fin 0) in
  let dTop := num_add (destTop d)
                (if num_lt (srcTop d) yy then num_sub yy (srcTop d) else Fin 0) in
  DrawImage (ctx c) sLeft sTop (sRight - sLeft) (sBottom - sTop) dLeft dTop.

(** The body of the inner loop, for the block at [(xx, yy)]. *)
Definition render_block (state : RenderState) (tilesSpec : list TileSpec)
    (xx yy : num) : M LoopRes :=
  let relevantConsumers := List.filter (relevant xx yy) (consumers state) in
  if decide (length relevantConsumers = 0%nat) then ret Done
  else
    forEach (λ t, let! tile := read_tile t in
                  update_tile t (set_posMatrix
                    (mkPosMatrix (num_sub (to_number (t_left tile)) xx)
                                 (num_sub (to_number (t_top tile)) yy)
                                 (tileSize tile * 2))))
            (rs_tiles state) ;;;
    match tilesSpec with
    | [] => throw TypeError
    | s0 :: _ =>
        emit (StyleUpdate (ts_z s0)) ;;;
        let! placed := gets (λ w, (λ t, (t, tiles w !! t ≫= posMatrix))
                                    <$> rs_tiles state) in
        emit (PainterRender placed) ;;;
        forEach (λ c, emit (copy_out xx yy c)) relevantConsumers ;;;
        ret Done
    end.

(** The bounding box of all source regions and the two nested loops. *)
Definition composite (state : RenderState) (tilesSpec : list TileSpec)
    : M LoopRes :=
  let ds := c_drawSpec <$> consumers state in
  let xSrcMin := fold_left Math_min (srcLeft <$> ds) PInf in
  let ySrcMin := fold_left Math_min (srcTop <$> ds) PInf in
  let xSrcMax :=
    fold_left Math_max ((λ d, num_add (srcLeft d) (width d)) <$> ds) NInf in
  let ySrcMax :=
    fold_left Math_max ((λ d, num_add (srcTop d) (height d)) <$> ds) NInf in
  for_blocks (blocks_fuel xSrcMin xSrcMax) xSrcMin xSrcMax (λ xx,
    for_blocks (blocks_fuel ySrcMin ySrcMax) ySrcMin ySrcMax (λ yy,
      render_block state tilesSpec xx yy)).

(** [tilesSpec.forEach((s, ii) => ...)] *)
Fixpoint forEach_indexed {A} (f : A → nat → M unit) (ii : nat) (l : list A)
    : M unit :=
  match l with
  | [] => ret tt
  | a :: l' => f a ii ;;; forEach_indexed f (S ii) l'
  end.

Definition reset_rendering : M unit :=
  modify (set_sourceCaches (fmap (set_currentlyRenderingTiles []))).

(** The failure message of a render with [bad] unavailable tiles. *)
Definition tiles_not_available (bad total : nat) : string :=
  (Z_to_string (Z.of_nat bad) ++ " of " ++ Z_to_string (Z.of_nat total)
   ++ " tiles not available")%string.

(** The continuation that [renderTiles] chains on [Promise.all] of the
    tile loads.  Every load is wrapped in a [catch] that records its
    index, so the combined promise always fulfils and the continuation
    runs once all loads have settled; [badTileIdxs] holds the indices of
    the loads that were rejected. *)
Definition tiles_settled (k : Continuation) (badTileIdxs : list nat)
    : M LoopRes :=
  let! state := pending (k_tileSetID k) in
  match state with
  | None => ret Done
  | Some state =>
      if decide (renderId state ≠ k_renderId k) then ret Done
      else
        let tilesSpec := k_tilesSpec k in
        let drawSpec := k_drawSpec k in
        let err :=
          if decide (length badTileIdxs = 0%nat) then None
          else Some (tiles_not_available (length badTileIdxs) (length tilesSpec)) in
        if Z.of_nat (length tilesSpec) - Z.of_nat (length badTileIdxs) =? 0
        then
          forEach (λ c, emit (ClearRect (ctx c) (destLeft drawSpec)
                                (destTop drawSpec) (width drawSpec)
                                (height drawSpec)))
                  (consumers state) ;;;
          _finishRender (k_tileSetID k) (k_renderId k) err ;;;
          ret Done
        else
          reset_rendering ;;;
          forEach_indexed
            (λ s ii,
               if decide (ii ∈ badTileIdxs) then ret tt
               else match rs_tiles state !! ii with
                    | None => throw TypeError
                    | Some t =>
                        update_tile t (set_placement (ts_size s) (ts_left s)
                                                     (ts_top s)) ;;;
                        read_cache (source s) ;;;
                        update_cache (source s)
                          (λ c, set_currentlyRenderingTiles
                                  (currentlyRenderingTiles c ++ [t]) c)
                    end)
            0%nat tilesSpec ;;;
          let! r := composite state tilesSpec in
          match r with
          | Loops => ret Loops
          | Done =>
              forEach (λ c, emit (Next (next c) err)) (consumers state) ;;;
              modify (set_pendingRenders (Map_delete (k_tileSetID k))) ;;;
              reset_rendering ;;;
              ret Done
          end
  end.

(** ** Auxiliary notions used in the statements *)

(** The fetch backend stores the decoded data in the tile before it calls
    back without error; from then on [hasData()] answers true. *)
Definition backend_stores_data (tile : nat) : M unit :=
  update_tile tile (set_hasData true).

(** The usage count of the tile at [r]. *)
Definition uses_of (w : World) (r : nat) : option Z := uses <$> tiles w !! r.

(** The tiles in the LRU cache of the source cache [this]. *)
Definition cached_tiles (this : string) (w : World) : list nat :=
  match sourceCaches w !! this with
  | Some c => Cache_tiles (_tileCache c)
  | None => []
  end.

(** The tiles in the in-use map of the source cache [this]. *)
Definition tiles_in_use (this : string) (w : World) : list nat :=
  match sourceCaches w !! this with
  | Some c => (map_to_list (_tilesInUse c)).*2
  | None => []
  end.

(** A tile whose last reference is about to be released and which is worth
    keeping: usage count 1, and data or the dud mark. *)
Definition last_use_with_data (w : World) (r : nat) : Prop :=
  ∃ t, tiles w !! r = Some t ∧ uses t = 1 ∧ hasData t || _isDud t = true.

(** ** Example stores *)

(** Four tiles of the source "a": usage counts 0, 2, 1 (with data) and 1
    (without data, not a dud); all four in the in-use map except the
    first. *)
Definition release_example : World :=
  mkWorld
    (list_to_map
       [(0%nat, mkTile (0, 0, 0) 256 0 (Some "a"%string) true false true None None None);
        (1%nat, mkTile (0, 1, 0) 256 2 (Some "a"%string) true false false None None None);
        (2%nat, mkTile (0, 2, 0) 256 1 (Some "a"%string) true false true None None None);
        (3%nat, mkTile (0, 3, 0) 256 1 (Some "a"%string) true false false None None None)])
    4
    {[ "a"%string :=
         mkSourceCache
           (list_to_map [((0, 1, 0), 1%nat); ((0, 2, 0), 2%nat); ((0, 3, 0), 3%nat)])
           (new_Cache TILE_CACHE_SIZE) [] ]}
    [] 0 0 [].

(** The tile at address [i] of a row of tiles that all hold data and are
    referenced once. *)
Definition row_tile (i : nat) : Tile :=
  mkTile (0, Z.of_nat i, 0) 256 1 (Some "a"%string) true false true None None None.

(** Twenty-one tiles of the source "a", each referenced once and holding
    data, and an empty LRU cache. *)
Definition lru_example : World :=
  mkWorld
    (list_to_map ((λ i, (i, row_tile i)) <$> seq 0 21))
    21
    {[ "a"%string :=
         mkSourceCache
           (list_to_map ((λ i, ((0, Z.of_nat i, 0), i)) <$> seq 0 21))
           (new_Cache TILE_CACHE_SIZE) [] ]}
    [] 0 0 [].

(** Events that signal a consumer through its completion callback. *)
Definition is_Next (e : Event) : bool :=
  match e with
  | Next _ _ => true
  | _ => false
  end.

(** Calls of the rendering backend and copies to a consumer. *)
Definition is_compositing (e : Event) : bool :=
  match e with
  | PainterRender _ | DrawImage _ _ _ _ _ _ _ | StyleUpdate _ => true
  | _ => false
  end.

(** The pending render a continuation or a token belongs to is no longer
    registered: its entry was removed, or the entry under its fingerprint
    has another render id. *)
Definition stale (id : string) (rid : Z) (w : World) : Prop :=
  match Map_get id (_pendingRenders w) with
  | None => True
  | Some state => renderId state ≠ rid
  end.

(** A tile reference that can be released: the tile is in use and knows
    the source cache that owns it. *)
Definition releasable (w : World) (r : nat) : Prop :=
  ∃ t c, tiles w !! r = Some t ∧ 0 < uses t ∧ cache t = Some c
         ∧ is_Some (sourceCaches w !! c).

(** A draw request over two neighbouring tiles of the source "a". *)
Definition example_drawSpec : DrawSpec :=
  mkDrawSpec (Fin 100) (Fin 50) (Fin 512) (Fin 256) (Fin 10) (Fin 20).

Definition example_tilesSpec : list TileSpec :=
  [mkTileSpec "a" 1 0 0 (Fin 100) (Fin 50) 256;
   mkTileSpec "a" 1 1 0 (Fin 356) (Fin 50) 256].

(** The same request in canonical form. *)
Definition example_canonical_drawSpec : DrawSpec :=
  mkDrawSpec (Fin 0) (Fin 0) (Fin 512) (Fin 256) (Fin 10) (Fin 20).

Definition example_canonical_tilesSpec : list TileSpec :=
  [mkTileSpec "a" 1 0 0 (Fin 0) (Fin 0) 256;
   mkTileSpec "a" 1 1 0 (Fin 256) (Fin 0) 256].

Definition example_consumer : Consumer :=
  mkConsumer 0 7 example_canonical_drawSpec example_canonical_tilesSpec 9.

Definition example_tileSetID : string :=
  "a 1 0 0 0 0 256 a 1 1 0 256 0 256".

Definition example_ref : RenderRef :=
  mkRenderRef 1 example_consumer [0%nat; 1%nat] example_tileSetID.

Definition example_continuation : Continuation :=
  mkContinuation example_tileSetID 1 example_canonical_drawSpec
                 example_canonical_tilesSpec.

(** The store after the request was submitted by the context 7 with the
    callback 9 to a fresh renderer. *)
Definition submitted_example : World :=
  (renderTiles 7 example_drawSpec example_tilesSpec 9
     (init_world ["a"%string])).2.

(** The tiles of [example_tilesSpec] listed in the other order and moved
    by [(1000, -7)], and a draw request over them. *)
Definition moved_tilesSpec : list TileSpec :=
  [mkTileSpec "a" 1 1 0 (Fin 1356) (Fin 43) 256;
   mkTileSpec "a" 1 0 0 (Fin 1100) (Fin 43) 256].

Definition moved_drawSpec : DrawSpec :=
  mkDrawSpec (Fin 1200) (Fin 50) (Fin 64) (Fin 32) (Fin 300) (Fin 400).

(** The request with an empty list of tile specs, in canonical form, and
    the store after it was submitted to a fresh renderer. *)
Definition empty_canonical_drawSpec : DrawSpec :=
  mkDrawSpec NInf NInf (Fin 512) (Fin 256) (Fin 10) (Fin 20).

Definition empty_continuation : Continuation :=
  mkContinuation "" 1 empty_canonical_drawSpec [].

Definition submitted_empty : World :=
  (renderTiles 7 example_drawSpec [] 9 (init_world ["a"%string])).2.

(** ** Blocks *)

(** The block origins [lo], [lo + 1024], ... that lie below [hi]. *)
Definition block_origins (lo hi : Z) : list Z :=
  (λ i, lo + OFFSCREEN_CANV_SIZE * Z.of_nat i)
    <$> seq 0 (Z.to_nat ((hi - lo + OFFSCREEN_CANV_SIZE - 1) / OFFSCREEN_CANV_SIZE)).

(** Column by column: all blocks of the first x, top to bottom, then those
    of the next x. *)
Definition column_major (xs ys : list Z) : list (Z * Z) :=
  x ← xs; y ← ys; [(x, y)].

(** Row by row: all blocks of the first y, left to right, then those of
    the next y. *)
Definition row_major (xs ys : list Z) : list (Z * Z) :=
  y ← ys; x ← xs; [(x, y)].

(** Running a loop body on the elements of a list, one after the other. *)
Fixpoint run_list {A} (body : A → M LoopRes) (l : list A) : M LoopRes :=
  match l with
  | [] => ret Done
  | a :: l' =>
      let! r := body a in
      match r with
      | Loops => ret Loops
      | Done => run_list body l'
      end
  end.

(** Running the body of the inner loop on a list of block origins. *)
Definition each_block (body : num → num → M LoopRes) (bs : list (Z * Z))
    : M LoopRes :=
  run_list (λ b, body (Fin b.1) (Fin b.2)) bs.

(** The destination offsets of the [drawImage] calls of a trace. *)
Definition drawn_at (tr : list Event) : list (num * num) :=
  omap (λ e, match e with
             | DrawImage _ _ _ _ _ dx dy => Some (dx, dy)
             | _ => None
             end) tr.

(** A request for a square of 2 x 2 blocks covered by one tile, and the
    store after it was submitted by the context 7 with the callback 9. *)
Definition square_drawSpec : DrawSpec :=
  mkDrawSpec (Fin 0) (Fin 0) (Fin 2048) (Fin 2048) (Fin 0) (Fin 0).

Definition square_tilesSpec : list TileSpec :=
  [mkTileSpec "a" 3 1 2 (Fin 0) (Fin 0) 2048].

Definition square_continuation : Continuation :=
  mkContinuation "a 3 1 2 0 0 2048" 1 square_drawSpec square_tilesSpec.

Definition square_state : RenderState :=
  mkRenderState "a 3 1 2 0 0 2048" 1 [0%nat]
                [mkConsumer 0 7 square_drawSpec square_tilesSpec 9].

Definition submitted_square : World :=
  (renderTiles 7 square_drawSpec square_tilesSpec 9 (init_world ["a"%string])).2.

(** ** Coalescing *)

(** A tile spec moved by [(dx, dy)] on the imaginary canvas. *)
Definition translate (dx dy : Z) (s : TileSpec) : TileSpec :=
  mkTileSpec (source s) (ts_z s) (ts_x s) (ts_y s)
             (num_add (ts_left s) (Fin dx)) (num_add (ts_top s) (Fin dy))
             (ts_size s).

(** The tile list of every pending render holds pairwise distinct tile
    objects. *)
Definition pending_tiles_distinct (w : World) : Prop :=
  Forall (λ kv, NoDup (rs_tiles kv.2)) (_pendingRenders w).

(** ** Reachable stores *)

(** One call into the renderer or a source cache, or one event delivered
    by the fetch backend or a timer. *)
Inductive step : World → World → Prop :=
  | step_renderTiles cx d ts nxt w : step w (renderTiles cx d ts nxt w).2
  | step_releaseRender renderRef w : step w (releaseRender renderRef w).2
  | step_tiles_settled k bad w : step w (tiles_settled k bad w).2
  | step_cancelAll w : step w (_cancelAllPendingRenders w).2
  | step_acquireTile this id sz w : step w (acquireTile this id sz w).2
  | step_releaseTile this t w : step w (releaseTile this t w).2
  | step_load_timeout this t w : step w (load_timeout this t w).2
  | step_load_callback t err w : step w (load_callback t err w).2
  | step_backend_stores_data t w : step w (backend_stores_data t w).2.

(** The stores a renderer over the sources [names] can be in. *)
Definition reachable (names : list string) (w : World) : Prop :=
  rtc step (init_world names) w.

(** A computation that leaves the registry of pending renders alone,
    whether it returns or throws. *)
Definition keeps_pending {A} (m : M A) : Prop :=
  ∀ w, _pendingRenders (m w).2 = _pendingRenders w.

(** A computation that maintains [pending_tiles_distinct], whether it
    returns or throws. *)
Definition keeps_distinct {A} (m : M A) : Prop :=
  ∀ w, pending_tiles_distinct w → pending_tiles_distinct (m w).2.

(** ** Notions used for the geometry of the copies *)



(** ** What a computation may append to the trace *)

(** Every event a computation appends to the trace satisfies [P], whether
    it returns or throws. *)
Definition emits_only {A} (P : Event → Prop) (m : M A) : Prop :=
  ∀ w, ∃ evs, trace (m w).2 = trace w ++ evs ∧ Forall P evs.

(** Requests to load a tile. *)
Definition is_LoadTile (e : Event) : Prop :=
  match e with
  | LoadTile _ _ => True
  | _ => False
  end.

(** Calls into the fetch backend. *)
Definition is_backend (e : Event) : Prop :=
  match e with
  | LoadTile _ _ | AbortTile _ _ | UnloadTile _ _ => True
  | _ => False
  end.

(** The callbacks of the trace, with what they were told. *)
Definition callbacks (tr : list Event) : list (nat * option string) :=
  omap (λ e, match e with
             | Next cb err => Some (cb, err)
             | _ => None
             end) tr.

(** The tile object [acquireTile] creates for a tile spec. *)
Definition acquired_tile (s : TileSpec) : Tile :=
  mkTile (ts_z s, ts_x s, ts_y s) (ts_size s) 1 (Some (source s))
         true false false None None None.

(** The loads requested for a list of tile specs whose tiles are created
    from the address [base] on. *)
Definition loads_from (base : nat) (ts : list TileSpec) : list Event :=
  imap (λ i s, LoadTile (source s) (base + i)) ts.

(** The state found under a token's fingerprint, if any, carries that
    fingerprint. *)
Definition keyed_at (id : string) (w : World) : Prop :=
  ∀ state, Map_get id (_pendingRenders w) = Some state → tileSetID state = id.

(** ** Invariants *)

(** A computation that maintains [I], whether it returns or throws. *)
Definition preserves {A} (I : World → Prop) (m : M A) : Prop :=
  ∀ w, I w → I (m w).2.

(** No tile has a negative usage count. *)
Definition uses_nonneg (w : World) : Prop :=
  ∀ r t, tiles w !! r = Some t → 0 ≤ uses t.

(** The ownership discipline of the source caches: tile addresses are
    below [nextTile]; a tile held by an in-use map is held under its own
    coordinate; and a tile in the LRU cache of a source cache is not held
    by the in-use map of that source cache. *)
Definition owned_once (w : World) : Prop :=
  (∀ r, is_Some (tiles w !! r) → (r < nextTile w)%nat)
  ∧ ∀ n c, sourceCaches w !! n = Some c →
      (∀ k r, _tilesInUse c !! k = Some r →
              ∃ t, tiles w !! r = Some t ∧ tileID t = k)
      ∧ (∀ r, r ∈ Cache_tiles (_tileCache c) →
              ∃ t, tiles w !! r = Some t ∧ _tilesInUse c !! tileID t ≠ Some r).

(** The registry of pending renders is well formed: one entry per
    fingerprint, every state registered under its own fingerprint, render
    ids pairwise distinct and not above the last one handed out. *)
Definition registry_ok (w : World) : Prop :=
  NoDup (_pendingRenders w).*1
  ∧ NoDup (renderId <$> (_pendingRenders w).*2)
  ∧ ∀ k state, (k, state) ∈ _pendingRenders w →
               tileSetID state = k ∧ renderId state ≤ _nextRenderId w.

(** The calls that tell the consumers of a list of pending renders
    [err], state by state and in attachment order. *)
Definition settle_all (err : option string) (m : list (string * RenderState))
    : list Event :=
  (λ c, Next (next c) err) <$> (m.*2 ≫= consumers).

(** ** Configuration changes

    [setPaintProperty], [setLayoutProperty] and [setFilter] queue a call on
    the style and ask for the queue to be processed; the processing runs
    later, once the style is loaded, as the continuation of
    [this.style.loadedPromise.then].  The fields [_configId] and
    [_queuedConfigChanges] and the calls made on the style and on the event
    emitter are kept in a record beside the store. *)

(** The values handed on to the style; the renderer never looks at them. *)
Definition JSValue : Type := string.

(** A queued closure, by the call on [this.style] it makes when run. *)
Inductive Change : Type :=
  | PaintProperty (layer prop : string) (val : JSValue)
  | LayoutProperty (layer prop : string) (val : JSValue)
  | Filter (layer : string) (filter : JSValue).

(** The calls of the configuration code on the style and on [this.fire]. *)
Inductive ConfigCall : Type :=
  | StyleSet (ch : Change)
  | Fire (type : string).

Record Config : Type := mkConfig {
  _configId : Z;
  _queuedConfigChanges : list Change;
  config_calls : list ConfigCall
}.

(** The constructor: [_configId = 0] and an empty queue. *)
Definition new_Config : Config := mkConfig 0 [] [].

(** What a [setXYZ] method returns: with [exec] the promise of
    [_processConfigQueue(id)], else the function that asks for it when
    called. *)
Inductive SetResult : Type :=
  | Promised (calledByConfigId : Z)
  | Deferred.

(** The body shared by the three [setXYZ] methods. *)
Definition queue_change (ch : Change) (exec : bool) (s : Config)
    : SetResult * Config :=
  let q := _queuedConfigChanges s ++ [ch] in
  if exec then
    (Promised (_configId s + 1), mkConfig (_configId s + 1) q (config_calls s))
  else (Deferred, mkConfig (_configId s) q (config_calls s)).

(** [setPaintProperty(layer, prop, val, exec)] *)
Definition setPaintProperty (layer prop : string) (val : JSValue) (exec : bool)
    : Config → SetResult * Config :=
  queue_change (PaintProperty layer prop val) exec.

(** [setLayoutProperty(layer, prop, val, exec)] *)
Definition setLayoutProperty (layer prop : string) (val : JSValue) (exec : bool)
    : Config → SetResult * Config :=
  queue_change (LayoutProperty layer prop val) exec.

(** [setFilter(layer, filter, exec)] *)
Definition setFilter (layer : string) (filter : JSValue) (exec : bool)
    : Config → SetResult * Config :=
  queue_change (Filter layer filter) exec.

(** A call of the function returned with [exec = false]:
    [() => this._processConfigQueue(++this._configId)]; the result is the
    id the processing is asked for. *)
Definition call_deferred (s : Config) : Z * Config :=
  (_configId s + 1,
   mkConfig (_configId s + 1) (_queuedConfigChanges s) (config_calls s)).

(** How the promise returned by [_processConfigQueue] settles. *)
Inductive Settled : Type :=
  | Resolved (b : bool)
  | Rejected.

Section config.
(** The style is not part of this file: whether a call on it throws is
    its decision, taken on the calls made so far and the call at hand. *)
Variable style_throws : list ConfigCall → Change → bool.

(** [while (queue.length) queue.shift()()]: the calls made, the queue
    that is left and whether a call threw. *)
Fixpoint drain (calls : list ConfigCall) (queue : list Change)
    : list ConfigCall * list Change * bool :=
  match queue with
  | [] => (calls, [], false)
  | ch :: queue' =>
      if style_throws calls ch then (calls ++ [StyleSet ch], queue', true)
      else drain (calls ++ [StyleSet ch]) queue'
  end.

(** The continuation of [_processConfigQueue(calledByConfigId)]. *)
Definition _processConfigQueue (calledByConfigId : Z) (sw : Config * World)
    : Settled * (Config * World) :=
  let '(s, w) := sw in
  if decide (_configId s ≠ calledByConfigId) then (Resolved false, (s, w))
  else
    match _cancelAllPendingRenders w with
    | (Throw _, w1) => (Rejected, (s, w1))
    | (Ok _, w1) =>
        let '(calls, queue, thrown) :=
          drain (config_calls s) (_queuedConfigChanges s) in
        if thrown then (Rejected, (mkConfig (_configId s) queue calls, w1))
        else
          (Resolved true,
           (mkConfig (_configId s) queue
                     (calls ++ [Fire "configChanged"]),
            (emit (StyleUpdate 16) w1).2))
    end.

(** The continuations of several calls, run one after the other. *)
Fixpoint run_continuations (ids : list Z) (sw : Config * World)
    : list Settled * (Config * World) :=
  match ids with
  | [] => ([], sw)
  | id :: ids' =>
      let '(r, sw1) := _processConfigQueue id sw in
      let '(rs, sw2) := run_continuations ids' sw1 in
      (r :: rs, sw2)
  end.

(** One thing that happens to the configuration: a [setXYZ] call, a call
    of a function returned with [exec = false], or a continuation. *)
Inductive ConfigOp : Type :=
  | Op_set (ch : Change) (exec : bool)
  | Op_call_deferred
  | Op_continue (calledByConfigId : Z).

Definition run_op (sw : Config * World) (op : ConfigOp) : Config * World :=
  match op with
  | Op_set ch exec => ((queue_change ch exec sw.1).2, sw.2)
  | Op_call_deferred => ((call_deferred sw.1).2, sw.2)
  | Op_continue id => (_processConfigQueue id sw).2
  end.

Definition run_ops (ops : list ConfigOp) (sw : Config * World)
    : Config * World :=
  foldl run_op sw ops.
End config.

(** [setXYZ(..., true)] called for every change of a list, in order. *)
Fixpoint set_all (chs : list Change) (s : Config) : list SetResult * Config :=
  match chs with
  | [] => ([], s)
  | ch :: chs' =>
      let '(r, s1) := queue_change ch true s in
      let '(rs, s2) := set_all chs' s1 in
      (r :: rs, s2)
  end.

(** The changes queued by a list of operations, in order. *)
Definition pushed (ops : list ConfigOp) : list Change :=
  omap (λ op, match op with Op_set ch _ => Some ch | _ => None end) ops.

(** The changes the style was called with, in order. *)
Definition changes_of (calls : list ConfigCall) : list Change :=
  omap (λ c, match c with StyleSet ch => Some ch | _ => None end) calls.

(** The operations that take a new id, and how many ids a list of
    operations takes. *)
Definition issues_id (op : ConfigOp) : bool :=
  match op with
  | Op_set _ true | Op_call_deferred => true
  | _ => false
  end.

Definition ids_issued (ops : list ConfigOp) : Z :=
  Z.of_nat (length (filter (λ op, Is_true (issues_id op)) ops)).

(** ** Queries *)

(** A feature returned by the query of the style: the source layer of its
    render layer ([layer['source-layer']]) and the properties of its
    vector tile feature. *)
Record Feature : Type := mkFeature {
  source_layer : string;
  properties : JSValue
}.

(** The properties every object literal inherits from [Object.prototype];
    reading one of them from [{}] gives a function (or, for [__proto__],
    the prototype), which is truthy and has no [push]. *)
Definition Object_prototype_names : list string :=
  ["constructor"; "__defineGetter__"; "__defineSetter__"; "hasOwnProperty";
   "__lookupGetter__"; "__lookupSetter__"; "isPrototypeOf";
   "propertyIsEnumerable"; "toString"; "valueOf"; "__proto__";
   "toLocaleString"]%string.

(** [lyr = (acc[sl] = acc[sl] || []); lyr.push(properties)] on the own
    properties [acc] of the object; [None] when [lyr.push] is no function
    and the call throws a TypeError. *)
Definition push_feature (acc : gmap string (list JSValue)) (f : Feature)
    : option (gmap string (list JSValue)) :=
  match acc !! source_layer f with
  | Some lyr => Some (<[source_layer f := lyr ++ [properties f]]> acc)
  | None =>
      if decide (source_layer f ∈ Object_prototype_names) then None
      else Some (<[source_layer f := [properties f]]> acc)
  end.

(** The two [forEach] loops over the render layers and their features. *)
Fixpoint push_features (acc : gmap string (list JSValue)) (fs : list Feature)
    : option (gmap string (list JSValue)) :=
  match fs with
  | [] => Some acc
  | f :: fs' => acc' ← push_feature acc f; push_features acc' fs'
  end.

Fixpoint push_render_layers (acc : gmap string (list JSValue))
    (l : list (string * list Feature)) : option (gmap string (list JSValue)) :=
  match l with
  | [] => Some acc
  | kv :: l' => acc' ← push_features acc kv.2; push_render_layers acc' l'
  end.

(** How a call of [queryRenderedFeatures] ends. *)
Inductive QueryOutcome : Type :=
  | Throws_Error (message : string)
  | Throws_TypeError
  | Returns (featuresBySourceLayer : gmap string (list JSValue)).

(** [queryRenderedFeatures(opts)], given [opts.source] and the answer
    [featuresByRenderLayer] of the query of the style with its entries in
    the order of [Object.keys]. *)
Definition queryRenderedFeatures (source : option string)
    (featuresByRenderLayer : list (string * list Feature)) : QueryOutcome :=
  match source with
  | None | Some "" => Throws_Error "source option is required"
  | Some _ =>
      match push_render_layers ∅ featuresByRenderLayer with
      | Some featuresBySourceLayer => Returns featuresBySourceLayer
      | None => Throws_TypeError
      end
  end%string.

(** * Properties *)

(** ** Running computations *)

Ltac unfold_M :=
  unfold emit, update_tile, update_cache, pending in *;
  unfold bind, ret, throw, gets, modify, read_tile, read_cache, alloc in *.

Lemma bind_ok {A B} (m : M A) (k : A → M B) w a w' :
  m w = (Ok a, w') → bind m k w = k a w'.
Proof. unfold bind. by intros ->. Qed.

Lemma bind_throw {A B} (m : M A) (k : A → M B) w e w' :
  m w = (Throw e, w') → bind m k w = (Throw e, w').
Proof. unfold bind. by intros ->. Qed.

Lemma forEach_app {A} (f : A → M unit) l1 l2 w w1 :
  forEach f l1 w = (Ok tt, w1) → forEach f (l1 ++ l2) w = forEach f l2 w1.
Proof.
  revert w. induction l1 as [|a l1 IH]; intros w; simpl.
  - unfold ret. by intros [= ->].
  - unfold bind. destruct (f a w) as [[[]|e] wa]; [apply IH | done].
Qed.

(** Emitting a list of events one after the other. *)
Lemma forEach_emit {A} (f : A → Event) l w :
  forEach (λ a, emit (f a)) l w = (Ok tt, set_trace (λ tr, tr ++ (f <$> l)) w).
Proof.
  revert w. induction l as [|a l IH]; intros w; simpl.
  - unfold ret. destruct w; unfold set_trace; simpl. by rewrite app_nil_r.
  - unfold bind, emit, modify at 1. rewrite IH.
    destruct w; unfold set_trace; simpl. by rewrite <- app_assoc.
Qed.

(** ** The source cache: acquiring *)

(** Whatever the manager already tracks, [acquireTile] allocates a new
    tile object, registers it under the coordinate and requests a load. *)
Lemma acquireTile_fresh this id sz w :
  acquireTile this id sz w =
    (Ok (nextTile w),
     mkWorld (<[nextTile w :=
                 mkTile id sz 1 (Some this) true false false None None None]>
                (tiles w))
             (S (nextTile w))
             (alter (set_tilesInUse <[id := nextTile w]>) this (sourceCaches w))
             (_pendingRenders w) (_nextRenderId w) (nextConsumer w)
             (trace w ++ [LoadTile this (nextTile w)])).
Proof.
  unfold acquireTile. unfold_M. simpl.
  rewrite !lookup_alter_eq, lookup_insert_eq. simpl.
  do 2 f_equal. unfold set_tiles, set_trace, set_sourceCaches, set_nextTile; simpl.
  f_equal.
  apply map_eq; intros r. destruct (decide (r = nextTile w)) as [->|Hne].
  - by rewrite !lookup_alter_eq, !lookup_insert_eq.
  - by rewrite !lookup_alter_ne, !lookup_insert_ne by done.
Qed.

(** ** The source cache: releasing *)

Lemma alter_Some `{Countable K} {V} (f : V → V) (m : gmap K V) k v :
  m !! k = Some v → alter f k m = <[k := f v]> m.
Proof.
  intros Hk. apply map_eq; intros r. destruct (decide (r = k)) as [->|Hne].
  - by rewrite lookup_alter_eq, lookup_insert_eq, Hk.
  - by rewrite lookup_alter_ne, lookup_insert_ne by done.
Qed.

Lemma Cache_add_holds id t c :
  (0 < cache_max c)%nat → (id, t) ∈ order (Cache_add id t c).1.
Proof.
  intros Hmax. unfold Cache_add.
  destruct (cache_max c <? length (order c ++ [(id, t)]))%nat eqn:Hfull; simpl.
  - destruct (order c) as [|[k old] rest] eqn:Ho; simpl in *.
    + apply Nat.ltb_lt in Hfull. simpl in Hfull. lia.
    + apply elem_of_app. right. by left.
  - apply elem_of_app. right. by left.
Qed.

Lemma releaseTile_last this tile t c w :
  tiles w !! tile = Some t →
  sourceCaches w !! this = Some c →
  uses t = 1 →
  releaseTile this tile w =
    (Ok tt,
     if hasData t || _isDud t then
       mkWorld (<[tile := set_uses (λ u, u - 1) t]> (tiles w)) (nextTile w)
         (<[this := mkSourceCache (delete (tileID t) (_tilesInUse c))
                      (Cache_add (tileID t) tile (_tileCache c)).1
                      (currentlyRenderingTiles c)]> (sourceCaches w))
         (_pendingRenders w) (_nextRenderId w) (nextConsumer w)
         (trace w ++ match (Cache_add (tileID t) tile (_tileCache c)).2 with
                     | Some old => [UnloadTile this old]
                     | None => []
                     end)
     else
       mkWorld (<[tile := set_uses (λ u, u - 1) t]> (tiles w)) (nextTile w)
         (<[this := mkSourceCache (delete (tileID t) (_tilesInUse c))
                      (_tileCache c) (currentlyRenderingTiles c)]>
            (sourceCaches w))
         (_pendingRenders w) (_nextRenderId w) (nextConsumer w)
         (trace w ++ [AbortTile this tile; UnloadTile this tile])).
Proof.
  intros Ht Hc Hu. unfold releaseTile. unfold_M. rewrite Ht, Hu. simpl.
  destruct (hasData t || _isDud t) eqn:Hd;
    unfold set_tiles, set_sourceCaches, set_trace; simpl;
    rewrite ?(alter_Some _ _ _ _ Ht), ?(alter_Some _ _ _ _ Hc).
  - rewrite lookup_insert_eq. simpl.
    destruct (Cache_add (tileID t) tile (_tileCache c)) as [k [old|]] eqn:Hadd;
      simpl; unfold set_tiles, set_sourceCaches, set_trace; simpl;
      rewrite (alter_Some _ _ _ _ (lookup_insert_eq _ _ _)), insert_insert_eq;
      [done | by rewrite app_nil_r].
  - by rewrite <- app_assoc.
Qed.

Lemma releaseTile_still_used this tile t w :
  tiles w !! tile = Some t →
  1 < uses t →
  releaseTile this tile w
  = (Ok tt, set_tiles <[tile := set_uses (λ u, u - 1) t]> w).
Proof.
  intros Ht Hu. unfold releaseTile. unfold_M. rewrite Ht.
  destruct (0 <? uses t) eqn:Hlt; [|apply Z.ltb_ge in Hlt; lia]. simpl.
  destruct (0 <? uses t - 1) eqn:Hlt'; [|apply Z.ltb_ge in Hlt'; lia].
  unfold set_tiles; simpl. by rewrite (alter_Some _ _ _ _ Ht).
Qed.

(** C6: [releaseTile] fails its assertion when the usage count is already
    0 (or below); otherwise it decrements the count.  When the count
    reaches 0 the entry under the tile's coordinate is deleted from the
    in-use map and, if the tile has data or is a dud, the tile is added to
    the LRU cache (the only possible backend call being the unload of an
    evicted entry); otherwise its fetch is aborted and it is unloaded
    without being cached. *)
Theorem releaseTile_spec this tile t c w :
  tiles w !! tile = Some t →
  sourceCaches w !! this = Some c →
  (uses t ≤ 0 → releaseTile this tile w = (Throw AssertionError, w))
  ∧ (1 < uses t →
     releaseTile this tile w
     = (Ok tt, set_tiles <[tile := set_uses (λ u, u - 1) t]> w))
  ∧ (uses t = 1 →
     ∃ w' c',
       releaseTile this tile w = (Ok tt, w')
       ∧ tiles w' !! tile = Some (set_uses (λ _, 0) t)
       ∧ sourceCaches w' !! this = Some c'
       ∧ _tilesInUse c' = delete (tileID t) (_tilesInUse c)
       ∧ (hasData t || _isDud t = true →
          _tileCache c' = (Cache_add (tileID t) tile (_tileCache c)).1
          ∧ ((0 < cache_max (_tileCache c))%nat →
             (tileID t, tile) ∈ order (_tileCache c'))
          ∧ trace w' = trace w ++
              match (Cache_add (tileID t) tile (_tileCache c)).2 with
              | Some old => [UnloadTile this old]
              | None => []
              end)
       ∧ (hasData t || _isDud t = false →
          _tileCache c' = _tileCache c
          ∧ trace w' = trace w ++ [AbortTile this tile; UnloadTile this tile])).
Proof.
  intros Ht Hc. split; [|split].
  - intros Hu. unfold releaseTile. unfold_M. rewrite Ht.
    destruct (0 <? uses t) eqn:Hlt; [apply Z.ltb_lt in Hlt; lia | done].
  - intros Hu. by apply releaseTile_still_used.
  - intros Hu. rewrite (releaseTile_last _ _ _ _ _ Ht Hc Hu).
    assert (Hz : set_uses (λ u, u - 1) t = set_uses (λ _, 0) t).
    { unfold set_uses. by rewrite Hu. }
    destruct (hasData t || _isDud t) eqn:Hd.
    + eexists _, _. split; [done|]. simpl. rewrite !lookup_insert_eq, Hz.
      repeat split; try done. intros Hmax. by apply Cache_add_holds.
    + eexists _, _. split; [done|]. simpl. rewrite !lookup_insert_eq, Hz.
      repeat split; done.
Qed.

(** ** Acquiring a coordinate that is already tracked *)

(** C1 (the code at the failing input): a coordinate is acquired twice in
    a row.  The second call does not return the tile the in-use map holds:
    it constructs a second tile, replaces the entry and requests a second
    load.  The same happens when the first tile sits in the LRU cache: it
    stays there, and a new tile is constructed and loaded. *)
Theorem acquireTile_tracked_coordinate :
  let w0 := init_world ["a"%string] in
  (∃ w1 w2,
     acquireTile "a" (1, 2, 3) 256 w0 = (Ok 0%nat, w1)
     ∧ getTile "a" (1, 2, 3) w1 = Some 0%nat
     ∧ acquireTile "a" (1, 2, 3) 256 w1 = (Ok 1%nat, w2)
     ∧ getTile "a" (1, 2, 3) w2 = Some 1%nat
     ∧ uses_of w2 0%nat = Some 1
     ∧ uses_of w2 1%nat = Some 1
     ∧ trace w2 = [LoadTile "a" 0; LoadTile "a" 1])
  ∧ (∃ w1 w2,
       (acquireTile "a" (1, 2, 3) 256 ;;; backend_stores_data 0 ;;;
        releaseTile "a" 0) w0 = (Ok tt, w1)
       ∧ cached_tiles "a" w1 = [0%nat]
       ∧ acquireTile "a" (1, 2, 3) 256 w1 = (Ok 1%nat, w2)
       ∧ cached_tiles "a" w2 = [0%nat]
       ∧ getTile "a" (1, 2, 3) w2 = Some 1%nat
       ∧ uses_of w2 0%nat = Some 0
       ∧ trace w2 = [LoadTile "a" 0; LoadTile "a" 1]).
Proof.
  split.
  - eexists _, _. split; [vm_compute; reflexivity|].
    split; [vm_compute; reflexivity|].
    split; [vm_compute; reflexivity|].
    repeat split; vm_compute; reflexivity.
  - eexists _, _. split; [vm_compute; reflexivity|].
    split; [vm_compute; reflexivity|].
    split; [vm_compute; reflexivity|].
    repeat split; vm_compute; reflexivity.
Qed.

(** C2 (the code at the failing input): after a coordinate was acquired
    twice, the first tile still has usage count 1 but the in-use map holds
    the second tile and the LRU cache is empty: the first tile is in
    neither collection.  Releasing the first tile then deletes the entry
    of the second one, which keeps usage count 1 and is in neither
    collection either. *)
Theorem acquired_tile_in_neither_collection :
  let w0 := init_world ["a"%string] in
  ∃ w2 w3,
    (acquireTile "a" (1, 2, 3) 256 ;;; acquireTile "a" (1, 2, 3) 256) w0
    = (Ok 1%nat, w2)
    ∧ uses_of w2 0%nat = Some 1
    ∧ tiles_in_use "a" w2 = [1%nat]
    ∧ cached_tiles "a" w2 = []
    ∧ releaseTile "a" 0 w2 = (Ok tt, w3)
    ∧ uses_of w3 1%nat = Some 1
    ∧ tiles_in_use "a" w3 = []
    ∧ cached_tiles "a" w3 = [].
Proof.
  eexists _, _. split; [vm_compute; reflexivity|].
  do 3 (split; [vm_compute; reflexivity|]).
  split; [vm_compute; reflexivity|].
  repeat split; vm_compute; reflexivity.
Qed.

(** ** The LRU cache: eviction *)

Lemma Cache_add_room id t c :
  (length (order c) < cache_max c)%nat →
  Cache_add id t c = (mkCache (cache_max c) (order c ++ [(id, t)]), None).
Proof.
  intros Hlen. unfold Cache_add. rewrite length_app. simpl.
  destruct (Nat.ltb_spec (cache_max c) (length (order c) + 1)); [lia | done].
Qed.

Lemma Cache_add_full id t c k old rest :
  order c = (k, old) :: rest →
  length (order c) = cache_max c →
  Cache_add id t c = (mkCache (cache_max c) (rest ++ [(id, t)]), Some old).
Proof.
  intros Ho Hlen. unfold Cache_add. rewrite length_app, Ho in *. simpl in *.
  destruct (Nat.ltb_spec (cache_max c) (S (length rest + 1))); [done | lia].
Qed.

(** Releasing tiles with data while the cache has room: they are appended
    to the cache in the order of release and the backend is not called. *)
Lemma release_into_room this ts : ∀ w c,
  sourceCaches w !! this = Some c →
  (length (order (_tileCache c)) + length ts ≤ cache_max (_tileCache c))%nat →
  NoDup ts →
  (∀ r, r ∈ ts → last_use_with_data w r) →
  ∃ w' c',
    forEach (releaseTile this) ts w = (Ok tt, w')
    ∧ sourceCaches w' !! this = Some c'
    ∧ cache_max (_tileCache c') = cache_max (_tileCache c)
    ∧ Cache_tiles (_tileCache c') = Cache_tiles (_tileCache c) ++ ts
    ∧ trace w' = trace w
    ∧ (∀ r, r ∉ ts → tiles w' !! r = tiles w !! r).
Proof.
  induction ts as [|r ts IH]; intros w c Hc Hlen Hnd Hall.
  - exists w, c. simpl. rewrite app_nil_r. by repeat split.
  - apply NoDup_cons in Hnd as [Hr Hnd].
    destruct (Hall r) as (t & Ht & Hu & Hd); [by left|].
    simpl in Hlen.
    pose proof (releaseTile_last _ _ _ _ _ Ht Hc Hu) as Hrel.
    rewrite Hd, Cache_add_room in Hrel by lia. simpl in Hrel.
    rewrite app_nil_r in Hrel.
    match type of Hrel with
    | _ = (_, ?x) =>
        remember x as w1 eqn:Hw1;
        match x with
        | context [<[this := ?c1]> (sourceCaches w)] =>
            destruct (IH w1 c1)
              as (w' & c' & Hrun & Hc' & Hmax & Hts & Htr & Hfr)
        end
    end.
    + subst w1; simpl. apply lookup_insert_eq.
    + simpl. rewrite length_app. simpl. lia.
    + done.
    + intros r' Hr'. destruct (Hall r') as (t' & Ht' & Hrest'); [by right|].
      exists t'. split; [|done]. subst w1; simpl.
      rewrite lookup_insert_ne; [done | by intros ->].
    + exists w', c'. simpl. rewrite (bind_ok _ _ _ _ _ Hrel).
      simpl in Hmax, Hts.
      split; [exact Hrun|]. split; [exact Hc'|]. split; [exact Hmax|].
      split; [|split].
      * rewrite Hts. unfold Cache_tiles. simpl.
        rewrite fmap_app. simpl. by rewrite <- app_assoc.
      * rewrite Htr. by subst w1.
      * intros r' Hr'. apply not_elem_of_cons in Hr' as [Hne Hr'].
        rewrite Hfr by done. subst w1; simpl.
        by rewrite lookup_insert_ne.
Qed.

(** C9: a source cache is created with a cache of capacity 20.  Releasing
    the last reference of 20 distinct tiles that hold data fills it
    without any backend call; releasing a 21st such tile evicts the tile
    that was released first and calls [unloadTile] on it. *)
Theorem lru_evicts_least_recently_released this w c t1 ts t21 :
  sourceCaches w !! this = Some c →
  _tileCache c = new_Cache TILE_CACHE_SIZE →
  length (t1 :: ts) = TILE_CACHE_SIZE →
  NoDup (t1 :: ts ++ [t21]) →
  (∀ r, r ∈ t1 :: ts ++ [t21] → last_use_with_data w r) →
  ∃ w20 w21,
    forEach (releaseTile this) (t1 :: ts) w = (Ok tt, w20)
    ∧ cached_tiles this w20 = t1 :: ts
    ∧ trace w20 = trace w
    ∧ releaseTile this t21 w20 = (Ok tt, w21)
    ∧ cached_tiles this w21 = ts ++ [t21]
    ∧ trace w21 = trace w ++ [UnloadTile this t1].
Proof.
  intros Hc Hnew Hlen Hnd Hall.
  change (t1 :: ts ++ [t21]) with ((t1 :: ts) ++ [t21]) in *.
  apply NoDup_app in Hnd as (Hnd & Hdis & _).
  destruct (release_into_room this (t1 :: ts) w c)
    as (w20 & c20 & Hrun & Hc20 & Hmax & Hts & Htr & Hfr); try done.
  { rewrite Hnew. simpl. unfold TILE_CACHE_SIZE in *. simpl in Hlen. lia. }
  { intros r Hr. apply Hall, elem_of_app. by left. }
  rewrite Hnew in Hts, Hmax. simpl in Hts, Hmax.
  destruct (Hall t21) as (t & Ht & Hu & Hd);
    [apply elem_of_app; right; by left|].
  assert (Ht' : tiles w20 !! t21 = Some t).
  { rewrite Hfr; [done|]. intros Hin. apply (Hdis t21 Hin). by left. }
  pose proof (releaseTile_last _ _ _ _ _ Ht' Hc20 Hu) as Hrel.
  rewrite Hd in Hrel.
  unfold Cache_tiles in Hts.
  destruct (order (_tileCache c20)) as [|[k old] rest] eqn:Ho; [done|].
  rewrite fmap_cons in Hts. injection Hts as -> Hrest.
  erewrite Cache_add_full in Hrel; [| done |].
  2:{ rewrite Hmax, Ho, <- Hlen. simpl. f_equal.
      by rewrite <- Hrest, length_fmap. }
  simpl in Hrel.
  eexists w20, _. split; [done|]. split.
  { unfold cached_tiles, Cache_tiles. by rewrite Hc20, Ho, fmap_cons, Hrest. }
  split; [done|]. split; [exact Hrel|]. split.
  - unfold cached_tiles, Cache_tiles. cbn [sourceCaches].
    rewrite lookup_insert_eq. cbn [_tileCache order].
    by rewrite fmap_app, Hrest.
  - simpl. by rewrite Htr.
Qed.

(** The four cases of the theorem on the tiles of [release_example]. *)
Lemma releaseTile_spec_witness :
  let w := release_example in
  let c := mkSourceCache
             (list_to_map [((0, 1, 0), 1%nat); ((0, 2, 0), 2%nat); ((0, 3, 0), 3%nat)])
             (new_Cache TILE_CACHE_SIZE) [] in
  (sourceCaches w !! "a"%string = Some c
   ∧ tiles w !! 0%nat = Some (mkTile (0, 0, 0) 256 0 (Some "a"%string) true false true None None None)
   ∧ tiles w !! 1%nat = Some (mkTile (0, 1, 0) 256 2 (Some "a"%string) true false false None None None)
   ∧ tiles w !! 2%nat = Some (mkTile (0, 2, 0) 256 1 (Some "a"%string) true false true None None None)
   ∧ tiles w !! 3%nat = Some (mkTile (0, 3, 0) 256 1 (Some "a"%string) true false false None None None))
  ∧ releaseTile "a" 0 w = (Throw AssertionError, w)
  ∧ uses_of (releaseTile "a" 1 w).2 1%nat = Some 1
  ∧ cached_tiles "a" (releaseTile "a" 2 w).2 = [2%nat]
  ∧ trace (releaseTile "a" 3 w).2 = [AbortTile "a" 3; UnloadTile "a" 3].
Proof.
  intros w c.
  assert (Hc : sourceCaches w !! "a"%string = Some c) by reflexivity.
  assert (H0 : tiles w !! 0%nat = Some (mkTile (0, 0, 0) 256 0 (Some "a"%string) true false true None None None)) by reflexivity.
  assert (H1 : tiles w !! 1%nat = Some (mkTile (0, 1, 0) 256 2 (Some "a"%string) true false false None None None)) by reflexivity.
  assert (H2 : tiles w !! 2%nat = Some (mkTile (0, 2, 0) 256 1 (Some "a"%string) true false true None None None)) by reflexivity.
  assert (H3 : tiles w !! 3%nat = Some (mkTile (0, 3, 0) 256 1 (Some "a"%string) true false false None None None)) by reflexivity.
  split; [by repeat split|].
  split.
  { apply (proj1 (releaseTile_spec "a" 0 _ c w H0 Hc)). simpl. lia. }
  split.
  { rewrite (proj1 (proj2 (releaseTile_spec "a" 1 _ c w H1 Hc)));
      [reflexivity | simpl; lia]. }
  split.
  { destruct (proj2 (proj2 (releaseTile_spec "a" 2 _ c w H2 Hc)))
      as (w' & c' & -> & _ & Hc' & _ & Hdata & _); [reflexivity|].
    destruct Hdata as (Hk & _ & _); [reflexivity|].
    unfold cached_tiles. simpl. rewrite Hc', Hk. reflexivity. }
  { destruct (proj2 (proj2 (releaseTile_spec "a" 3 _ c w H3 Hc)))
      as (w' & c' & -> & _ & _ & _ & _ & Hno); [reflexivity|].
    destruct Hno as (_ & Htr); [reflexivity|]. simpl. rewrite Htr. reflexivity. }
Defined.

(** The theorem on [lru_example]: the tiles 0 to 20 are released in
    order and tile 0 is the one evicted. *)
Lemma lru_evicts_witness :
  let w := lru_example in
  let c := mkSourceCache
             (list_to_map ((λ i, ((0, Z.of_nat i, 0), i)) <$> seq 0 21))
             (new_Cache TILE_CACHE_SIZE) [] in
  (sourceCaches w !! "a"%string = Some c
   ∧ _tileCache c = new_Cache TILE_CACHE_SIZE
   ∧ length (0%nat :: seq 1 19) = TILE_CACHE_SIZE
   ∧ NoDup (0%nat :: seq 1 19 ++ [20%nat])
   ∧ (∀ r, r ∈ 0%nat :: seq 1 19 ++ [20%nat] → last_use_with_data w r))
  ∧ ∃ w20 w21,
      forEach (releaseTile "a") (0%nat :: seq 1 19) w = (Ok tt, w20)
      ∧ cached_tiles "a" w20 = 0%nat :: seq 1 19
      ∧ trace w20 = trace w
      ∧ releaseTile "a" 20 w20 = (Ok tt, w21)
      ∧ cached_tiles "a" w21 = seq 1 19 ++ [20%nat]
      ∧ trace w21 = trace w ++ [UnloadTile "a" 0].
Proof.
  intros w c.
  assert (Hc : sourceCaches w !! "a"%string = Some c) by reflexivity.
  assert (Hk : _tileCache c = new_Cache TILE_CACHE_SIZE) by reflexivity.
  assert (Hlen : length (0%nat :: seq 1 19) = TILE_CACHE_SIZE) by reflexivity.
  assert (Hnd : NoDup (0%nat :: seq 1 19 ++ [20%nat])).
  { apply (NoDup_seq 0 21). }
  assert (Hall : ∀ r, r ∈ 0%nat :: seq 1 19 ++ [20%nat] → last_use_with_data w r).
  { intros r Hr. change (r ∈ seq 0 21) in Hr. apply elem_of_seq in Hr.
    exists (row_tile r). split; [|by split].
    do 21 (destruct r as [|r]; [reflexivity|]). lia. }
  split; [by repeat split|].
  exact (lru_evicts_least_recently_released "a" w c 0%nat (seq 1 19) 20%nat
           Hc Hk Hlen Hnd Hall).
Defined.

(** ** The registry of pending renders *)

Lemma Map_get_set_eq {V} k (v : V) m : Map_get k (Map_set k v m) = Some v.
Proof.
  induction m as [|[k' v'] m IH]; simpl.
  - by rewrite decide_True.
  - destruct (decide (k' = k)) as [->|Hne]; simpl.
    + by rewrite decide_True.
    + by rewrite decide_False.
Qed.

Lemma Map_get_set_ne {V} k k' (v : V) m :
  k ≠ k' → Map_get k' (Map_set k v m) = Map_get k' m.
Proof.
  intros Hne. induction m as [|[k1 v1] m IH]; simpl.
  - by rewrite decide_False.
  - destruct (decide (k1 = k)) as [->|Hne1]; simpl.
    + by rewrite !decide_False.
    + destruct (decide (k1 = k')); [done | apply IH].
Qed.

Lemma Map_get_delete_eq {V} k (m : list (string * V)) :
  Map_get k (Map_delete k m) = None.
Proof.
  induction m as [|[k' v'] m IH]; simpl; [done|].
  destruct (decide (k' = k)) as [->|Hne]; simpl; [done|].
  by rewrite decide_False.
Qed.

Lemma Map_get_delete_ne {V} k k' (m : list (string * V)) :
  k ≠ k' → Map_get k' (Map_delete k m) = Map_get k' m.
Proof.
  intros Hne. induction m as [|[k1 v1] m IH]; simpl; [done|].
  destruct (decide (k1 = k)) as [->|Hne1]; simpl.
  - by rewrite decide_False.
  - destruct (decide (k1 = k')); [done | apply IH].
Qed.

Lemma _finishRender_stale id rid err w :
  stale id rid w → _finishRender id rid err w = (Ok tt, w).
Proof.
  unfold stale, _finishRender. unfold_M.
  destruct (Map_get id (_pendingRenders w)) as [state|]; [|done].
  intros Hne. by rewrite decide_True.
Qed.

Lemma _finishRender_current id rid err w state :
  Map_get id (_pendingRenders w) = Some state →
  renderId state = rid →
  _finishRender id rid err w =
    (Ok tt,
     mkWorld (tiles w) (nextTile w) (sourceCaches w)
             (Map_delete id (_pendingRenders w))
             (_nextRenderId w) (nextConsumer w)
             (trace w ++ ((λ c, Next (next c) err) <$> consumers state))).
Proof.
  intros Hget Hrid. unfold _finishRender. unfold pending, gets, bind at 1.
  rewrite Hget, decide_False by (by intros []).
  unfold bind. rewrite forEach_emit. done.
Qed.

Lemma _finishRender_returns id rid err w :
  ∃ w', _finishRender id rid err w = (Ok tt, w').
Proof.
  destruct (Map_get id (_pendingRenders w)) as [state|] eqn:Hget.
  - destruct (decide (renderId state = rid)) as [Heq|Hne].
    + erewrite _finishRender_current by done. by eexists.
    + rewrite _finishRender_stale; [by eexists|]. unfold stale. by rewrite Hget.
  - rewrite _finishRender_stale; [by eexists|]. unfold stale. by rewrite Hget.
Qed.


(** ** Continuations of renders that were canceled or superseded *)

(** C5: when the entry of a pending render was removed from the registry,
    or the entry under its fingerprint carries another render id, the
    continuation chained on the tile loads returns at once: the store is
    unchanged and nothing is appended to the trace, so the painter is not
    called and no consumer is settled.  The same holds for
    [_finishRender] called for that render. *)
Theorem stale_continuation_does_nothing k bad w :
  stale (k_tileSetID k) (k_renderId k) w →
  tiles_settled k bad w = (Ok Done, w)
  ∧ ∀ err, _finishRender (k_tileSetID k) (k_renderId k) err w = (Ok tt, w).
Proof.
  intros Hstale. split.
  - unfold stale, tiles_settled in *. unfold_M.
    destruct (Map_get (k_tileSetID k) (_pendingRenders w)) as [state|]; [|done].
    by rewrite decide_True.
  - intros err. by apply _finishRender_stale.
Qed.

(** ** Releasing a render *)

(** What a successful [releaseTile] leaves behind. *)
Lemma releaseTile_ok this r t w :
  tiles w !! r = Some t →
  0 < uses t →
  is_Some (sourceCaches w !! this) →
  ∃ w' evs,
    releaseTile this r w = (Ok tt, w')
    ∧ tiles w' = <[r := set_uses (λ u, u - 1) t]> (tiles w)
    ∧ (∀ n, is_Some (sourceCaches w !! n) → is_Some (sourceCaches w' !! n))
    ∧ _pendingRenders w' = _pendingRenders w
    ∧ _nextRenderId w' = _nextRenderId w
    ∧ trace w' = trace w ++ evs
    ∧ Forall (λ e, is_Next e = false) evs.
Proof.
  intros Ht Hu [c Hc].
  destruct (decide (uses t = 1)) as [H1|Hmany].
  - rewrite (releaseTile_last _ _ _ _ _ Ht Hc H1).
    assert (Hdom : ∀ c' n, is_Some (sourceCaches w !! n)
                           → is_Some (<[this := c']> (sourceCaches w) !! n)).
    { intros c' n Hn. destruct (decide (this = n)) as [->|Hne].
      - rewrite lookup_insert_eq. by eexists.
      - by rewrite lookup_insert_ne. }
    destruct (hasData t || _isDud t).
    + eexists _, _. split; [done|]. simpl. repeat split; try done.
      * apply Hdom.
      * destruct (Cache_add _ _ _).2; repeat constructor.
    + eexists _, _. split; [done|]. simpl. repeat split; try done.
      * apply Hdom.
      * repeat constructor.
  - rewrite (releaseTile_still_used _ _ _ _ Ht) by lia. exists (set_tiles <[r := set_uses (λ u, u - 1) t]> w), [].
    simpl. rewrite app_nil_r. repeat split; done.
Qed.

Lemma release_tiles_cons r l w t c :
  tiles w !! r = Some t →
  cache t = Some c →
  release_tiles (r :: l) w = bind (releaseTile c r) (λ _, release_tiles l) w.
Proof.
  intros Ht Hc. unfold release_tiles. simpl.
  unfold bind at 1. unfold bind at 1. unfold read_tile. by rewrite Ht, Hc.
Qed.

(** Releasing the tiles of a token: every tile loses one use; the registry
    of pending renders is not touched and no consumer is signalled. *)
Lemma release_tiles_ok l : ∀ w,
  NoDup l →
  (∀ r, r ∈ l → releasable w r) →
  ∃ w' evs,
    release_tiles l w = (Ok tt, w')
    ∧ (∀ r, r ∈ l → uses_of w' r = (λ u, u - 1) <$> uses_of w r)
    ∧ (∀ r, r ∉ l → tiles w' !! r = tiles w !! r)
    ∧ (∀ n, is_Some (sourceCaches w !! n) → is_Some (sourceCaches w' !! n))
    ∧ _pendingRenders w' = _pendingRenders w
    ∧ _nextRenderId w' = _nextRenderId w
    ∧ trace w' = trace w ++ evs
    ∧ Forall (λ e, is_Next e = false) evs.
Proof.
  induction l as [|r l IH]; intros w Hnd Hall.
  - exists w, []. simpl. rewrite app_nil_r. repeat split; try done.
    intros r Hr. by apply elem_of_nil in Hr.
  - apply NoDup_cons in Hnd as [Hr Hnd].
    destruct (Hall r) as (t & c & Ht & Hu & Hcache & Hc); [left|].
    destruct (releaseTile_ok c r t w Ht Hu Hc)
      as (w1 & evs1 & Hrel & Htiles & Hdom & Hpend & Hrid & Htr & Hev).
    destruct (IH w1 Hnd) as (w' & evs & Hrun & Huses & Hfr & Hdom' & Hpend' & Hrid' & Htr' & Hev').
    { intros r' Hr'. destruct (Hall r') as (t' & c' & Ht' & Hrest); [by right|].
      exists t', c'. rewrite Htiles, lookup_insert_ne by (intros ->; done).
      destruct Hrest as (? & ? & ?). auto. }
    exists w', (evs1 ++ evs).
    rewrite (release_tiles_cons _ _ _ _ _ Ht Hcache), (bind_ok _ _ _ _ _ Hrel).
    split; [exact Hrun|]. split; [|split; [|split; [|split; [|split; [|split]]]]].
    + intros r' Hr'. apply elem_of_cons in Hr' as [->|Hr'].
      * unfold uses_of. rewrite Hfr, Htiles, lookup_insert_eq, Ht by done. done.
      * rewrite Huses by done. unfold uses_of.
        rewrite Htiles, lookup_insert_ne by (intros ->; done). done.
    + intros r' Hr'. apply not_elem_of_cons in Hr' as [Hne Hr'].
      by rewrite Hfr, Htiles, lookup_insert_ne.
    + auto.
    + congruence.
    + congruence.
    + by rewrite Htr', Htr, app_assoc.
    + by apply Forall_app.
Qed.

Lemma releaseRender_stale renderRef w :
  stale (ref_tileSetID renderRef) (ref_renderId renderRef) w →
  releaseRender renderRef w = release_tiles (ref_tiles renderRef) w.
Proof.
  unfold stale, releaseRender, pending, gets, bind.
  destruct (Map_get (ref_tileSetID renderRef) (_pendingRenders w)) as [state|];
    intros Hst; destruct (release_tiles (ref_tiles renderRef) w) as [[[]|e] w1];
    try done.
  by rewrite decide_True.
Qed.



(** ** A render without usable tiles *)

(** The continuation when every requested tile failed (or none was
    requested), spelled out. *)
Lemma tiles_settled_none_usable k bad w state :
  Map_get (k_tileSetID k) (_pendingRenders w) = Some state →
  renderId state = k_renderId k →
  length bad = length (k_tilesSpec k) →
  tiles_settled k bad w =
    (Ok Done,
     mkWorld (tiles w) (nextTile w) (sourceCaches w)
       (Map_delete (k_tileSetID k) (_pendingRenders w))
       (_nextRenderId w) (nextConsumer w)
       (trace w
        ++ ((λ c, ClearRect (ctx c) (destLeft (k_drawSpec k))
                    (destTop (k_drawSpec k)) (width (k_drawSpec k))
                    (height (k_drawSpec k))) <$> consumers state)
        ++ ((λ c, Next (next c)
                    (if decide (length bad = 0%nat) then None
                     else Some (tiles_not_available (length bad)
                                  (length (k_tilesSpec k)))))
              <$> consumers state))).
Proof.
  intros Hget Hrid Hlen. unfold tiles_settled.
  unfold pending, gets, bind at 1. rewrite Hget.
  rewrite decide_False by (by intros []).
  rewrite Hlen, Z.sub_diag. simpl.
  unfold bind at 1. rewrite forEach_emit.
  unfold bind at 1.
  erewrite _finishRender_current; [| exact Hget | exact Hrid].
  unfold ret. simpl. by rewrite <- app_assoc.
Qed.

(** C4 (as amended): when the loads of a still-current pending render
    have settled and no tile is usable, [clearRect] is called once on the
    context of every attached consumer, in attachment order; then every
    consumer is settled, in attachment order, with one and the same
    outcome, which is the message counting the failed tiles when tiles
    were requested and null when none was requested; and the pending
    state is removed from the registry.  Nothing else changes. *)
Theorem no_usable_tiles_settles_all k bad w state :
  Map_get (k_tileSetID k) (_pendingRenders w) = Some state →
  renderId state = k_renderId k →
  length bad = length (k_tilesSpec k) →
  ∃ w' clears,
    tiles_settled k bad w = (Ok Done, w')
    ∧ Forall2 (λ c e, ∃ x y wd h, e = ClearRect (ctx c) x y wd h)
              (consumers state) clears
    ∧ trace w' =
        trace w ++ clears
        ++ ((λ c, Next (next c)
                    (if decide (length (k_tilesSpec k) = 0%nat) then None
                     else Some (tiles_not_available (length (k_tilesSpec k))
                                  (length (k_tilesSpec k)))))
              <$> consumers state)
    ∧ Map_get (k_tileSetID k) (_pendingRenders w') = None
    ∧ _pendingRenders w' = Map_delete (k_tileSetID k) (_pendingRenders w)
    ∧ tiles w' = tiles w
    ∧ sourceCaches w' = sourceCaches w.
Proof.
  intros Hget Hrid Hlen.
  rewrite (tiles_settled_none_usable _ _ _ _ Hget Hrid Hlen).
  eexists _, _. split; [done|]. simpl. rewrite Hlen.
  split; [|split; [done|]].
  - apply Forall2_fmap_r, Forall_Forall2_diag, Forall_forall.
    intros c _. by eexists _, _, _, _.
  - split; [apply Map_get_delete_eq | done].
Qed.

(** The theorem on the example request after both of its loads failed. *)
Lemma no_usable_tiles_settles_all_witness :
  let w := submitted_example in
  let k := example_continuation in
  let state := mkRenderState example_tileSetID 1 [0%nat; 1%nat] [example_consumer] in
  (Map_get (k_tileSetID k) (_pendingRenders w) = Some state
   ∧ renderId state = k_renderId k
   ∧ length [0%nat; 1%nat] = length (k_tilesSpec k))
  ∧ ∃ w' clears,
      tiles_settled k [0%nat; 1%nat] w = (Ok Done, w')
      ∧ Forall2 (λ c e, ∃ x y wd h, e = ClearRect (ctx c) x y wd h)
                (consumers state) clears
      ∧ trace w' =
          trace w ++ clears
          ++ ((λ c, Next (next c)
                      (if decide (length (k_tilesSpec k) = 0%nat) then None
                       else Some (tiles_not_available (length (k_tilesSpec k))
                                    (length (k_tilesSpec k)))))
                <$> consumers state)
      ∧ Map_get (k_tileSetID k) (_pendingRenders w') = None
      ∧ _pendingRenders w' = Map_delete (k_tileSetID k) (_pendingRenders w)
      ∧ tiles w' = tiles w
      ∧ sourceCaches w' = sourceCaches w.
Proof.
  intros w k state.
  assert (H1 : Map_get (k_tileSetID k) (_pendingRenders w) = Some state)
    by (vm_compute; reflexivity).
  assert (H2 : renderId state = k_renderId k) by reflexivity.
  assert (H3 : length [0%nat; 1%nat] = length (k_tilesSpec k)) by reflexivity.
  split; [by repeat split|].
  exact (no_usable_tiles_settles_all k [0%nat; 1%nat] w state H1 H2 H3).
Defined.

(** The trace of the run above: both loads were requested, the region of
    the consumer is cleared, and it is told that 2 of 2 tiles failed. *)
Example no_usable_tiles_trace :
  trace (tiles_settled example_continuation [0%nat; 1%nat] submitted_example).2
  = [LoadTile "a" 0; LoadTile "a" 1;
     ClearRect 7 (Fin 10) (Fin 20) (Fin 512) (Fin 256);
     Next 9 (Some "2 of 2 tiles not available"%string)].
Proof. vm_compute. reflexivity. Qed.

(** C4 (counterexample): a render with an empty list of tile specs has no
    usable tile when its continuation runs, and its consumer is settled
    with null, not with an error. *)
Lemma no_usable_tiles_without_error :
  renderTiles 7 example_drawSpec [] 9 (init_world ["a"%string])
  = (Ok (mkRenderRef 1 (mkConsumer 0 7 empty_canonical_drawSpec [] 9) [] "",
         Some empty_continuation),
     submitted_empty)
  ∧ Map_get "" (_pendingRenders submitted_empty)
    = Some (mkRenderState "" 1 [] [mkConsumer 0 7 empty_canonical_drawSpec [] 9])
  ∧ trace (tiles_settled empty_continuation [] submitted_empty).2
    = [ClearRect 7 (Fin 10) (Fin 20) (Fin 512) (Fin 256); Next 9 None]
  ∧ ¬ ∃ msg, Next 9 (Some msg)
             ∈ trace (tiles_settled empty_continuation [] submitted_empty).2.
Proof.
  split; [vm_compute; reflexivity|].
  split; [vm_compute; reflexivity|].
  assert (Htr : trace (tiles_settled empty_continuation [] submitted_empty).2
                = [ClearRect 7 (Fin 10) (Fin 20) (Fin 512) (Fin 256); Next 9 None])
    by (vm_compute; reflexivity).
  split; [exact Htr|].
  rewrite Htr. intros [msg Hin].
  apply elem_of_cons in Hin as [Hin|Hin]; [discriminate|].
  apply elem_of_cons in Hin as [Hin|Hin]; [discriminate|].
  by apply elem_of_nil in Hin.
Qed.

(** The region that is cleared is the one captured when the pending
    render was created: a second consumer with another destination has
    the region of the first one cleared on its context. *)
Example cleared_region_of_second_consumer :
  let d2 := mkDrawSpec (Fin 100) (Fin 50) (Fin 64) (Fin 32) (Fin 300) (Fin 400) in
  trace ((renderTiles 8 d2 example_tilesSpec 5 ;;;
          tiles_settled example_continuation [0%nat; 1%nat])
           submitted_example).2
  = [LoadTile "a" 0; LoadTile "a" 1;
     ClearRect 7 (Fin 10) (Fin 20) (Fin 512) (Fin 256);
     ClearRect 8 (Fin 10) (Fin 20) (Fin 512) (Fin 256);
     Next 9 (Some "2 of 2 tiles not available"%string);
     Next 5 (Some "2 of 2 tiles not available"%string)].
Proof. vm_compute. reflexivity. Qed.

(** ** A render without tiles *)



(** ** Cancellation empties the registry *)

Lemma forEach_inv {A} (P : World → Prop) (f : A → M unit) l :
  (∀ a w, P w → ∃ w', f a w = (Ok tt, w') ∧ P w') →
  ∀ w, P w → ∃ w', forEach f l w = (Ok tt, w') ∧ P w'.
Proof.
  intros Hf. induction l as [|a l IH]; intros w HP; simpl.
  - by exists w.
  - destruct (Hf a w HP) as (w1 & Hrun & HP1).
    rewrite (bind_ok _ _ _ _ _ Hrun). by apply IH.
Qed.

(** After [_cancelAllPendingRenders] every continuation and every token
    issued before is stale. *)
Lemma cancelAll_makes_stale w id rid :
  ∃ w', _cancelAllPendingRenders w = (Ok tt, w')
        ∧ _pendingRenders w' = []
        ∧ stale id rid w'.
Proof.
  unfold _cancelAllPendingRenders. unfold gets, bind at 1.
  destruct (forEach_inv (λ _, True)
              (λ s, _finishRender (tileSetID s.2) (renderId s.2)
                                  (Some "canceled"%string))
              (_pendingRenders w)) with (w := w) as (w1 & Hrun & _); [|done|].
  { intros a w0 _. destruct (_finishRender_returns (tileSetID a.2)
      (renderId a.2) (Some "canceled"%string) w0) as [w' Hw']. by exists w'. }
  rewrite (bind_ok _ _ _ _ _ Hrun).
  unfold modify, bind at 1. unfold gets, bind at 1.
  set (w2 := set_pendingRenders (λ _, []) w1).
  destruct (forEach_inv (λ w0, _pendingRenders w0 = [])
              (λ c : string * BasicSourceCache, invalidateAllLoadedTiles c.2)
              (map_to_list (sourceCaches w2))) with (w := w2)
    as (w3 & Hrun3 & Hp3); [|done|].
  { intros c w0 Hw0. unfold invalidateAllLoadedTiles.
    destruct (forEach_inv (λ w0, _pendingRenders w0 = [])
       (λ r, update_tile r (λ t, if _isDud t then t else set_loadedPromise false t))
       (map_to_list (_tilesInUse c.2)).*2) with (w := w0) as (wa & Hra & Hpa);
      [by eexists | done |].
    destruct (forEach_inv (λ w0, _pendingRenders w0 = [])
       (λ r, update_tile r (λ t, if _isDud t then t else set_loadedPromise false t))
       (Cache_tiles (_tileCache c.2))) with (w := wa) as (wb & Hrb & Hpb);
      [by eexists | done |].
    exists wb. by rewrite (bind_ok _ _ _ _ _ Hra). }
  exists w3. split; [done|]. split; [done|]. unfold stale. by rewrite Hp3.
Qed.

(** The theorem on the example request, released by its only consumer
    before the loads settled. *)
Lemma stale_continuation_witness :
  let w := (releaseRender example_ref submitted_example).2 in
  let k := example_continuation in
  stale (k_tileSetID k) (k_renderId k) w
  ∧ tiles_settled k [] w = (Ok Done, w)
  ∧ ∀ err, _finishRender (k_tileSetID k) (k_renderId k) err w = (Ok tt, w).
Proof.
  intros w k.
  assert (H : stale (k_tileSetID k) (k_renderId k) w) by (vm_compute; exact I).
  split; [exact H|].
  exact (stale_continuation_does_nothing k [] w H).
Defined.

(** The run of the witness: the only consumer releases its token while
    the loads are in flight.  It is told "canceled", the tiles, which have
    no data, are aborted and unloaded, and the continuation that runs
    afterwards adds nothing. *)
Example released_before_completion_trace :
  trace ((releaseRender example_ref ;;;
          tiles_settled example_continuation []) submitted_example).2
  = [LoadTile "a" 0; LoadTile "a" 1;
     AbortTile "a" 0; UnloadTile "a" 0; AbortTile "a" 1; UnloadTile "a" 1;
     Next 9 (Some "canceled"%string)].
Proof. vm_compute. reflexivity. Qed.


(** Releasing the token of a render that has already settled: the stale
    case of the theorem on a concrete run. *)
Example release_after_settlement :
  let w := (tiles_settled example_continuation [0%nat; 1%nat] submitted_example).2 in
  stale (ref_tileSetID example_ref) (ref_renderId example_ref) w
  ∧ releaseRender example_ref w = release_tiles (ref_tiles example_ref) w
  ∧ _pendingRenders (releaseRender example_ref w).2 = []
  ∧ uses_of (releaseRender example_ref w).2 0%nat = Some 0
  ∧ uses_of (releaseRender example_ref w).2 1%nat = Some 0.
Proof.
  intros w.
  assert (H : stale (ref_tileSetID example_ref) (ref_renderId example_ref) w)
    by (vm_compute; exact I).
  split; [exact H|]. split; [by apply releaseRender_stale|].
  repeat split; vm_compute; reflexivity.
Qed.

(** ** The compositor *)

Lemma block_origins_done lo hi : hi ≤ lo → block_origins lo hi = [].
Proof.
  intros Hle. unfold block_origins, OFFSCREEN_CANV_SIZE.
  replace (Z.to_nat ((hi - lo + 1024 - 1) / 1024)) with 0%nat; [done|].
  pose proof (Z.div_mod (hi - lo + 1024 - 1) 1024).
  pose proof (Z.mod_pos_bound (hi - lo + 1024 - 1) 1024). lia.
Qed.

Lemma block_origins_step lo hi :
  lo < hi →
  block_origins lo hi = lo :: block_origins (lo + OFFSCREEN_CANV_SIZE) hi.
Proof.
  intros Hlt. unfold block_origins, OFFSCREEN_CANV_SIZE.
  replace (hi - lo + 1024 - 1) with ((hi - (lo + 1024) + 1024 - 1) + 1 * 1024)
    by lia.
  rewrite Z.div_add by lia.
  assert (0 ≤ (hi - (lo + 1024) + 1024 - 1) / 1024)
    by (apply Z.div_pos; lia).
  rewrite Z2Nat.inj_add by lia. rewrite Nat.add_comm. simpl.
  f_equal; [lia|]. rewrite <- fmap_S_seq, <- list_fmap_compose.
  apply list_fmap_ext. intros _ i _. simpl. lia.
Qed.

(** A loop over finite bounds with enough fuel runs its body on the block
    origins, in increasing order, and ends. *)
Lemma for_blocks_finite body (n : nat) : ∀ lo hi fuel,
  length (block_origins lo hi) = n →
  (n < fuel)%nat →
  for_blocks fuel (Fin lo) (Fin hi) body
  = run_list body (Fin <$> block_origins lo hi).
Proof.
  induction n as [|n IH]; intros lo hi fuel Hlen Hfuel;
    (destruct fuel as [|fuel]; [lia|]); simpl.
  - destruct (Z.ltb_spec lo hi) as [Hlt|Hge].
    + rewrite block_origins_step in Hlen by done. done.
    + by rewrite block_origins_done.
  - destruct (Z.ltb_spec lo hi) as [Hlt|Hge].
    + rewrite block_origins_step in * by done. simpl in *.
      rewrite (IH (lo + OFFSCREEN_CANV_SIZE) hi fuel) by lia. done.
    + by rewrite block_origins_done.
Qed.

Lemma blocks_fuel_enough lo hi :
  (length (block_origins lo hi) < blocks_fuel (Fin lo) (Fin hi))%nat.
Proof. unfold block_origins, blocks_fuel. rewrite length_fmap, length_seq. lia. Qed.

Lemma run_list_app {A} (body : A → M LoopRes) l1 l2 w :
  run_list body (l1 ++ l2) w
  = (let! r := run_list body l1 in
     match r with
     | Loops => ret Loops
     | Done => run_list body l2
     end) w.
Proof.
  revert w. induction l1 as [|a l1 IH]; intros w; simpl; [done|].
  unfold bind in *. by destruct (body a w) as [[[]|e] w1].
Qed.

Lemma run_list_fmap {A B} (f : A → B) (body : B → M LoopRes) l :
  run_list body (f <$> l) = run_list (λ a, body (f a)) l.
Proof.
  induction l as [|a l IH]; [done|].
  rewrite fmap_cons. cbn [run_list]. by rewrite IH.
Qed.

Lemma run_list_ext {A} (f g : A → M LoopRes) l :
  (∀ a, f a = g a) → run_list f l = run_list g l.
Proof. intros Hfg. induction l as [|a l IH]; simpl; [done|]. by rewrite Hfg, IH. Qed.

(** Two nested loops visit the blocks column by column. *)
Lemma nested_loops_column_major (body : num → num → M LoopRes) xs ys w :
  run_list (λ x, run_list (λ y, body (Fin x) (Fin y)) ys) xs w
  = each_block body (column_major xs ys) w.
Proof.
  unfold each_block, column_major. revert w.
  induction xs as [|x xs IH]; intros w; [done|].
  rewrite bind_cons. cbn [run_list].
  rewrite run_list_app. unfold bind.
  assert (Hinner : run_list (λ b : Z * Z, body (Fin b.1) (Fin b.2))
                     (y ← ys; [(x, y)]) w
                   = run_list (λ y, body (Fin x) (Fin y)) ys w).
  { clear. revert w. induction ys as [|y ys IHy]; intros w; [done|].
    rewrite bind_cons. simpl. unfold bind.
    by destruct (body (Fin x) (Fin y) w) as [[[]|e] w1]. }
  rewrite Hinner.
  by destruct (run_list (λ y, body (Fin x) (Fin y)) ys w) as [[[]|e] w1].
Qed.

(** A block no consumer overlaps is skipped: no call, no mutation. *)
Lemma render_block_skipped state tilesSpec xx yy w :
  List.filter (relevant xx yy) (consumers state) = [] →
  render_block state tilesSpec xx yy w = (Ok Done, w).
Proof. intros Hnone. unfold render_block. by rewrite Hnone. Qed.

(** The overlap test on a finite rectangle. *)
Lemma relevant_half_open xx yy c sl st wd ht :
  srcLeft (c_drawSpec c) = Fin sl →
  srcTop (c_drawSpec c) = Fin st →
  width (c_drawSpec c) = Fin wd →
  height (c_drawSpec c) = Fin ht →
  relevant (Fin xx) (Fin yy) c = true
  ↔ xx < sl + wd ∧ sl < xx + OFFSCREEN_CANV_SIZE
    ∧ yy < st + ht ∧ st < yy + OFFSCREEN_CANV_SIZE.
Proof.
  intros Hl Ht Hw Hh. unfold relevant, num_gt. rewrite Hl, Ht, Hw, Hh. simpl.
  rewrite !andb_true_iff, !Z.ltb_lt. tauto.
Qed.

(** C8 (as amended): over a finite bounding box of the consumers' source
    rectangles the compositor visits the blocks of size
    [OFFSCREEN_CANV_SIZE] column by column (x in the outer loop, y in the
    inner loop) and ends; a consumer with a finite rectangle is relevant
    to a block exactly when the half-open intervals overlap in both
    directions, so a rectangle that only touches a block edge is not; and
    a block without relevant consumer is skipped without any call to the
    style, the painter or a context, and without any mutation. *)
Theorem compositor_visits_blocks_column_major state tilesSpec w x0 y0 x1 y1 :
  fold_left Math_min (srcLeft <$> (c_drawSpec <$> consumers state)) PInf = Fin x0 →
  fold_left Math_min (srcTop <$> (c_drawSpec <$> consumers state)) PInf = Fin y0 →
  fold_left Math_max ((λ d, num_add (srcLeft d) (width d))
                        <$> (c_drawSpec <$> consumers state)) NInf = Fin x1 →
  fold_left Math_max ((λ d, num_add (srcTop d) (height d))
                        <$> (c_drawSpec <$> consumers state)) NInf = Fin y1 →
  composite state tilesSpec w
  = each_block (render_block state tilesSpec)
      (column_major (block_origins x0 x1) (block_origins y0 y1)) w
  ∧ (∀ xx yy c sl st wd ht,
       c_drawSpec c = mkDrawSpec (Fin sl) (Fin st) (Fin wd) (Fin ht)
                        (destLeft (c_drawSpec c)) (destTop (c_drawSpec c)) →
       (relevant (Fin xx) (Fin yy) c = true
        ↔ xx < sl + wd ∧ sl < xx + OFFSCREEN_CANV_SIZE
          ∧ yy < st + ht ∧ st < yy + OFFSCREEN_CANV_SIZE)
       ∧ (sl + wd = xx ∨ sl = xx + OFFSCREEN_CANV_SIZE
          ∨ st + ht = yy ∨ st = yy + OFFSCREEN_CANV_SIZE →
          relevant (Fin xx) (Fin yy) c = false))
  ∧ (∀ xx yy w',
       List.filter (relevant xx yy) (consumers state) = [] →
       render_block state tilesSpec xx yy w' = (Ok Done, w')).
Proof.
  intros Hx0 Hy0 Hx1 Hy1. split; [|split].
  - unfold composite. rewrite Hx0, Hy0, Hx1, Hy1.
    rewrite (for_blocks_finite _ _ x0 x1 _ eq_refl (blocks_fuel_enough x0 x1)).
    rewrite run_list_fmap.
    rewrite <- nested_loops_column_major.
    erewrite run_list_ext; [reflexivity|]. intros x. cbv beta.
    rewrite (for_blocks_finite _ _ y0 y1 _ eq_refl (blocks_fuel_enough y0 y1)).
    by rewrite run_list_fmap.
  - intros xx yy c sl st wd ht Hc.
    assert (Hiff : relevant (Fin xx) (Fin yy) c = true
                   ↔ xx < sl + wd ∧ sl < xx + OFFSCREEN_CANV_SIZE
                     ∧ yy < st + ht ∧ st < yy + OFFSCREEN_CANV_SIZE).
    { apply relevant_half_open; by rewrite Hc. }
    split; [exact Hiff|]. intros Htouch.
    apply not_true_is_false. rewrite Hiff. lia.
  - intros xx yy w'. apply render_block_skipped.
Qed.

(** The theorem on the request for a square of 2 x 2 blocks. *)
Lemma compositor_witness :
  let state := square_state in
  (fold_left Math_min (srcLeft <$> (c_drawSpec <$> consumers state)) PInf = Fin 0
   ∧ fold_left Math_min (srcTop <$> (c_drawSpec <$> consumers state)) PInf = Fin 0
   ∧ fold_left Math_max ((λ d, num_add (srcLeft d) (width d))
                           <$> (c_drawSpec <$> consumers state)) NInf = Fin 2048
   ∧ fold_left Math_max ((λ d, num_add (srcTop d) (height d))
                           <$> (c_drawSpec <$> consumers state)) NInf = Fin 2048)
  ∧ composite state square_tilesSpec submitted_square
    = each_block (render_block state square_tilesSpec)
        (column_major (block_origins 0 2048) (block_origins 0 2048))
        submitted_square.
Proof.
  intros state. split; [by repeat split|].
  exact (proj1 (compositor_visits_blocks_column_major state square_tilesSpec
                  submitted_square 0 0 2048 2048
                  eq_refl eq_refl eq_refl eq_refl)).
Defined.

(** C8 (counterexample): one consumer asks for a square of 2 x 2 blocks.
    The four copies arrive in the order (0,0), (0,1024), (1024,0),
    (1024,1024) of the block origins (x, y), which is column by column;
    row by row would be (0,0), (1024,0), (0,1024), (1024,1024). *)
Lemma compositor_not_row_major :
  Map_get (k_tileSetID square_continuation) (_pendingRenders submitted_square)
  = Some square_state
  ∧ drawn_at (trace (tiles_settled square_continuation [] submitted_square).2)
    = [(Fin 0, Fin 0); (Fin 0, Fin 1024); (Fin 1024, Fin 0); (Fin 1024, Fin 1024)]
  ∧ drawn_at (trace (tiles_settled square_continuation [] submitted_square).2)
    ≠ (λ b, (Fin b.1, Fin b.2))
        <$> row_major (block_origins 0 2048) (block_origins 0 2048).
Proof.
  split; [vm_compute; reflexivity|].
  assert (Hd : drawn_at (trace (tiles_settled square_continuation []
                                  submitted_square).2)
               = [(Fin 0, Fin 0); (Fin 0, Fin 1024);
                  (Fin 1024, Fin 0); (Fin 1024, Fin 1024)])
    by (vm_compute; reflexivity).
  split; [exact Hd|]. rewrite Hd. vm_compute. discriminate.
Qed.

(** ** Fingerprints *)

(** *** The order on strings *)

Lemma ascii_compare_trans_le a b c :
  Ascii.compare a b ≠ Gt → Ascii.compare b c ≠ Gt → Ascii.compare a c ≠ Gt.
Proof.
  unfold Ascii.compare. rewrite !N.compare_le_iff. lia.
Qed.

Lemma string_compare_refl s : String.compare s s = Eq.
Proof.
  induction s as [|a s IH]; simpl; [done|].
  unfold Ascii.compare. by rewrite N.compare_refl.
Qed.

Lemma string_compare_trans_le : ∀ s1 s2 s3,
  String.compare s1 s2 ≠ Gt → String.compare s2 s3 ≠ Gt →
  String.compare s1 s3 ≠ Gt.
Proof.
  induction s1 as [|a s1 IH]; intros [|b s2] [|c s3]; simpl; try done.
  unfold Ascii.compare.
  destruct (N.compare_spec (N_of_ascii a) (N_of_ascii b)) as [Hab|Hab|Hab];
    destruct (N.compare_spec (N_of_ascii b) (N_of_ascii c)) as [Hbc|Hbc|Hbc];
    try done.
  - rewrite Hab, Hbc, N.compare_refl. apply IH.
  - intros _ _. rewrite Hab. by apply N.compare_lt_iff in Hbc as ->.
  - intros _ _. rewrite <- Hbc. by apply N.compare_lt_iff in Hab as ->.
  - intros _ _. assert (Hac : (N_of_ascii a < N_of_ascii c)%N) by lia.
    by apply N.compare_lt_iff in Hac as ->.
Qed.

Lemma string_le_alt a b : string_le a b ↔ String.compare a b ≠ Gt.
Proof. unfold string_le, String.leb. by destruct (String.compare a b). Qed.

#[global] Instance string_le_trans : Transitive string_le.
Proof.
  intros a b c. rewrite !string_le_alt. apply string_compare_trans_le.
Qed.

#[global] Instance string_le_antisym : AntiSymm (=) string_le.
Proof. intros a b. apply String.leb_antisym. Qed.

#[global] Instance string_le_total : Total string_le.
Proof. intros a b. apply String.leb_total. Qed.

(** Sorting forgets the order of the list. *)
Lemma sort_permutation (l1 l2 : list string) :
  l1 ≡ₚ l2 → merge_sort string_le l1 = merge_sort string_le l2.
Proof.
  intros Hp. apply (Sorted_unique string_le).
  - apply Sorted_merge_sort, _.
  - apply Sorted_merge_sort, _.
  - by rewrite !merge_sort_Permutation.
Qed.

(** The fingerprint does not depend on the order of the tile specs. *)
Lemma _tileSpecToString_permutation l1 l2 :
  l1 ≡ₚ l2 → _tileSpecToString l1 = _tileSpecToString l2.
Proof.
  intros Hp. unfold _tileSpecToString. f_equal.
  apply sort_permutation. by rewrite Hp.
Qed.

(** *** Minima and translations *)

Lemma Math_min_exchange a x y :
  Math_min (Math_min a x) y = Math_min (Math_min a y) x.
Proof.
  destruct a as [a| | |], x as [x| | |], y as [y| | |]; simpl; try done;
    repeat (match goal with
            | |- context [Z.ltb ?p ?q] => destruct (Z.ltb_spec p q); simpl
            end); try done; f_equal; lia.
Qed.

Lemma fold_Math_min_permutation l1 l2 : l1 ≡ₚ l2 →
  ∀ a, fold_left Math_min l1 a = fold_left Math_min l2 a.
Proof.
  induction 1 as [|x l1 l2 _ IH|x y l|l1 l2 l3 _ IH1 _ IH2]; intros a; simpl.
  - done.
  - apply IH.
  - by rewrite Math_min_exchange.
  - by rewrite IH1.
Qed.

Lemma Math_min_translate a b d :
  Math_min (num_add a (Fin d)) (num_add b (Fin d))
  = num_add (Math_min a b) (Fin d).
Proof.
  destruct a as [a| | |], b as [b| | |]; simpl; try done.
  destruct (Z.ltb_spec (b + d) (a + d)), (Z.ltb_spec b a); try done; lia.
Qed.

Lemma fold_Math_min_translate d l : ∀ a,
  fold_left Math_min ((λ x, num_add x (Fin d)) <$> l) (num_add a (Fin d))
  = num_add (fold_left Math_min l a) (Fin d).
Proof.
  induction l as [|x l IH]; intros a; [done|].
  rewrite fmap_cons. cbn [fold_left]. by rewrite Math_min_translate, IH.
Qed.

Lemma num_sub_translate a m d :
  num_sub (num_add a (Fin d)) (num_add m (Fin d)) = num_sub a m.
Proof.
  destruct a as [a| | |], m as [m| | |]; simpl; try done. f_equal. lia.
Qed.

(** *** Canonical tile lists *)

Lemma canonical_tiles_translate dx dy ts d d' :
  (_canonicalizeSpec (translate dx dy <$> ts) d).1 = (_canonicalizeSpec ts d').1.
Proof.
  unfold _canonicalizeSpec. cbn [fst].
  rewrite <- !list_fmap_compose.
  assert (Hl : fold_left Math_min (ts_left ∘ translate dx dy <$> ts) PInf
               = num_add (fold_left Math_min (ts_left <$> ts) PInf) (Fin dx)).
  { rewrite (list_fmap_compose ts_left (λ x, num_add x (Fin dx))).
    apply (fold_Math_min_translate dx _ PInf). }
  assert (Ht : fold_left Math_min (ts_top ∘ translate dx dy <$> ts) PInf
               = num_add (fold_left Math_min (ts_top <$> ts) PInf) (Fin dy)).
  { rewrite (list_fmap_compose ts_top (λ x, num_add x (Fin dy))).
    apply (fold_Math_min_translate dy _ PInf). }
  rewrite Hl, Ht. apply list_fmap_ext. intros _ s _. simpl.
  by rewrite !num_sub_translate.
Qed.

Lemma canonical_tiles_permutation ts ts' d d' :
  ts ≡ₚ ts' → (_canonicalizeSpec ts d).1 ≡ₚ (_canonicalizeSpec ts' d').1.
Proof.
  intros Hp. unfold _canonicalizeSpec. cbn [fst].
  rewrite (fold_Math_min_permutation (ts_left <$> ts) (ts_left <$> ts'))
    by (by rewrite Hp).
  rewrite (fold_Math_min_permutation (ts_top <$> ts) (ts_top <$> ts'))
    by (by rewrite Hp).
  by rewrite Hp.
Qed.

(** Tile lists that agree up to the order of the list and a translation of
    all placements have the same fingerprint. *)
Lemma fingerprint_canonical dx dy ts1 ts2 d1 d2 :
  ts2 ≡ₚ translate dx dy <$> ts1 →
  _tileSpecToString (_canonicalizeSpec ts2 d2).1
  = _tileSpecToString (_canonicalizeSpec ts1 d1).1.
Proof.
  intros Hp. rewrite <- (canonical_tiles_translate dx dy ts1 d1 d1).
  apply _tileSpecToString_permutation. by apply canonical_tiles_permutation.
Qed.

(** *** Submissions *)

Lemma forEach_update_tile f l : ∀ w,
  ∃ m,
    forEach (λ t, update_tile t f) l w = (Ok tt, set_tiles (λ _, m) w)
    ∧ (∀ r, r ∉ l → m !! r = tiles w !! r)
    ∧ (NoDup l → ∀ r, r ∈ l → m !! r = f <$> tiles w !! r)
    ∧ (∀ r, is_Some (m !! r) ↔ is_Some (tiles w !! r)).
Proof.
  induction l as [|t l IH]; intros w.
  - exists (tiles w). split; [by destruct w|]. split; [done|]. split; [|done].
    intros _ r Hr. by apply elem_of_nil in Hr.
  - destruct (IH (set_tiles (alter f t) w)) as (m & Hrun & Hout & Hin & Hdom).
    exists m. split; [|split; [|split]].
    + cbn [forEach]. erewrite bind_ok; [|reflexivity]. by rewrite Hrun.
    + intros r Hr. apply not_elem_of_cons in Hr as [Hne Hr].
      rewrite Hout by done. simpl. by rewrite lookup_alter_ne.
    + intros Hnd r Hr. apply NoDup_cons in Hnd as [Ht Hnd].
      apply elem_of_cons in Hr as [->|Hr].
      * rewrite Hout by done. simpl. by rewrite lookup_alter_eq.
      * rewrite Hin by done. simpl. rewrite lookup_alter_ne; [done|].
        by intros ->.
    + intros r. rewrite Hdom. simpl.
      destruct (decide (t = r)) as [->|Hne].
      * rewrite lookup_alter_eq. by rewrite fmap_is_Some.
      * by rewrite lookup_alter_ne.
Qed.

Lemma mapM_cons {A B} (f : A → M B) a l w :
  mapM f (a :: l) w
  = match f a w with
    | (Ok b, w1) =>
        match mapM f l w1 with
        | (Ok bs, w2) => (Ok (b :: bs), w2)
        | (Throw e, w2) => (Throw e, w2)
        end
    | (Throw e, w1) => (Throw e, w1)
    end.
Proof. reflexivity. Qed.

Lemma acquire_spec_unfold s w :
  acquire_spec s w
  = match sourceCaches w !! source s with
    | Some _ => acquireTile (source s) (ts_z s, ts_x s, ts_y s) (ts_size s) w
    | None => (Throw TypeError, w)
    end.
Proof.
  unfold acquire_spec, bind, read_cache. by destruct (sourceCaches w !! source s).
Qed.

(** The tiles acquired for a new pending render are fresh objects, and
    acquiring them does not touch the registry. *)
Lemma mapM_acquire_spec ts : ∀ w l w',
  mapM acquire_spec ts w = (Ok l, w') →
  l = seq (nextTile w) (length ts)
  ∧ nextTile w' = (nextTile w + length ts)%nat
  ∧ _pendingRenders w' = _pendingRenders w
  ∧ _nextRenderId w' = _nextRenderId w
  ∧ nextConsumer w' = nextConsumer w.
Proof.
  induction ts as [|s ts IH]; intros w l w'.
  - simpl. unfold ret. intros [= <- <-]. repeat split; lia.
  - rewrite mapM_cons, acquire_spec_unfold.
    destruct (sourceCaches w !! source s); [|by intros [=]].
    rewrite acquireTile_fresh.
    match goal with |- context [mapM _ ts ?w1] =>
      destruct (mapM acquire_spec ts w1) as [[l1|e] w2] eqn:Hrest end;
      [|by intros [=]].
    intros [= <- <-].
    apply IH in Hrest as (-> & Hn & Hp & Hr & Hc). simpl in *.
    repeat split; try done. lia.
Qed.

(** What a successful submission leaves in the registry. *)
Lemma renderTiles_registered cx d ts nxt w h k w' :
  pending_tiles_distinct w →
  renderTiles cx d ts nxt w = (Ok (h, k), w') →
  ref_tileSetID h = _tileSpecToString (_canonicalizeSpec ts d).1
  ∧ ∃ state,
      Map_get (ref_tileSetID h) (_pendingRenders w') = Some state
      ∧ renderId state = ref_renderId h
      ∧ rs_tiles state = ref_tiles h
      ∧ NoDup (rs_tiles state).
Proof.
  intros Hwf. unfold renderTiles.
  destruct (_canonicalizeSpec ts d) as [ts' d'] eqn:Hcanon. cbn [fst].
  set (id := _tileSpecToString ts').
  unfold gets, modify, bind at 1. unfold bind at 1. unfold pending, gets, bind at 1.
  cbn [_pendingRenders set_nextConsumer].
  destruct (Map_get id (_pendingRenders w)) as [state|] eqn:Hget.
  - unfold bind at 1.
    destruct (forEach_update_tile (set_uses (λ u, u + 1)) (rs_tiles state)
                (set_nextConsumer (S (nextConsumer w)) w))
      as (m & Hrun & _).
    rewrite Hrun. unfold modify, bind, ret. intros [= <- <- <-]. cbn.
    split; [done|]. eexists. split; [apply Map_get_set_eq|].
    cbn. repeat split; try done.
    (* the state was registered before: its tiles are distinct *)
    clear -Hwf Hget. unfold pending_tiles_distinct in Hwf.
    induction Hwf as [|[k' v'] m' Hv _ IH]; simpl in *; [done|].
    destruct (decide (k' = id)); [injection Hget as <-; exact Hv | by apply IH].
  - unfold gets, bind at 1. unfold modify, bind at 1. unfold bind at 1.
    match goal with |- context [mapM _ ts' ?w1] =>
      destruct (mapM acquire_spec ts' w1) as [[l|e] w2] eqn:Hacq end;
      [|cbn; by intros [=]].
    apply mapM_acquire_spec in Hacq as (-> & _).
    unfold modify, bind, ret. intros [= <- <- <-]. cbn.
    split; [done|]. eexists. split; [apply Map_get_set_eq|].
    cbn. repeat split; try done. apply NoDup_seq.
Qed.

(** A submission whose fingerprint is registered joins the pending
    render. *)
Lemma renderTiles_coalesces cx d ts nxt w state :
  Map_get (_tileSpecToString (_canonicalizeSpec ts d).1) (_pendingRenders w)
  = Some state →
  NoDup (rs_tiles state) →
  let id := _tileSpecToString (_canonicalizeSpec ts d).1 in
  let c := mkConsumer (nextConsumer w) cx (_canonicalizeSpec ts d).2
                      (_canonicalizeSpec ts d).1 nxt in
  ∃ w',
    renderTiles cx d ts nxt w
    = (Ok (mkRenderRef (renderId state) c (rs_tiles state) id, None), w')
    ∧ _pendingRenders w'
      = Map_set id (set_consumers (consumers state ++ [c]) state)
                (_pendingRenders w)
    ∧ (∀ r, r ∈ rs_tiles state → uses_of w' r = (λ u, u + 1) <$> uses_of w r)
    ∧ (∀ r, r ∉ rs_tiles state → tiles w' !! r = tiles w !! r)
    ∧ (∀ r, is_Some (tiles w' !! r) ↔ is_Some (tiles w !! r))
    ∧ nextTile w' = nextTile w
    ∧ sourceCaches w' = sourceCaches w
    ∧ _nextRenderId w' = _nextRenderId w
    ∧ trace w' = trace w.
Proof.
  intros Hget Hnd id c. subst id c. unfold renderTiles.
  destruct (_canonicalizeSpec ts d) as [ts' d'] eqn:Hcanon. cbn [fst snd] in *.
  unfold gets, modify, bind at 1. unfold bind at 1. unfold pending, gets, bind at 1.
  cbn [_pendingRenders set_nextConsumer]. rewrite Hget.
  destruct (forEach_update_tile (set_uses (λ u, u + 1)) (rs_tiles state)
              (set_nextConsumer (S (nextConsumer w)) w))
    as (m & Hrun & Hout & Hin & Hdom).
  unfold bind at 1. rewrite Hrun. unfold modify, bind, ret.
  eexists. split; [reflexivity|]. cbn.
  split; [done|]. split; [|split; [|split]]; try done.
  intros r Hr. unfold uses_of. cbn. rewrite (Hin Hnd r Hr). cbn.
  by destruct (tiles w !! r).
Qed.

(** C3: a render is submitted and, while it is pending, a second one
    whose tile specs are those of the first in any order, all moved by
    the same offset.  The second submission computes the same
    fingerprint, creates no pending render and no continuation of its
    own, is appended to the consumers of the registered state, returns
    that state's render id and tile list, adds one use to each of these
    tiles, and acquires nothing: no tile object is created, no load is
    requested and the source caches are unchanged. *)
Theorem equivalent_submission_coalesces
    w cx1 d1 ts1 nxt1 h1 k1 w1 cx2 d2 ts2 nxt2 dx dy :
  pending_tiles_distinct w →
  renderTiles cx1 d1 ts1 nxt1 w = (Ok (h1, k1), w1) →
  ts2 ≡ₚ translate dx dy <$> ts1 →
  ∃ h2 w2 state,
    renderTiles cx2 d2 ts2 nxt2 w1 = (Ok (h2, None), w2)
    ∧ ref_tileSetID h2 = ref_tileSetID h1
    ∧ ref_renderId h2 = ref_renderId h1
    ∧ ref_tiles h2 = ref_tiles h1
    ∧ Map_get (ref_tileSetID h1) (_pendingRenders w1) = Some state
    ∧ Map_get (ref_tileSetID h1) (_pendingRenders w2)
      = Some (set_consumers (consumers state ++ [ref_consumer h2]) state)
    ∧ (∀ id, id ≠ ref_tileSetID h1 →
             Map_get id (_pendingRenders w2) = Map_get id (_pendingRenders w1))
    ∧ (∀ r, r ∈ ref_tiles h1 → uses_of w2 r = (λ u, u + 1) <$> uses_of w1 r)
    ∧ (∀ r, r ∉ ref_tiles h1 → tiles w2 !! r = tiles w1 !! r)
    ∧ (∀ r, is_Some (tiles w2 !! r) ↔ is_Some (tiles w1 !! r))
    ∧ nextTile w2 = nextTile w1
    ∧ sourceCaches w2 = sourceCaches w1
    ∧ _nextRenderId w2 = _nextRenderId w1
    ∧ trace w2 = trace w1.
Proof.
  intros Hwf Hfirst Hperm.
  destruct (renderTiles_registered _ _ _ _ _ _ _ _ Hwf Hfirst)
    as (Hid & state & Hget & Hrid & Htiles & Hnd).
  assert (Hfp : _tileSpecToString (_canonicalizeSpec ts2 d2).1 = ref_tileSetID h1).
  { rewrite Hid. by apply (fingerprint_canonical dx dy). }
  rewrite <- Hfp in Hget.
  destruct (renderTiles_coalesces cx2 d2 ts2 nxt2 w1 state Hget Hnd)
    as (w2 & Hrun & Hpend & Huses & Hout & Hdom & Hnt & Hsc & Hnr & Htr).
  rewrite Hfp in *.
  eexists _, w2, state. split; [exact Hrun|]. cbn.
  split; [done|]. split; [done|]. split; [done|]. split; [done|].
  split; [rewrite Hpend; apply Map_get_set_eq|].
  split; [intros id Hne; rewrite Hpend; by apply Map_get_set_ne|].
  rewrite <- Htiles.
  split; [exact Huses|]. split; [exact Hout|]. split; [exact Hdom|]. done.
Qed.

(** ** The registry in reachable stores *)

Lemma keeps_ret {A} (a : A) : keeps_pending (ret a).
Proof. done. Qed.

Lemma keeps_throw {A} e : keeps_pending (@throw A e).
Proof. done. Qed.

Lemma keeps_gets {A} (f : World → A) : keeps_pending (gets f).
Proof. done. Qed.

Lemma keeps_bind {A B} (m : M A) (k : A → M B) :
  keeps_pending m → (∀ a, keeps_pending (k a)) → keeps_pending (bind m k).
Proof.
  intros Hm Hk w. unfold bind. specialize (Hm w).
  destruct (m w) as [[a|e] w1]; simpl in *; [|done].
  by rewrite Hk.
Qed.

Lemma keeps_update_tile r f : keeps_pending (update_tile r f).
Proof. done. Qed.

Lemma keeps_update_cache n f : keeps_pending (update_cache n f).
Proof. done. Qed.

Lemma keeps_emit e : keeps_pending (emit e).
Proof. done. Qed.

Lemma keeps_read_tile r : keeps_pending (read_tile r).
Proof. intros w. unfold read_tile. by destruct (tiles w !! r). Qed.

Lemma keeps_read_cache n : keeps_pending (read_cache n).
Proof. intros w. unfold read_cache. by destruct (sourceCaches w !! n). Qed.

Lemma keeps_forEach {A} (f : A → M unit) l :
  (∀ a, keeps_pending (f a)) → keeps_pending (forEach f l).
Proof.
  intros Hf. induction l as [|a l IH]; simpl; [apply keeps_ret|].
  apply keeps_bind; [apply Hf | by intros _].
Qed.

Lemma keeps_forEach_indexed {A} (f : A → nat → M unit) l :
  (∀ a i, keeps_pending (f a i)) → ∀ i, keeps_pending (forEach_indexed f i l).
Proof.
  intros Hf. induction l as [|a l IH]; intros i; simpl; [apply keeps_ret|].
  apply keeps_bind; [apply Hf | intros _; apply IH].
Qed.

Lemma keeps_mapM {A B} (f : A → M B) l :
  (∀ a, keeps_pending (f a)) → keeps_pending (mapM f l).
Proof.
  intros Hf. induction l as [|a l IH]; simpl; [apply keeps_ret|].
  apply keeps_bind; [apply Hf | intros b].
  apply keeps_bind; [apply IH | intros bs; apply keeps_ret].
Qed.

Lemma keeps_for_blocks body hi :
  (∀ xx, keeps_pending (body xx)) →
  ∀ fuel xx, keeps_pending (for_blocks fuel xx hi body).
Proof.
  intros Hb. induction fuel as [|fuel IH]; intros xx; simpl; [apply keeps_ret|].
  destruct (num_lt xx hi); [|apply keeps_ret].
  apply keeps_bind; [apply Hb | intros [|]; [apply IH | apply keeps_ret]].
Qed.

Ltac keeps_by tac :=
  repeat first
    [ tac | apply keeps_ret | apply keeps_throw | apply keeps_gets
    | apply keeps_update_tile | apply keeps_update_cache | apply keeps_emit
    | apply keeps_read_tile | apply keeps_read_cache
    | apply keeps_bind; [|intros ?]
    | apply keeps_forEach; intros ?
    | apply keeps_mapM; intros ?
    | match goal with
      | |- keeps_pending (if ?b then _ else _) => destruct b
      | |- keeps_pending (match ?x with _ => _ end) => destruct x
      | |- keeps_pending (let '(_, _) := ?x in _) => destruct x
      end ].

Ltac keeps := keeps_by fail.

Lemma keeps_acquireTile this id sz : keeps_pending (acquireTile this id sz).
Proof. intros w. by rewrite acquireTile_fresh. Qed.

Lemma keeps_acquire_spec s : keeps_pending (acquire_spec s).
Proof. unfold acquire_spec. keeps_by ltac:(apply keeps_acquireTile). Qed.

Lemma keeps_releaseTile this t : keeps_pending (releaseTile this t).
Proof. unfold releaseTile. keeps. Qed.

Lemma keeps_release_tiles l : keeps_pending (release_tiles l).
Proof. unfold release_tiles. keeps_by ltac:(apply keeps_releaseTile). Qed.

Lemma keeps_invalidateAllLoadedTiles c :
  keeps_pending (invalidateAllLoadedTiles c).
Proof. unfold invalidateAllLoadedTiles. keeps. Qed.

Lemma keeps_render_block state ts xx yy :
  keeps_pending (render_block state ts xx yy).
Proof. unfold render_block. keeps. Qed.

Lemma keeps_composite state ts : keeps_pending (composite state ts).
Proof.
  unfold composite. apply keeps_for_blocks. intros xx.
  apply keeps_for_blocks. intros yy. apply keeps_render_block.
Qed.

Lemma distinct_Map_set id state m :
  NoDup (rs_tiles state) →
  Forall (λ kv : string * RenderState, NoDup (rs_tiles kv.2)) m →
  Forall (λ kv : string * RenderState, NoDup (rs_tiles kv.2)) (Map_set id state m).
Proof.
  intros Hnd. induction 1 as [|[k v] m Hv Hm IH]; simpl.
  - by repeat constructor.
  - destruct (decide (k = id)); by constructor.
Qed.

Lemma distinct_Map_delete id m :
  Forall (λ kv : string * RenderState, NoDup (rs_tiles kv.2)) m →
  Forall (λ kv : string * RenderState, NoDup (rs_tiles kv.2)) (Map_delete id m).
Proof.
  induction 1 as [|[k v] m Hv Hm IH]; simpl; [done|].
  destruct (decide (k = id)); [done | by constructor].
Qed.

Lemma distinct_Map_get id m state :
  Forall (λ kv : string * RenderState, NoDup (rs_tiles kv.2)) m →
  Map_get id m = Some state → NoDup (rs_tiles state).
Proof.
  induction 1 as [|[k v] m Hv _ IH]; simpl; [done|].
  destruct (decide (k = id)); [by intros [= <-] | done].
Qed.

Lemma distinct_keeps {A} (m : M A) w :
  keeps_pending m → pending_tiles_distinct w → pending_tiles_distinct (m w).2.
Proof. unfold pending_tiles_distinct. intros Hk. by rewrite Hk. Qed.

Lemma distinct__finishRender id rid err w :
  pending_tiles_distinct w → pending_tiles_distinct (_finishRender id rid err w).2.
Proof.
  intros Hwf. destruct (Map_get id (_pendingRenders w)) as [state|] eqn:Hget.
  - destruct (decide (renderId state = rid)) as [Heq|Hne].
    + erewrite _finishRender_current by done. by apply distinct_Map_delete.
    + rewrite _finishRender_stale; [done|]. unfold stale. by rewrite Hget.
  - rewrite _finishRender_stale; [done|]. unfold stale. by rewrite Hget.
Qed.

Lemma distinct_renderTiles cx d ts nxt w :
  pending_tiles_distinct w →
  pending_tiles_distinct (renderTiles cx d ts nxt w).2.
Proof.
  intros Hwf. unfold renderTiles.
  destruct (_canonicalizeSpec ts d) as [ts' d'].
  set (id := _tileSpecToString ts').
  unfold gets, modify, bind at 1. unfold bind at 1. unfold pending, gets, bind at 1.
  cbn [_pendingRenders set_nextConsumer].
  destruct (Map_get id (_pendingRenders w)) as [state|] eqn:Hget.
  - destruct (forEach_update_tile (set_uses (λ u, u + 1)) (rs_tiles state)
                (set_nextConsumer (S (nextConsumer w)) w)) as (m & Hrun & _).
    unfold bind at 1. rewrite Hrun. cbn.
    apply distinct_Map_set; [|exact Hwf]. cbn.
    eapply distinct_Map_get; [exact Hwf | exact Hget].
  - unfold gets, bind at 1. unfold modify, bind at 1. unfold bind at 1.
    match goal with |- context [mapM _ ts' ?w1] =>
      pose proof (keeps_mapM acquire_spec ts' keeps_acquire_spec w1) as Hkeep;
      destruct (mapM acquire_spec ts' w1) as [[l|e] w2] eqn:Hacq end.
    + apply mapM_acquire_spec in Hacq as (-> & _). cbn in *.
      unfold pending_tiles_distinct. cbn. rewrite Hkeep.
      apply distinct_Map_set; [apply NoDup_seq | done].
    + cbn in *. unfold pending_tiles_distinct. by rewrite Hkeep.
Qed.

Lemma distinct_releaseRender renderRef w :
  pending_tiles_distinct w →
  pending_tiles_distinct (releaseRender renderRef w).2.
Proof.
  intros Hwf. unfold releaseRender. unfold pending, gets, bind at 1.
  pose proof (keeps_release_tiles (ref_tiles renderRef) w) as Hkeep.
  unfold bind at 1.
  destruct (release_tiles (ref_tiles renderRef) w) as [[[]|e] w1]; cbn in Hkeep.
  2:{ cbn. unfold pending_tiles_distinct. by rewrite Hkeep. }
  assert (Hwf1 : pending_tiles_distinct w1).
  { unfold pending_tiles_distinct. by rewrite Hkeep. }
  destruct (Map_get (ref_tileSetID renderRef) (_pendingRenders w)) as [state|]
    eqn:Hget; [|exact Hwf1].
  destruct (decide (renderId state ≠ ref_renderId renderRef)); [exact Hwf1|].
  unfold emit, modify, bind at 1. unfold bind at 1.
  match goal with |- context [set_pendingRenders ?f ?w2] =>
    assert (Hwf2 : pending_tiles_distinct (set_pendingRenders f w2)) end.
  { unfold pending_tiles_distinct. cbn.
    apply distinct_Map_set; [|exact Hwf1]. cbn.
    eapply distinct_Map_get; [exact Hwf | exact Hget]. }
  destruct (decide _); [by apply distinct__finishRender | exact Hwf2].
Qed.

Lemma distinct_bind {A B} (m : M A) (k : A → M B) :
  keeps_distinct m → (∀ a, keeps_distinct (k a)) → keeps_distinct (bind m k).
Proof.
  intros Hm Hk w Hwf. unfold bind. specialize (Hm w Hwf).
  destruct (m w) as [[a|e] w1]; simpl in *; [|done].
  by apply Hk.
Qed.

Lemma distinct_of_keeps {A} (m : M A) : keeps_pending m → keeps_distinct m.
Proof. intros Hk w. by apply distinct_keeps. Qed.

Lemma distinct_tiles_settled k bad w :
  pending_tiles_distinct w →
  pending_tiles_distinct (tiles_settled k bad w).2.
Proof.
  revert w. change (keeps_distinct (tiles_settled k bad)). unfold tiles_settled.
  apply distinct_bind; [by apply distinct_of_keeps|]. intros [state|];
    [|by apply distinct_of_keeps].
  destruct (decide _); [by apply distinct_of_keeps|].
  destruct (_ =? 0).
  - apply distinct_bind; [apply distinct_of_keeps; keeps|]. intros _.
    apply distinct_bind; [|intros _; by apply distinct_of_keeps].
    intros w. apply distinct__finishRender.
  - apply distinct_bind; [by apply distinct_of_keeps|]. intros _.
    apply distinct_bind.
    { apply distinct_of_keeps, keeps_forEach_indexed. intros s i. keeps. }
    intros _. apply distinct_bind; [apply distinct_of_keeps, keeps_composite|].
    intros [|]; [|by apply distinct_of_keeps].
    apply distinct_bind; [apply distinct_of_keeps; keeps|]. intros _.
    apply distinct_bind; [|intros _; by apply distinct_of_keeps].
    intros w Hwf. by apply distinct_Map_delete.
Qed.

Lemma distinct_cancelAll w :
  pending_tiles_distinct w →
  pending_tiles_distinct (_cancelAllPendingRenders w).2.
Proof.
  intros _. destruct (cancelAll_makes_stale w ""%string 0) as (w' & -> & Hp & _).
  unfold pending_tiles_distinct. cbn. rewrite Hp. constructor.
Qed.

(** In every reachable store the tile list of every pending render
    holds pairwise distinct tile objects. *)
Lemma reachable_pending_tiles_distinct names w :
  reachable names w → pending_tiles_distinct w.
Proof.
  unfold reachable. revert w. apply rtc_ind_r.
  - constructor.
  - intros w1 w2 _ Hstep IH. destruct Hstep.
    + by apply distinct_renderTiles.
    + by apply distinct_releaseRender.
    + by apply distinct_tiles_settled.
    + by apply distinct_cancelAll.
    + by apply distinct_keeps; [apply keeps_acquireTile|].
    + by apply distinct_keeps; [apply keeps_releaseTile|].
    + apply distinct_keeps; [|done]. unfold load_timeout. keeps.
    + apply distinct_keeps; [|done]. unfold load_callback. keeps.
    + apply distinct_keeps; [|done]. unfold backend_stores_data. keeps.
Qed.

(** The theorem on the example request followed by the same tiles in the
    other order, moved by (1000, -7). *)
Lemma equivalent_submission_witness :
  let w := init_world ["a"%string] in
  let w1 := submitted_example in
  let h1 := example_ref in
  (pending_tiles_distinct w
   ∧ renderTiles 7 example_drawSpec example_tilesSpec 9 w
     = (Ok (h1, Some example_continuation), w1)
   ∧ moved_tilesSpec ≡ₚ translate 1000 (-7) <$> example_tilesSpec)
  ∧ ∃ h2 w2 state,
      renderTiles 8 moved_drawSpec moved_tilesSpec 5 w1 = (Ok (h2, None), w2)
      ∧ ref_tileSetID h2 = ref_tileSetID h1
      ∧ ref_renderId h2 = ref_renderId h1
      ∧ ref_tiles h2 = ref_tiles h1
      ∧ Map_get (ref_tileSetID h1) (_pendingRenders w1) = Some state
      ∧ Map_get (ref_tileSetID h1) (_pendingRenders w2)
        = Some (set_consumers (consumers state ++ [ref_consumer h2]) state)
      ∧ (∀ id, id ≠ ref_tileSetID h1 →
               Map_get id (_pendingRenders w2) = Map_get id (_pendingRenders w1))
      ∧ (∀ r, r ∈ ref_tiles h1 → uses_of w2 r = (λ u, u + 1) <$> uses_of w1 r)
      ∧ (∀ r, r ∉ ref_tiles h1 → tiles w2 !! r = tiles w1 !! r)
      ∧ (∀ r, is_Some (tiles w2 !! r) ↔ is_Some (tiles w1 !! r))
      ∧ nextTile w2 = nextTile w1
      ∧ sourceCaches w2 = sourceCaches w1
      ∧ _nextRenderId w2 = _nextRenderId w1
      ∧ trace w2 = trace w1.
Proof.
  intros w w1 h1.
  assert (Hwf : pending_tiles_distinct w) by constructor.
  assert (Hfirst : renderTiles 7 example_drawSpec example_tilesSpec 9 w
                   = (Ok (h1, Some example_continuation), w1))
    by (vm_compute; reflexivity).
  assert (Hperm : moved_tilesSpec ≡ₚ translate 1000 (-7) <$> example_tilesSpec)
    by apply Permutation_swap.
  split; [exact (conj Hwf (conj Hfirst Hperm))|].
  exact (equivalent_submission_coalesces w 7 example_drawSpec example_tilesSpec
           9 h1 (Some example_continuation) w1 8 moved_drawSpec
           moved_tilesSpec 5 1000 (-7) Hwf Hfirst Hperm).
Defined.

(** The run of the witness: the second submission returns the render id
    and the tiles of the first, both tiles are used twice afterwards, and
    the only loads requested are those of the first submission. *)
Example equivalent_submission_run :
  let w2 := (renderTiles 8 moved_drawSpec moved_tilesSpec 5 submitted_example).2 in
  _tileSpecToString (_canonicalizeSpec moved_tilesSpec moved_drawSpec).1
  = example_tileSetID
  ∧ uses_of w2 0%nat = Some 2
  ∧ uses_of w2 1%nat = Some 2
  ∧ nextTile w2 = 2%nat
  ∧ trace w2 = [LoadTile "a" 0; LoadTile "a" 1]
  ∧ (consumers <$> Map_get example_tileSetID (_pendingRenders w2))
    = Some [example_consumer;
            mkConsumer 1 8 (mkDrawSpec (Fin 100) (Fin 7) (Fin 64) (Fin 32)
                              (Fin 300) (Fin 400))
                       [mkTileSpec "a" 1 1 0 (Fin 256) (Fin 0) 256;
                        mkTileSpec "a" 1 0 0 (Fin 0) (Fin 0) 256] 5].
Proof. repeat split; vm_compute; reflexivity. Qed.

(** * Further properties of the renderer *)

(** ** Canonical form *)

Lemma num_sub_as_add x m : num_sub x (Fin m) = num_add x (Fin (- m)).
Proof. destruct x; simpl; try done; f_equal; lia. Qed.

Lemma num_sub_0 x : num_sub x (Fin 0) = x.
Proof. destruct x; simpl; try done; f_equal; lia. Qed.

Lemma canonical_minimum (f : TileSpec → num) ts m :
  fold_left Math_min (f <$> ts) PInf = Fin m →
  fold_left Math_min ((λ s, num_sub (f s) (Fin m)) <$> ts) PInf = Fin 0.
Proof.
  intros Hmin.
  erewrite (list_fmap_ext _ ((λ x, num_add x (Fin (- m))) ∘ f) ts);
    [|intros; simpl; apply num_sub_as_add].
  rewrite list_fmap_compose.
  change PInf with (num_add PInf (Fin (- m))) at 1.
  rewrite fold_Math_min_translate, Hmin. simpl. f_equal. lia.
Qed.

(** X1: when the tile placements have a finite minimum in both
    directions, the canonical tile list has its minimum at the origin
    (0, 0), and canonicalising a canonical request changes nothing. *)
Theorem canonicalize_idempotent ts d ml mt :
  fold_left Math_min (ts_left <$> ts) PInf = Fin ml →
  fold_left Math_min (ts_top <$> ts) PInf = Fin mt →
  fold_left Math_min (ts_left <$> (_canonicalizeSpec ts d).1) PInf = Fin 0
  ∧ fold_left Math_min (ts_top <$> (_canonicalizeSpec ts d).1) PInf = Fin 0
  ∧ _canonicalizeSpec (_canonicalizeSpec ts d).1 (_canonicalizeSpec ts d).2
    = _canonicalizeSpec ts d.
Proof.
  intros Hl Ht.
  assert (Hl0 : fold_left Math_min (ts_left <$> (_canonicalizeSpec ts d).1) PInf
                = Fin 0).
  { unfold _canonicalizeSpec. cbn [fst]. rewrite Hl, Ht, <- list_fmap_compose.
    by apply (canonical_minimum ts_left). }
  assert (Ht0 : fold_left Math_min (ts_top <$> (_canonicalizeSpec ts d).1) PInf
                = Fin 0).
  { unfold _canonicalizeSpec. cbn [fst]. rewrite Hl, Ht, <- list_fmap_compose.
    by apply (canonical_minimum ts_top). }
  split; [done|]. split; [done|].
  unfold _canonicalizeSpec at 1. rewrite Hl0, Ht0.
  destruct (_canonicalizeSpec ts d) as [ts' d'] eqn:Hc. cbn [fst snd].
  f_equal.
  - rewrite <- (list_fmap_id ts') at 2. apply list_fmap_ext.
    intros _ [src z x y l t sz] _. simpl. by rewrite !num_sub_0.
  - destruct d'. simpl. by rewrite !num_sub_0.
Qed.

(** The theorem on the example request. *)
Lemma canonicalize_idempotent_witness :
  (fold_left Math_min (ts_left <$> example_tilesSpec) PInf = Fin 100
   ∧ fold_left Math_min (ts_top <$> example_tilesSpec) PInf = Fin 50)
  ∧ _canonicalizeSpec
      (_canonicalizeSpec example_tilesSpec example_drawSpec).1
      (_canonicalizeSpec example_tilesSpec example_drawSpec).2
    = _canonicalizeSpec example_tilesSpec example_drawSpec.
Proof.
  split; [split; reflexivity|].
  exact (proj2 (proj2 (canonicalize_idempotent example_tilesSpec
                         example_drawSpec 100 50 eq_refl eq_refl))).
Defined.

(** ** The geometry of the copies *)












(** ** What is never appended to the trace *)

Lemma emits_ret {A} P (a : A) : emits_only P (ret a).
Proof. intros w. exists []. by rewrite app_nil_r. Qed.

Lemma emits_throw {A} P e : emits_only P (@throw A e).
Proof. intros w. exists []. by rewrite app_nil_r. Qed.

Lemma emits_gets {A} P (f : World → A) : emits_only P (gets f).
Proof. intros w. exists []. by rewrite app_nil_r. Qed.

Lemma emits_modify P (f : World → World) :
  (∀ w, trace (f w) = trace w) → emits_only P (modify f).
Proof. intros Hf w. exists []. simpl. by rewrite Hf, app_nil_r. Qed.

Lemma emits_emit (P : Event → Prop) e : P e → emits_only P (emit e).
Proof. intros He w. exists [e]. split; [done | by constructor]. Qed.

Lemma emits_update_tile P r f : emits_only P (update_tile r f).
Proof. by apply emits_modify. Qed.

Lemma emits_update_cache P n f : emits_only P (update_cache n f).
Proof. by apply emits_modify. Qed.

Lemma emits_read_tile P r : emits_only P (read_tile r).
Proof.
  intros w. exists []. unfold read_tile.
  destruct (tiles w !! r); by rewrite app_nil_r.
Qed.

Lemma emits_read_cache P n : emits_only P (read_cache n).
Proof.
  intros w. exists []. unfold read_cache.
  destruct (sourceCaches w !! n); by rewrite app_nil_r.
Qed.

Lemma emits_bind {A B} P (m : M A) (k : A → M B) :
  emits_only P m → (∀ a, emits_only P (k a)) → emits_only P (bind m k).
Proof.
  intros Hm Hk w. unfold bind. destruct (Hm w) as (evs & Htr & Hev).
  destruct (m w) as [[a|e] w1]; simpl in *; [|by exists evs].
  destruct (Hk a w1) as (evs' & Htr' & Hev').
  exists (evs ++ evs'). rewrite Htr', Htr, app_assoc.
  split; [done | by apply Forall_app].
Qed.

Lemma emits_forEach {A} P (f : A → M unit) l :
  (∀ a, emits_only P (f a)) → emits_only P (forEach f l).
Proof.
  intros Hf. induction l as [|a l IH]; simpl; [apply emits_ret|].
  apply emits_bind; [apply Hf | by intros _].
Qed.

Lemma emits_forEach_indexed {A} P (f : A → nat → M unit) l :
  (∀ a i, emits_only P (f a i)) → ∀ i, emits_only P (forEach_indexed f i l).
Proof.
  intros Hf. induction l as [|a l IH]; intros i; simpl; [apply emits_ret|].
  apply emits_bind; [apply Hf | intros _; apply IH].
Qed.

Lemma emits_mapM {A B} P (f : A → M B) l :
  (∀ a, emits_only P (f a)) → emits_only P (mapM f l).
Proof.
  intros Hf. induction l as [|a l IH]; simpl; [apply emits_ret|].
  apply emits_bind; [apply Hf | intros b].
  apply emits_bind; [apply IH | intros bs; apply emits_ret].
Qed.

Lemma emits_for_blocks P body hi :
  (∀ xx, emits_only P (body xx)) →
  ∀ fuel xx, emits_only P (for_blocks fuel xx hi body).
Proof.
  intros Hb. induction fuel as [|fuel IH]; intros xx; simpl; [apply emits_ret|].
  destruct (num_lt xx hi); [|apply emits_ret].
  apply emits_bind; [apply Hb | intros [|]; [apply IH | apply emits_ret]].
Qed.

Lemma emits_weaken {A} (P Q : Event → Prop) (m : M A) :
  (∀ e, P e → Q e) → emits_only P m → emits_only Q m.
Proof.
  intros HPQ Hm w. destruct (Hm w) as (evs & Htr & Hev).
  exists evs. split; [done|]. by eapply Forall_impl.
Qed.

Ltac emits_by tac :=
  repeat first
    [ tac | apply emits_ret | apply emits_throw | apply emits_gets
    | apply emits_update_tile | apply emits_update_cache
    | apply emits_read_tile | apply emits_read_cache
    | apply emits_emit; simpl; done
    | apply emits_modify; done
    | apply emits_bind; [|intros ?]
    | apply emits_forEach; intros ?
    | apply emits_mapM; intros ?
    | match goal with
      | |- emits_only _ (if ?b then _ else _) => destruct b
      | |- emits_only _ (match ?x with _ => _ end) => destruct x
      | |- emits_only _ (let '(_, _) := ?x in _) => destruct x
      end ].

Ltac emits := emits_by fail.

Lemma emits_acquireTile (P : Event → Prop) this id sz :
  (∀ t, P (LoadTile this t)) → emits_only P (acquireTile this id sz).
Proof.
  intros HP w. rewrite acquireTile_fresh. eexists. split; [done|].
  by constructor.
Qed.

Lemma emits_releaseTile (P : Event → Prop) this t :
  (∀ r, P (AbortTile this r)) → (∀ r, P (UnloadTile this r)) →
  emits_only P (releaseTile this t).
Proof. intros Ha Hu. unfold releaseTile. emits_by ltac:(apply emits_emit; done). Qed.

Lemma emits_release_tiles l : emits_only is_backend (release_tiles l).
Proof. unfold release_tiles. emits_by ltac:(by apply emits_releaseTile). Qed.

Lemma emits__finishRender id rid err :
  emits_only (λ e, ∃ cb, e = Next cb err) (_finishRender id rid err).
Proof. unfold _finishRender, pending. emits_by ltac:(apply emits_emit; by eexists). Qed.

(** X4: a submission only requests loads.  Whatever the store and the
    request, and also when it throws, [renderTiles] appends nothing but
    [loadTile] calls to the trace: it never calls a consumer's callback
    or context and never paints before it returns. *)
Theorem renderTiles_only_requests_loads cx d ts nxt w :
  ∃ evs,
    trace (renderTiles cx d ts nxt w).2 = trace w ++ evs
    ∧ Forall is_LoadTile evs.
Proof.
  revert w. change (emits_only is_LoadTile (renderTiles cx d ts nxt)).
  unfold renderTiles. destruct (_canonicalizeSpec ts d) as [ts' d'].
  unfold pending, acquire_spec.
  emits_by ltac:(by apply emits_acquireTile).
Qed.

(** X5: the continuation of a render never calls the fetch backend:
    whatever the store, the events [tiles_settled] appends are calls to
    the contexts, the style, the painter and the callbacks of consumers;
    no tile is loaded, aborted or unloaded by it. *)
Theorem tiles_settled_leaves_backend_alone k bad w :
  ∃ evs,
    trace (tiles_settled k bad w).2 = trace w ++ evs
    ∧ Forall (λ e, ¬ is_backend e) evs.
Proof.
  revert w. change (emits_only (λ e, ¬ is_backend e) (tiles_settled k bad)).
  unfold tiles_settled, pending.
  apply emits_bind; [emits|]. intros [state|]; [|emits].
  destruct (decide _); [emits|].
  destruct (_ =? 0).
  { apply emits_bind; [emits_by ltac:(apply emits_emit; by intros [])|].
    intros _. apply emits_bind; [|emits].
    eapply emits_weaken; [|apply emits__finishRender].
    by intros e [cb ->] []. }
  apply emits_bind; [unfold reset_rendering; emits|]. intros _.
  apply emits_bind.
  { apply emits_forEach_indexed. intros s i. emits. }
  intros _. apply emits_bind.
  { unfold composite. apply emits_for_blocks. intros xx.
    apply emits_for_blocks. intros yy. unfold render_block.
    emits_by ltac:(apply emits_emit; by intros []). }
  intros [|]; [|emits]. unfold reset_rendering.
  emits_by ltac:(apply emits_emit; by intros []).
Qed.

(** ** Submitting a new render *)

Lemma acquireTile_caches this id sz w n :
  is_Some (sourceCaches (acquireTile this id sz w).2 !! n)
  ↔ is_Some (sourceCaches w !! n).
Proof.
  rewrite acquireTile_fresh. simpl.
  destruct (decide (this = n)) as [->|Hne].
  - by rewrite lookup_alter_eq, fmap_is_Some.
  - by rewrite lookup_alter_ne.
Qed.

(** Acquiring the tiles of a list of tile specs whose sources exist. *)
Lemma mapM_acquire_ok ts : ∀ w,
  (∀ s, s ∈ ts → is_Some (sourceCaches w !! source s)) →
  ∃ w',
    mapM acquire_spec ts w = (Ok (seq (nextTile w) (length ts)), w')
    ∧ trace w' = trace w ++ loads_from (nextTile w) ts
    ∧ (∀ i s, ts !! i = Some s →
              tiles w' !! (nextTile w + i)%nat = Some (acquired_tile s))
    ∧ (∀ r, (r < nextTile w)%nat → tiles w' !! r = tiles w !! r)
    ∧ nextTile w' = (nextTile w + length ts)%nat
    ∧ (∀ n, is_Some (sourceCaches w' !! n) ↔ is_Some (sourceCaches w !! n))
    ∧ _pendingRenders w' = _pendingRenders w
    ∧ _nextRenderId w' = _nextRenderId w
    ∧ nextConsumer w' = nextConsumer w.
Proof.
  induction ts as [|s ts IH]; intros w Hsrc.
  - exists w. simpl. unfold loads_from. simpl. rewrite app_nil_r.
    split; [done|]. split; [done|].
    split; [intros i s Hi; by rewrite lookup_nil in Hi|].
    split; [done|]. split; [lia|]. done.
  - rewrite mapM_cons, acquire_spec_unfold.
    destruct (Hsrc s) as [c Hc]; [by left|]. rewrite Hc.
    pose proof (acquireTile_caches (source s) (ts_z s, ts_x s, ts_y s)
                  (ts_size s) w) as Hcaches.
    rewrite acquireTile_fresh in *.
    match goal with |- context [mapM _ ts ?x] => set (w1 := x) in * end.
    destruct (IH w1) as (w' & Hrun & Htr & Hnew & Hold & Hnext & Hsc & Hp & Hr & Hc').
    { intros s' Hs'. apply Hcaches, Hsrc. by right. }
    rewrite Hrun. exists w'. subst w1. simpl in *.
    split; [done|]. split; [|split; [|split; [|split; [|split]]]].
    + rewrite Htr, <- app_assoc. f_equal. unfold loads_from. simpl.
      rewrite Nat.add_0_r. f_equal. apply imap_ext. intros i x _. simpl.
      f_equal. lia.
    + intros [|i] s' Hi; simpl in Hi.
      * injection Hi as <-. rewrite Nat.add_0_r, Hold by lia.
        by rewrite lookup_insert_eq.
      * rewrite <- (Hnew i s' Hi). f_equal. lia.
    + intros r Hr'. rewrite Hold by lia. rewrite lookup_insert_ne by lia. done.
    + lia.
    + intros n. by rewrite Hsc, Hcaches.
    + done.
Qed.

Lemma canonical_sources ts d s' :
  s' ∈ (_canonicalizeSpec ts d).1 → ∃ s, s ∈ ts ∧ source s' = source s.
Proof.
  unfold _canonicalizeSpec. cbn [fst]. intros Hin.
  apply list_elem_of_fmap in Hin as (s & -> & Hs). by exists s.
Qed.

(** X6: a submission whose fingerprint is not registered and whose
    sources all exist creates a pending render with the next render id,
    acquires one new tile per tile spec, in the order of the list, each
    with usage count 1 and owned by the source of its spec, requests
    their loads in that order, and registers the state with the
    submitting consumer as its only consumer. *)
Theorem renderTiles_creates_pending_render cx d ts nxt w :
  Map_get (_tileSpecToString (_canonicalizeSpec ts d).1) (_pendingRenders w)
  = None →
  (∀ s, s ∈ ts → is_Some (sourceCaches w !! source s)) →
  let ts' := (_canonicalizeSpec ts d).1 in
  let d' := (_canonicalizeSpec ts d).2 in
  let id := _tileSpecToString ts' in
  let rid := _nextRenderId w + 1 in
  let acquired := seq (nextTile w) (length ts) in
  let c := mkConsumer (nextConsumer w) cx d' ts' nxt in
  ∃ w',
    renderTiles cx d ts nxt w
    = (Ok (mkRenderRef rid c acquired id,
           Some (mkContinuation id rid d' ts')), w')
    ∧ _pendingRenders w'
      = Map_set id (mkRenderState id rid acquired [c]) (_pendingRenders w)
    ∧ _nextRenderId w' = rid
    ∧ trace w' = trace w ++ loads_from (nextTile w) ts'
    ∧ (∀ i s, ts' !! i = Some s →
              tiles w' !! (nextTile w + i)%nat = Some (acquired_tile s))
    ∧ (∀ r, (r < nextTile w)%nat → tiles w' !! r = tiles w !! r)
    ∧ nextTile w' = (nextTile w + length ts)%nat.
Proof.
  intros Hnone Hsrc. cbv zeta.
  assert (Hlen : length (_canonicalizeSpec ts d).1 = length ts).
  { unfold _canonicalizeSpec. cbn [fst]. by rewrite length_fmap. }
  assert (Hsrc' : ∀ s', s' ∈ (_canonicalizeSpec ts d).1 →
                        is_Some (sourceCaches w !! source s')).
  { intros s' Hs'. apply canonical_sources in Hs' as (s & Hs & ->).
    by apply Hsrc. }
  unfold renderTiles.
  destruct (_canonicalizeSpec ts d) as [ts' d'] eqn:Hcanon. cbn [fst snd] in *.
  destruct (mapM_acquire_ok ts'
              (set_nextRenderId (_nextRenderId w + 1)
                 (set_nextConsumer (S (nextConsumer w)) w)))
    as (w1 & Hrun & Htr & Hnew & Hold & Hnext & Hsc & Hp & Hr & Hc);
    [exact Hsrc'|].
  cbn [nextTile trace tiles _pendingRenders _nextRenderId nextConsumer
       set_nextRenderId set_nextConsumer] in *.
  unfold gets, modify, bind at 1. unfold bind at 1. unfold pending, gets, bind at 1.
  cbn [_pendingRenders set_nextConsumer]. rewrite Hnone.
  unfold gets, bind at 1. unfold modify, bind at 1. unfold bind at 1.
  cbn [_nextRenderId set_nextConsumer]. rewrite Hrun, Hlen.
  unfold modify, bind, ret. eexists. split; [reflexivity|].
  cbn [nextTile trace tiles _pendingRenders _nextRenderId nextConsumer
       set_pendingRenders].
  rewrite Hp, Hr, Htr, Hnext, Hlen. repeat split; done.
Qed.

(** The theorem on the example request and a fresh renderer. *)
Lemma renderTiles_creates_witness :
  let w := init_world ["a"%string] in
  (Map_get (_tileSpecToString
              (_canonicalizeSpec example_tilesSpec example_drawSpec).1)
           (_pendingRenders w) = None
   ∧ (∀ s, s ∈ example_tilesSpec → is_Some (sourceCaches w !! source s)))
  ∧ ∃ w',
      renderTiles 7 example_drawSpec example_tilesSpec 9 w
      = (Ok (example_ref, Some example_continuation), w')
      ∧ trace w' = [LoadTile "a" 0; LoadTile "a" 1].
Proof.
  intros w.
  assert (H1 : Map_get (_tileSpecToString
                          (_canonicalizeSpec example_tilesSpec example_drawSpec).1)
                       (_pendingRenders w) = None) by reflexivity.
  assert (H2 : ∀ s, s ∈ example_tilesSpec → is_Some (sourceCaches w !! source s)).
  { intros s Hs. apply elem_of_cons in Hs as [->|Hs]; [by eexists|].
    apply elem_of_cons in Hs as [->|Hs]; [by eexists|].
    by apply elem_of_nil in Hs. }
  split; [exact (conj H1 H2)|].
  destruct (renderTiles_creates_pending_render 7 example_drawSpec
              example_tilesSpec 9 w H1 H2) as (w' & Hrun & _ & _ & Htr & _).
  exists w'. split; [exact Hrun | exact Htr].
Defined.

Lemma mapM_app {A B} (f : A → M B) l1 l2 w r1 w1 :
  mapM f l1 w = (Ok r1, w1) →
  mapM f (l1 ++ l2) w
  = match mapM f l2 w1 with
    | (Ok r2, w2) => (Ok (r1 ++ r2), w2)
    | (Throw e, w2) => (Throw e, w2)
    end.
Proof.
  revert w r1. induction l1 as [|a l1 IH]; intros w r1.
  - simpl. unfold ret. intros [= <- <-]. simpl.
    by destruct (mapM f l2 w) as [[r2|e] w2].
  - rewrite <- app_comm_cons, !mapM_cons.
    destruct (f a w) as [[b|e] wa]; [|by intros [=]].
    destruct (mapM f l1 wa) as [[bs|e] wb] eqn:Hrest; [|by intros [=]].
    intros [= <- <-]. rewrite (IH _ _ Hrest).
    by destruct (mapM f l2 wb) as [[r2|e] w2].
Qed.

Lemma loads_from_sources base (f : TileSpec → TileSpec) ts :
  (∀ s, source (f s) = source s) →
  loads_from base (f <$> ts) = loads_from base ts.
Proof.
  intros Hf. unfold loads_from. rewrite imap_fmap. apply imap_ext.
  intros i s _. simpl. by rewrite Hf.
Qed.

(** X7: a submission that names a source the style does not have throws
    when it reaches the first tile spec of that source.  By then the
    render id is used up and the tiles of the tile specs before it have
    been acquired and their loads requested; they keep their use, while
    no pending render is registered and no token is returned through
    which they could be released. *)
Theorem renderTiles_unknown_source cx d pre s post nxt w :
  Map_get (_tileSpecToString (_canonicalizeSpec (pre ++ s :: post) d).1)
          (_pendingRenders w) = None →
  (∀ s', s' ∈ pre → is_Some (sourceCaches w !! source s')) →
  sourceCaches w !! source s = None →
  ∃ w',
    renderTiles cx d (pre ++ s :: post) nxt w = (Throw TypeError, w')
    ∧ _pendingRenders w' = _pendingRenders w
    ∧ _nextRenderId w' = _nextRenderId w + 1
    ∧ trace w' = trace w ++ loads_from (nextTile w) pre
    ∧ nextTile w' = (nextTile w + length pre)%nat
    ∧ (∀ i, (i < length pre)%nat → uses_of w' (nextTile w + i)%nat = Some 1).
Proof.
  intros Hnone Hpre Hs. unfold renderTiles.
  unfold _canonicalizeSpec in *. cbn [fst] in Hnone.
  set (f := λ s0 : TileSpec, mkTileSpec (source s0) (ts_z s0) (ts_x s0) (ts_y s0)
              (num_sub (ts_left s0)
                 (fold_left Math_min (ts_left <$> pre ++ s :: post) PInf))
              (num_sub (ts_top s0)
                 (fold_left Math_min (ts_top <$> pre ++ s :: post) PInf))
              (ts_size s0)) in *.
  set (w0 := set_nextRenderId (_nextRenderId w + 1)
               (set_nextConsumer (S (nextConsumer w)) w)).
  destruct (mapM_acquire_ok (f <$> pre) w0)
    as (w1 & Hrun & Htr & Hnew & Hold & Hnext & Hsc & Hp & Hr & Hc).
  { intros s' Hs'. apply list_elem_of_fmap in Hs' as (s0 & -> & Hs0).
    simpl. by apply Hpre. }
  assert (Hfail : mapM acquire_spec (f <$> pre ++ s :: post) w0
                  = (Throw TypeError, w1)).
  { rewrite fmap_app, (mapM_app _ _ _ _ _ _ Hrun), fmap_cons, mapM_cons,
      acquire_spec_unfold.
    assert (Hnone' : sourceCaches w1 !! source (f s) = None).
    { apply eq_None_not_Some. rewrite Hsc. simpl. by rewrite Hs; intros []. }
    by rewrite Hnone'. }
  unfold gets, modify, bind at 1. unfold bind at 1. unfold pending, gets, bind at 1.
  cbn [_pendingRenders set_nextConsumer]. rewrite Hnone.
  unfold gets, bind at 1. unfold modify, bind at 1. unfold bind at 1.
  cbn [_nextRenderId set_nextConsumer]. fold w0. rewrite Hfail.
  exists w1. split; [done|].
  rewrite length_fmap in *. rewrite (loads_from_sources _ f) in Htr by done.
  subst w0. cbn in *.
  split; [done|]. split; [done|]. split; [done|]. split; [done|].
  intros i Hi. unfold uses_of.
  destruct (lookup_lt_is_Some_2 (f <$> pre) i) as [s' Hs'];
    [by rewrite length_fmap|].
  by rewrite (Hnew i s' Hs').
Qed.

(** The theorem on a request whose second tile spec names the source "b"
    that a renderer over the source "a" does not have. *)
Lemma renderTiles_unknown_source_witness :
  let w := init_world ["a"%string] in
  let s1 := mkTileSpec "a" 1 0 0 (Fin 100) (Fin 50) 256 in
  let s2 := mkTileSpec "b" 1 1 0 (Fin 356) (Fin 50) 256 in
  (Map_get (_tileSpecToString
              (_canonicalizeSpec ([s1] ++ s2 :: []) example_drawSpec).1)
           (_pendingRenders w) = None
   ∧ (∀ s', s' ∈ [s1] → is_Some (sourceCaches w !! source s'))
   ∧ sourceCaches w !! source s2 = None)
  ∧ ∃ w',
      renderTiles 7 example_drawSpec ([s1] ++ s2 :: []) 9 w
      = (Throw TypeError, w')
      ∧ _pendingRenders w' = []
      ∧ trace w' = [LoadTile "a" 0]
      ∧ uses_of w' 0%nat = Some 1.
Proof.
  intros w s1 s2.
  assert (H1 : Map_get (_tileSpecToString
                 (_canonicalizeSpec ([s1] ++ s2 :: []) example_drawSpec).1)
                 (_pendingRenders w) = None) by reflexivity.
  assert (H2 : ∀ s', s' ∈ [s1] → is_Some (sourceCaches w !! source s')).
  { intros s' Hs'. apply elem_of_cons in Hs' as [->|Hs']; [by eexists|].
    by apply elem_of_nil in Hs'. }
  assert (H3 : sourceCaches w !! source s2 = None) by reflexivity.
  split; [exact (conj H1 (conj H2 H3))|].
  destruct (renderTiles_unknown_source 7 example_drawSpec [s1] s2 [] 9 w
              H1 H2 H3) as (w' & Hrun & Hp & _ & Htr & _ & Huses).
  exists w'. split; [exact Hrun|]. split; [exact Hp|]. split; [exact Htr|].
  apply (Huses 0%nat). simpl. lia.
Defined.

(** ** Releasing a token while its render is pending *)

Lemma callbacks_app tr1 tr2 : callbacks (tr1 ++ tr2) = callbacks tr1 ++ callbacks tr2.
Proof. unfold callbacks. apply omap_app. Qed.

Lemma callbacks_backend evs : Forall is_backend evs → callbacks evs = [].
Proof.
  induction 1 as [|e evs He _ IH]; [done|].
  unfold callbacks in *. simpl. destruct e; simpl in *; done.
Qed.

Lemma Map_delete_set {V} k (v : V) m : Map_delete k (Map_set k v m) = Map_delete k m.
Proof.
  induction m as [|[k' v'] m IH]; simpl.
  - by rewrite decide_True.
  - destruct (decide (k' = k)) as [->|Hne]; simpl.
    + by rewrite decide_True.
    + by rewrite decide_False, IH.
Qed.

(** The part of [releaseRender] that follows the release of the tiles,
    for a token whose render is registered under its fingerprint. *)
Lemma releaseRender_current_effect renderRef w w1 state :
  release_tiles (ref_tiles renderRef) w = (Ok tt, w1) →
  Map_get (ref_tileSetID renderRef) (_pendingRenders w) = Some state →
  renderId state = ref_renderId renderRef →
  tileSetID state = ref_tileSetID renderRef →
  let rest := remove_consumer (ref_consumer renderRef) (consumers state) in
  releaseRender renderRef w
  = (Ok tt,
     mkWorld (tiles w1) (nextTile w1) (sourceCaches w1)
       (if decide (length rest = 0%nat)
        then Map_delete (ref_tileSetID renderRef) (_pendingRenders w1)
        else Map_set (ref_tileSetID renderRef) (set_consumers rest state)
                     (_pendingRenders w1))
       (_nextRenderId w1) (nextConsumer w1)
       (trace w1 ++ [Next (next (ref_consumer renderRef))
                          (Some "canceled"%string)])).
Proof.
  intros Hrun Hget Hrid Hkey rest. unfold releaseRender.
  unfold pending, gets, bind at 1. rewrite Hget.
  rewrite (bind_ok _ _ _ _ _ Hrun), decide_False by (by intros []).
  fold rest. unfold emit, modify, bind at 1. unfold bind at 1.
  destruct (decide (length rest = 0%nat)) as [Hlen|Hlen]; [|done].
  rewrite Hkey.
  erewrite (_finishRender_current _ _ _ _ (set_consumers rest state));
    [| simpl; apply Map_get_set_eq | done].
  simpl. destruct rest; [|done]. simpl.
  by rewrite app_nil_r, Map_delete_set.
Qed.

(** X8: [releaseRender] signals nobody but the consumer of the token.
    Provided the state registered under the token's fingerprint carries
    that fingerprint, the callbacks made by a call, whether it returns or
    throws, are either none or the single call telling the token's own
    consumer "canceled"; in particular the outcome "fully-canceled" is
    never delivered to anyone. *)
Theorem releaseRender_signals_only_its_consumer renderRef w :
  keyed_at (ref_tileSetID renderRef) w →
  ∃ evs,
    trace (releaseRender renderRef w).2 = trace w ++ evs
    ∧ (callbacks evs = []
       ∨ callbacks evs
         = [(next (ref_consumer renderRef), Some "canceled"%string)]).
Proof.
  intros Hkeyed.
  destruct (emits_release_tiles (ref_tiles renderRef) w) as (evs & Htr & Hev).
  pose proof (keeps_release_tiles (ref_tiles renderRef) w) as Hkeep.
  destruct (release_tiles (ref_tiles renderRef) w) as [[[]|e] w1] eqn:Hrun;
    simpl in Htr, Hkeep.
  - destruct (Map_get (ref_tileSetID renderRef) (_pendingRenders w))
      as [state|] eqn:Hget;
      [destruct (decide (renderId state = ref_renderId renderRef)) as [Heq|Hne]|].
    + rewrite (releaseRender_current_effect _ _ _ _ Hrun Hget Heq
                 (Hkeyed _ Hget)). simpl.
      exists (evs ++ [Next (next (ref_consumer renderRef)) (Some "canceled"%string)]).
      rewrite Htr, app_assoc. split; [done|]. right.
      by rewrite callbacks_app, callbacks_backend.
    + rewrite releaseRender_stale, Hrun by (unfold stale; by rewrite Hget).
      exists evs. split; [done|]. left. by apply callbacks_backend.
    + rewrite releaseRender_stale, Hrun by (unfold stale; by rewrite Hget).
      exists evs. split; [done|]. left. by apply callbacks_backend.
  - unfold releaseRender, pending, gets, bind. rewrite Hrun. simpl.
    exists evs. split; [done|]. left. by apply callbacks_backend.
Qed.

(** The theorem on the token of the example request. *)
Lemma releaseRender_signals_witness :
  keyed_at (ref_tileSetID example_ref) submitted_example
  ∧ ∃ evs,
      trace (releaseRender example_ref submitted_example).2
      = trace submitted_example ++ evs
      ∧ (callbacks evs = []
         ∨ callbacks evs = [(next (ref_consumer example_ref),
                             Some "canceled"%string)]).
Proof.
  assert (Hk : keyed_at (ref_tileSetID example_ref) submitted_example).
  { intros state Hget. vm_compute in Hget. by injection Hget as <-. }
  split; [exact Hk|].
  exact (releaseRender_signals_only_its_consumer example_ref
           submitted_example Hk).
Defined.

(** X9: a token is released while its render is pending.  The tiles of
    the token lose one use each, with the backend calls this entails;
    then the token's consumer is told "canceled" and taken off the
    consumers of the state.  When other consumers remain the state stays
    registered with them, in their order, and none of them is signalled;
    when none remains the state is removed from the registry. *)
Theorem releaseRender_while_pending renderRef w state :
  NoDup (ref_tiles renderRef) →
  (∀ r, r ∈ ref_tiles renderRef → releasable w r) →
  Map_get (ref_tileSetID renderRef) (_pendingRenders w) = Some state →
  renderId state = ref_renderId renderRef →
  tileSetID state = ref_tileSetID renderRef →
  let rest := remove_consumer (ref_consumer renderRef) (consumers state) in
  ∃ w' evs,
    releaseRender renderRef w = (Ok tt, w')
    ∧ trace w' = trace w ++ evs
                 ++ [Next (next (ref_consumer renderRef)) (Some "canceled"%string)]
    ∧ Forall is_backend evs
    ∧ _pendingRenders w'
      = (if decide (length rest = 0%nat)
         then Map_delete (ref_tileSetID renderRef) (_pendingRenders w)
         else Map_set (ref_tileSetID renderRef) (set_consumers rest state)
                      (_pendingRenders w))
    ∧ (∀ r, r ∈ ref_tiles renderRef →
            uses_of w' r = (λ u, u - 1) <$> uses_of w r).
Proof.
  intros Hnd Hall Hget Hrid Hkey rest.
  destruct (release_tiles_ok _ w Hnd Hall)
    as (w1 & evs & Hrun & Huses & Hfr & Hdom & Hpend & Hnr & Htr & Hev).
  destruct (emits_release_tiles (ref_tiles renderRef) w) as (evs' & Htr' & Hev').
  rewrite Hrun in Htr'. simpl in Htr'. rewrite Htr in Htr'.
  apply app_inv_head in Htr' as ->.
  rewrite (releaseRender_current_effect _ _ _ _ Hrun Hget Hrid Hkey).
  eexists _, evs'. split; [reflexivity|]. simpl. fold rest.
  rewrite Htr, Hpend, <- app_assoc. repeat split; try done.
Qed.

(** The theorem on the token of the example request, whose consumer is
    the only one. *)
Lemma releaseRender_while_pending_witness :
  let w := submitted_example in
  let state := mkRenderState example_tileSetID 1 [0%nat; 1%nat] [example_consumer] in
  (NoDup (ref_tiles example_ref)
   ∧ (∀ r, r ∈ ref_tiles example_ref → releasable w r)
   ∧ Map_get (ref_tileSetID example_ref) (_pendingRenders w) = Some state
   ∧ renderId state = ref_renderId example_ref
   ∧ tileSetID state = ref_tileSetID example_ref)
  ∧ ∃ w' evs,
      releaseRender example_ref w = (Ok tt, w')
      ∧ trace w' = trace w ++ evs ++ [Next 9 (Some "canceled"%string)]
      ∧ Forall is_backend evs
      ∧ _pendingRenders w' = [].
Proof.
  intros w state.
  assert (Hnd : NoDup (ref_tiles example_ref)) by apply (NoDup_seq 0 2).
  assert (Hall : ∀ r, r ∈ ref_tiles example_ref → releasable w r).
  { intros r Hr. change (r ∈ seq 0 2) in Hr. apply elem_of_seq in Hr.
    destruct r as [|[|r]]; [| |lia].
    - exists (acquired_tile (mkTileSpec "a" 1 0 0 (Fin 0) (Fin 0) 256)), "a"%string.
      split; [vm_compute; reflexivity|]. split; [done|]. split; [done|].
      by eexists.
    - exists (acquired_tile (mkTileSpec "a" 1 1 0 (Fin 256) (Fin 0) 256)), "a"%string.
      split; [vm_compute; reflexivity|]. split; [done|]. split; [done|].
      by eexists. }
  assert (Hget : Map_get (ref_tileSetID example_ref) (_pendingRenders w)
                 = Some state) by (vm_compute; reflexivity).
  split; [exact (conj Hnd (conj Hall (conj Hget (conj eq_refl eq_refl))))|].
  destruct (releaseRender_while_pending example_ref w state Hnd Hall Hget
              eq_refl eq_refl) as (w' & evs & Hrun & Htr & Hev & Hp & _).
  exists w', evs. split; [exact Hrun|]. split; [exact Htr|].
  split; [exact Hev|]. rewrite Hp. vm_compute. reflexivity.
Defined.

(** ** Invariants of the reachable stores *)

Lemma preserves_ret {A} I (a : A) : preserves I (ret a).
Proof. by intros w. Qed.

Lemma preserves_throw {A} I e : preserves I (@throw A e).
Proof. by intros w. Qed.

Lemma preserves_gets {A} I (f : World → A) : preserves I (gets f).
Proof. by intros w. Qed.

Lemma preserves_modify I (f : World → World) :
  (∀ w, I w → I (f w)) → preserves I (modify f).
Proof. intros Hf w. apply Hf. Qed.

Lemma preserves_read_tile I r : preserves I (read_tile r).
Proof. intros w. unfold read_tile. by destruct (tiles w !! r). Qed.

Lemma preserves_read_cache I n : preserves I (read_cache n).
Proof. intros w. unfold read_cache. by destruct (sourceCaches w !! n). Qed.

Lemma preserves_bind {A B} I (m : M A) (k : A → M B) :
  preserves I m → (∀ a, preserves I (k a)) → preserves I (bind m k).
Proof.
  intros Hm Hk w HI. unfold bind. specialize (Hm w HI).
  destruct (m w) as [[a|e] w1]; simpl in *; [|done]. by apply Hk.
Qed.

Lemma preserves_forEach {A} I (f : A → M unit) l :
  (∀ a, preserves I (f a)) → preserves I (forEach f l).
Proof.
  intros Hf. induction l as [|a l IH]; simpl; [apply preserves_ret|].
  apply preserves_bind; [apply Hf | by intros _].
Qed.

Lemma preserves_forEach_indexed {A} I (f : A → nat → M unit) l :
  (∀ a i, preserves I (f a i)) → ∀ i, preserves I (forEach_indexed f i l).
Proof.
  intros Hf. induction l as [|a l IH]; intros i; simpl; [apply preserves_ret|].
  apply preserves_bind; [apply Hf | intros _; apply IH].
Qed.

Lemma preserves_mapM {A B} I (f : A → M B) l :
  (∀ a, preserves I (f a)) → preserves I (mapM f l).
Proof.
  intros Hf. induction l as [|a l IH]; simpl; [apply preserves_ret|].
  apply preserves_bind; [apply Hf | intros b].
  apply preserves_bind; [apply IH | intros bs; apply preserves_ret].
Qed.

Lemma preserves_for_blocks I body hi :
  (∀ xx, preserves I (body xx)) →
  ∀ fuel xx, preserves I (for_blocks fuel xx hi body).
Proof.
  intros Hb. induction fuel as [|fuel IH]; intros xx; simpl;
    [apply preserves_ret|].
  destruct (num_lt xx hi); [|apply preserves_ret].
  apply preserves_bind; [apply Hb | intros [|]; [apply IH | apply preserves_ret]].
Qed.

(** The steps of the renderer, given what the steps on tiles, source
    caches, trace and registry do to an invariant. *)
Section steps.
Context (I : World → Prop).
Context (I_update_tile : ∀ r (f : Tile → Tile),
  (∀ t, tileID (f t) = tileID t) →
  (∀ t, uses t ≤ uses (f t)) →
  preserves I (update_tile r f)).
Context (I_rendering : ∀ (g : BasicSourceCache → BasicSourceCache),
  (∀ c, _tilesInUse (g c) = _tilesInUse c ∧ _tileCache (g c) = _tileCache c) →
  ∀ w, I w → I (set_sourceCaches (fmap g) w)).
Context (I_rendering_one : ∀ n (g : BasicSourceCache → BasicSourceCache),
  (∀ c, _tilesInUse (g c) = _tilesInUse c ∧ _tileCache (g c) = _tileCache c) →
  preserves I (update_cache n g)).
Context (I_emit : ∀ e, preserves I (emit e)).
Context (I_acquireTile : ∀ this id sz, preserves I (acquireTile this id sz)).
Context (I_releaseTile : ∀ this t, preserves I (releaseTile this t)).
Context (I_consumer : ∀ n w, I w → I (set_nextConsumer n w)).
Context (I_renderTiles : ∀ cx d ts nxt, preserves I (renderTiles cx d ts nxt)).
Context (I_delete : ∀ id w, I w → I (set_pendingRenders (Map_delete id) w)).
Context (I_clear : ∀ w, I w → I (set_pendingRenders (λ _, []) w)).
Context (I_detach : ∀ id state rest w,
  Map_get id (_pendingRenders w) = Some state →
  I w → I (set_pendingRenders (Map_set id (set_consumers rest state)) w)).

Ltac steps_by tac :=
  repeat first
    [ tac | apply preserves_ret | apply preserves_throw | apply preserves_gets
    | apply preserves_read_tile | apply preserves_read_cache
    | apply I_emit
    | apply I_acquireTile | apply I_releaseTile
    | apply I_update_tile; [by intros [] | intros []; simpl; lia]
    | apply I_rendering_one; by intros []
    | apply preserves_bind; [|intros ?]
    | apply preserves_forEach; intros ?
    | apply preserves_mapM; intros ?
    | match goal with
      | |- preserves _ (if ?b then _ else _) => destruct b
      | |- preserves _ (match ?x with _ => _ end) => destruct x
      | |- preserves _ (let '(_, _) := ?x in _) => destruct x
      end ].

Lemma steps__finishRender id rid err : preserves I (_finishRender id rid err).
Proof.
  unfold _finishRender, pending. steps_by fail.
  apply preserves_modify, I_delete.
Qed.

Lemma steps_release_tiles l : preserves I (release_tiles l).
Proof. unfold release_tiles. steps_by fail. Qed.

Lemma steps_releaseRender renderRef : preserves I (releaseRender renderRef).
Proof.
  intros w HI. unfold releaseRender. unfold pending, gets, bind at 1.
  pose proof (steps_release_tiles (ref_tiles renderRef) w HI) as HI1.
  pose proof (keeps_release_tiles (ref_tiles renderRef) w) as Hkeep.
  unfold bind at 1.
  destruct (release_tiles (ref_tiles renderRef) w) as [[[]|e] w1];
    simpl in HI1, Hkeep; [|done].
  destruct (Map_get (ref_tileSetID renderRef) (_pendingRenders w))
    as [state|] eqn:Hget; [|done].
  destruct (decide _); [done|]. revert w1 HI1 Hkeep.
  change (∀ w1, I w1 → _pendingRenders w1 = _pendingRenders w → I (?m w1).2)
    with (∀ w1, I w1 → _pendingRenders w1 = _pendingRenders w → I (m w1).2).
  intros w1 HI1 Hkeep.
  unfold bind at 1. pose proof (I_emit (Next (next (ref_consumer renderRef))
    (Some "canceled"%string)) w1 HI1) as HI2.
  simpl in HI2 |- *. unfold modify, bind at 1.
  match goal with |- context [set_pendingRenders ?f ?w2] =>
    assert (HI3 : I (set_pendingRenders f w2))
      by (apply I_detach; [simpl; by rewrite Hkeep | done])
  end.
  destruct (decide _); [by apply steps__finishRender | done].
Qed.

Lemma steps_tiles_settled k bad : preserves I (tiles_settled k bad).
Proof.
  unfold tiles_settled, pending.
  apply preserves_bind; [apply preserves_gets|]. intros [state|];
    [|apply preserves_ret].
  destruct (decide _); [apply preserves_ret|].
  destruct (_ =? 0).
  { steps_by ltac:(apply steps__finishRender). }
  apply preserves_bind.
  { apply preserves_modify. intros w. by apply I_rendering. }
  intros _. apply preserves_bind.
  { apply preserves_forEach_indexed. intros s i. steps_by fail. }
  intros _. apply preserves_bind.
  { unfold composite. apply preserves_for_blocks. intros xx.
    apply preserves_for_blocks. intros yy. unfold render_block.
    steps_by fail. }
  intros [|]; [|apply preserves_ret].
  steps_by fail.
  - apply preserves_modify, I_delete.
  - apply preserves_modify. intros w. by apply I_rendering.
Qed.

Lemma steps_cancelAll : preserves I _cancelAllPendingRenders.
Proof.
  unfold _cancelAllPendingRenders, invalidateAllLoadedTiles.
  steps_by ltac:(apply steps__finishRender).
  - apply preserves_modify, I_clear.
  - apply I_update_tile; [intros t; by destruct (_isDud t)|].
    intros t. destruct (_isDud t); simpl; lia.
  - apply I_update_tile; [intros t; by destruct (_isDud t)|].
    intros t. destruct (_isDud t); simpl; lia.
Qed.

(** An invariant of all steps that holds initially holds in every
    reachable store. *)
Lemma reachable_invariant names :
  I (init_world names) → ∀ w, reachable names w → I w.
Proof.
  intros Hinit. unfold reachable. apply rtc_ind_r; [done|].
  intros w1 w2 _ Hstep HI. destruct Hstep.
  - by apply I_renderTiles.
  - by apply steps_releaseRender.
  - by apply steps_tiles_settled.
  - by apply steps_cancelAll.
  - by apply I_acquireTile.
  - by apply I_releaseTile.
  - revert HI. apply preserves_bind; [apply I_emit|]. intros _.
    apply I_update_tile; [done | intros []; simpl; lia].
  - revert HI. unfold load_callback. destruct err; [|apply preserves_ret].
    apply preserves_bind; [|intros _; apply preserves_ret].
    apply I_update_tile; [done | intros []; simpl; lia].
  - revert HI. apply I_update_tile; [done | intros []; simpl; lia].
Qed.
End steps.

(** The steps that only touch tiles: what [renderTiles] does to an
    invariant that does not depend on the registry. *)
Section tile_steps.
Context (I : World → Prop).
Context (I_update_tile : ∀ r (f : Tile → Tile),
  (∀ t, tileID (f t) = tileID t) →
  (∀ t, uses t ≤ uses (f t)) →
  preserves I (update_tile r f)).
Context (I_acquireTile : ∀ this id sz, preserves I (acquireTile this id sz)).
Context (I_consumer : ∀ n w, I w → I (set_nextConsumer n w)).
Context (I_nextRenderId : ∀ n w, I w → I (set_nextRenderId n w)).
Context (I_pending : ∀ f w, I w → I (set_pendingRenders f w)).

Lemma tile_steps_renderTiles cx d ts nxt : preserves I (renderTiles cx d ts nxt).
Proof.
  unfold renderTiles. destruct (_canonicalizeSpec ts d) as [ts' d'].
  unfold pending, acquire_spec.
  apply preserves_bind; [apply preserves_gets|]. intros cid.
  apply preserves_bind; [apply preserves_modify, I_consumer|]. intros _.
  apply preserves_bind; [apply preserves_gets|]. intros [state|].
  - apply preserves_bind.
    { apply preserves_forEach. intros t.
      apply I_update_tile; [by intros [] | intros []; simpl; lia]. }
    intros _. apply preserves_bind; [apply preserves_modify, I_pending|].
    intros _. apply preserves_ret.
  - apply preserves_bind; [apply preserves_gets|]. intros last.
    apply preserves_bind; [apply preserves_modify, I_nextRenderId|]. intros _.
    apply preserves_bind.
    { apply preserves_mapM. intros s.
      apply preserves_bind; [apply preserves_read_cache|]. intros _.
      apply I_acquireTile. }
    intros acquired.
    apply preserves_bind; [apply preserves_modify, I_pending|].
    intros _. apply preserves_ret.
Qed.
End tile_steps.

(** *** What [releaseTile] leaves behind, in all cases *)

Lemma alter_None `{Countable K} {V} (f : V → V) (m : gmap K V) k :
  m !! k = None → alter f k m = m.
Proof.
  intros Hk. apply map_eq; intros r. destruct (decide (r = k)) as [->|Hne].
  - by rewrite lookup_alter_eq, Hk.
  - by rewrite lookup_alter_ne.
Qed.

Lemma releaseTile_effect this tile w :
  nextTile (releaseTile this tile w).2 = nextTile w
  ∧ _pendingRenders (releaseTile this tile w).2 = _pendingRenders w
  ∧ _nextRenderId (releaseTile this tile w).2 = _nextRenderId w
  ∧ ((tiles (releaseTile this tile w).2 = tiles w
      ∧ sourceCaches (releaseTile this tile w).2 = sourceCaches w)
     ∨ ∃ t,
         tiles w !! tile = Some t ∧ 0 < uses t
         ∧ tiles (releaseTile this tile w).2
           = <[tile := set_uses (λ u, u - 1) t]> (tiles w)
         ∧ (sourceCaches (releaseTile this tile w).2 = sourceCaches w
            ∨ ∃ c k',
                sourceCaches w !! this = Some c
                ∧ sourceCaches (releaseTile this tile w).2
                  = <[this := mkSourceCache
                                (delete (tileID t) (_tilesInUse c)) k'
                                (currentlyRenderingTiles c)]> (sourceCaches w)
                ∧ (k' = _tileCache c
                   ∨ k' = (Cache_add (tileID t) tile (_tileCache c)).1))).
Proof.
  destruct (tiles w !! tile) as [t|] eqn:Ht.
  2:{ unfold releaseTile. unfold_M. rewrite Ht. simpl.
      split; [done|]. split; [done|]. split; [done|]. by left. }
  destruct (decide (uses t ≤ 0)) as [Hle|Hpos].
  { unfold releaseTile. unfold_M. rewrite Ht.
    destruct (0 <? uses t) eqn:Hlt; [apply Z.ltb_lt in Hlt; lia|].
    simpl. split; [done|]. split; [done|]. split; [done|]. by left. }
  assert (Hpos' : 0 < uses t) by lia.
  destruct (decide (1 < uses t)) as [Hmany|Hone].
  { rewrite (releaseTile_still_used _ _ _ _ Ht Hmany). simpl.
    split; [done|]. split; [done|]. split; [done|].
    right. exists t. split; [done|]. split; [done|]. split; [done|]. by left. }
  assert (Hu : uses t = 1) by lia.
  destruct (sourceCaches w !! this) as [c|] eqn:Hc.
  - rewrite (releaseTile_last _ _ _ _ _ Ht Hc Hu).
    destruct (hasData t || _isDud t); simpl;
      (split; [done|]); (split; [done|]); (split; [done|]);
      right; exists t; (split; [done|]); (split; [done|]); (split; [done|]);
      right; eexists c, _; (split; [done|]); (split; [done|]); auto.
  - unfold releaseTile. unfold_M. rewrite Ht, Hu. simpl.
    destruct (hasData t || _isDud t); unfold set_tiles, set_sourceCaches,
      set_trace; simpl; rewrite ?(alter_Some _ _ _ _ Ht), ?(alter_None _ _ _ Hc);
      try rewrite Hc; simpl;
      (split; [done|]); (split; [done|]); (split; [done|]);
      right; exists t; (split; [done|]); (split; [done|]); (split; [done|]);
      by left.
Qed.

(** *** Usage counts *)

Lemma uses_nonneg_frame (f : World → World) :
  (∀ w, tiles (f w) = tiles w) → ∀ w, uses_nonneg w → uses_nonneg (f w).
Proof. intros Hf w HI r t. rewrite Hf. apply HI. Qed.

Lemma uses_nonneg_update_tile r (f : Tile → Tile) :
  (∀ t, uses t ≤ uses (f t)) → preserves uses_nonneg (update_tile r f).
Proof.
  intros Hf w HI r' t'. simpl.
  destruct (decide (r = r')) as [<-|Hne].
  - rewrite lookup_alter_eq. destruct (tiles w !! r) as [t|] eqn:Ht; [|done].
    intros [= <-]. specialize (HI r t Ht). specialize (Hf t). lia.
  - rewrite lookup_alter_ne by done. apply HI.
Qed.

Lemma uses_nonneg_acquireTile this id sz :
  preserves uses_nonneg (acquireTile this id sz).
Proof.
  intros w HI r t. rewrite acquireTile_fresh. simpl.
  destruct (decide (nextTile w = r)) as [<-|Hne].
  - rewrite lookup_insert_eq. by intros [= <-].
  - rewrite lookup_insert_ne by done. apply HI.
Qed.

Lemma uses_nonneg_releaseTile this tile :
  preserves uses_nonneg (releaseTile this tile).
Proof.
  intros w HI r t'.
  destruct (releaseTile_effect this tile w)
    as (_ & _ & _ & [[-> _] | (t & Ht & Hpos & -> & _)]); [apply HI|].
  destruct (decide (tile = r)) as [<-|Hne].
  - rewrite lookup_insert_eq. intros [= <-]. simpl. lia.
  - rewrite lookup_insert_ne by done. apply HI.
Qed.

(** X10: usage counts never become negative.  In every store reachable
    from a fresh renderer by submissions, releases of tokens,
    continuations, cancellations, direct calls of [acquireTile] and
    [releaseTile] and events of the fetch backend, every tile has a usage
    count of at least 0. *)
Theorem reachable_uses_nonneg names w :
  reachable names w → uses_nonneg w.
Proof.
  apply (reachable_invariant uses_nonneg).
  - intros r f _ Hf. by apply uses_nonneg_update_tile.
  - intros g _. by apply uses_nonneg_frame.
  - intros n g _. apply preserves_modify. by apply uses_nonneg_frame.
  - intros e. apply preserves_modify. by apply uses_nonneg_frame.
  - apply uses_nonneg_acquireTile.
  - apply uses_nonneg_releaseTile.
  - apply tile_steps_renderTiles.
    + intros r f _ Hf. by apply uses_nonneg_update_tile.
    + apply uses_nonneg_acquireTile.
    + intros n. by apply uses_nonneg_frame.
    + intros n. by apply uses_nonneg_frame.
    + intros f. by apply uses_nonneg_frame.
  - intros id. by apply uses_nonneg_frame.
  - by apply uses_nonneg_frame.
  - intros id state rest w' _. by apply uses_nonneg_frame.
  - intros r t Hr. simpl in Hr. by rewrite lookup_empty in Hr.
Qed.

(** The theorem on the store in which the example request is pending. *)
Lemma reachable_uses_nonneg_witness :
  reachable ["a"%string] submitted_example
  ∧ uses_nonneg submitted_example.
Proof.
  assert (Hr : reachable ["a"%string] submitted_example).
  { apply rtc_once. apply step_renderTiles. }
  split; [exact Hr|].
  exact (reachable_uses_nonneg ["a"%string] submitted_example Hr).
Defined.

(** *** Ownership of tiles *)

(** Steps that keep the coordinates of tiles, do not add entries to an
    in-use map, and add to an LRU cache only a tile whose coordinate is
    not in the in-use map next to it. *)
Lemma owned_once_shrink w w' :
  owned_once w →
  (∀ r, is_Some (tiles w' !! r) → (r < nextTile w')%nat) →
  (∀ r t, tiles w !! r = Some t →
          ∃ t', tiles w' !! r = Some t' ∧ tileID t' = tileID t) →
  (∀ n c', sourceCaches w' !! n = Some c' →
     ∃ c, sourceCaches w !! n = Some c
          ∧ (∀ k r, _tilesInUse c' !! k = Some r → _tilesInUse c !! k = Some r)
          ∧ (∀ r, r ∈ Cache_tiles (_tileCache c') →
                  r ∈ Cache_tiles (_tileCache c)
                  ∨ ∃ t', tiles w' !! r = Some t'
                          ∧ _tilesInUse c' !! tileID t' = None)) →
  owned_once w'.
Proof.
  intros [Hfresh Hown] Hfresh' Hids Hcaches. split; [done|].
  intros n c' Hc'. destruct (Hcaches n c' Hc') as (c & Hc & Huse & Hcache).
  destruct (Hown n c Hc) as [Hin Hout]. split.
  - intros k r Hk. destruct (Hin k r (Huse k r Hk)) as (t & Ht & Hid).
    destruct (Hids r t Ht) as (t' & Ht' & Hid'). exists t'. split; congruence.
  - intros r Hr. destruct (Hcache r Hr) as [Hold | (t' & Ht' & Hnone)].
    + destruct (Hout r Hold) as (t & Ht & Hne).
      destruct (Hids r t Ht) as (t' & Ht' & Hid'). exists t'. split; [done|].
      rewrite Hid'. intros Hk. by apply Hne, Huse.
    + exists t'. split; [done|]. by rewrite Hnone.
Qed.

Lemma owned_once_frame (f : World → World) :
  (∀ w, tiles (f w) = tiles w ∧ nextTile (f w) = nextTile w
        ∧ sourceCaches (f w) = sourceCaches w) →
  ∀ w, owned_once w → owned_once (f w).
Proof.
  intros Hf w HI. destruct (Hf w) as (Ht & Hn & Hc).
  apply (owned_once_shrink w); [done | | |].
  - rewrite Ht, Hn. apply HI.
  - intros r t Hr. exists t. by rewrite Ht.
  - intros n c'. rewrite Hc. intros Hc'. exists c'. auto.
Qed.

Lemma owned_once_update_tile r (f : Tile → Tile) :
  (∀ t, tileID (f t) = tileID t) → preserves owned_once (update_tile r f).
Proof.
  intros Hf w HI. apply (owned_once_shrink w); [done | | |]; simpl.
  - intros r'. destruct (decide (r = r')) as [<-|Hne].
    + rewrite lookup_alter_eq, fmap_is_Some. apply HI.
    + rewrite lookup_alter_ne by done. apply HI.
  - intros r' t Hr'. destruct (decide (r = r')) as [<-|Hne].
    + rewrite lookup_alter_eq, Hr'. simpl. by eexists.
    + rewrite lookup_alter_ne by done. by exists t.
  - intros n c' Hc'. exists c'. auto.
Qed.

Lemma owned_once_rendering (g : BasicSourceCache → BasicSourceCache) :
  (∀ c, _tilesInUse (g c) = _tilesInUse c ∧ _tileCache (g c) = _tileCache c) →
  ∀ w, owned_once w → owned_once (set_sourceCaches (fmap g) w).
Proof.
  intros Hg w HI. apply (owned_once_shrink w); [done | apply HI | |]; simpl.
  - intros r t Hr. by exists t.
  - intros n c'. rewrite lookup_fmap.
    destruct (sourceCaches w !! n) as [c|]; [|done]. intros [= <-].
    exists c. destruct (Hg c) as [-> ->]. auto.
Qed.

Lemma owned_once_rendering_one n (g : BasicSourceCache → BasicSourceCache) :
  (∀ c, _tilesInUse (g c) = _tilesInUse c ∧ _tileCache (g c) = _tileCache c) →
  preserves owned_once (update_cache n g).
Proof.
  intros Hg w HI. apply (owned_once_shrink w); [done | apply HI | |]; simpl.
  - intros r t Hr. by exists t.
  - intros n' c'. destruct (decide (n = n')) as [<-|Hne].
    + rewrite lookup_alter_eq.
      destruct (sourceCaches w !! n) as [c|]; [|done]. intros [= <-].
      exists c. destruct (Hg c) as [-> ->]. auto.
    + rewrite lookup_alter_ne by done. intros Hc'. exists c'. auto.
Qed.

Lemma owned_once_acquireTile this id sz :
  preserves owned_once (acquireTile this id sz).
Proof.
  intros w [Hfresh Hown]. rewrite acquireTile_fresh. simpl.
  assert (Hold : ∀ r t, tiles w !! r = Some t →
            <[nextTile w := mkTile id sz 1 (Some this) true false false
                              None None None]> (tiles w) !! r = Some t).
  { intros r t Hr. rewrite lookup_insert_ne; [done|].
    intros <-. specialize (Hfresh (nextTile w)). rewrite Hr in Hfresh.
    specialize (Hfresh ltac:(by eexists)). lia. }
  split; simpl.
  - intros r. destruct (decide (nextTile w = r)) as [<-|Hne]; [lia|].
    rewrite lookup_insert_ne by done. intros Hr. specialize (Hfresh r Hr). lia.
  - intros n c'. destruct (decide (this = n)) as [<-|Hne].
    + rewrite lookup_alter_eq.
      destruct (sourceCaches w !! this) as [c|] eqn:Hc; [|done]. intros [= <-].
      destruct (Hown this c Hc) as [Hin Hout]. simpl. split.
      * intros k r. destruct (decide (id = k)) as [<-|Hk].
        -- rewrite lookup_insert_eq. intros [= <-]. rewrite lookup_insert_eq.
           by eexists.
        -- rewrite lookup_insert_ne by done. intros Hr.
           destruct (Hin k r Hr) as (t & Ht & Hid). exists t. auto.
      * intros r Hr. destruct (Hout r Hr) as (t & Ht & Hne).
        exists t. split; [auto|].
        destruct (decide (id = tileID t)) as [<-|Hk].
        -- rewrite lookup_insert_eq. intros [= <-].
           specialize (Hfresh (nextTile w)). rewrite Ht in Hfresh.
           specialize (Hfresh ltac:(by eexists)). lia.
        -- by rewrite lookup_insert_ne.
    + rewrite lookup_alter_ne by done. intros Hc'.
      destruct (Hown n c' Hc') as [Hin Hout]. split.
      * intros k r Hr. destruct (Hin k r Hr) as (t & Ht & Hid). exists t. auto.
      * intros r Hr. destruct (Hout r Hr) as (t & Ht & Hne'). exists t. auto.
Qed.

Lemma Cache_add_tiles id t c r :
  r ∈ Cache_tiles (Cache_add id t c).1 → r ∈ Cache_tiles c ∨ r = t.
Proof.
  unfold Cache_add, Cache_tiles.
  destruct (cache_max c <? length (order c ++ [(id, t)]))%nat; simpl.
  - destruct (order c) as [|[k old] rest]; simpl.
    + intros Hr. apply elem_of_nil in Hr. done.
    + rewrite fmap_app. simpl. intros Hr. apply elem_of_app in Hr as [Hr|Hr].
      * left. by right.
      * right. apply list_elem_of_singleton in Hr. done.
  - rewrite fmap_app. simpl. intros Hr. apply elem_of_app in Hr as [Hr|Hr].
    + by left.
    + right. by apply list_elem_of_singleton in Hr.
Qed.

Lemma owned_once_releaseTile this tile :
  preserves owned_once (releaseTile this tile).
Proof.
  intros w HI.
  destruct (releaseTile_effect this tile w) as (Hn & _ & _ & Heff).
  apply (owned_once_shrink w); [done | | |].
  - rewrite Hn. destruct Heff as [[-> _] | (t & Ht & _ & -> & _)]; [apply HI|].
    intros r. destruct (decide (tile = r)) as [<-|Hne].
    + intros _. apply HI. by eexists.
    + rewrite lookup_insert_ne by done. apply HI.
  - destruct Heff as [[-> _] | (t & Ht & _ & -> & _)]; [by eauto|].
    intros r t0 Hr. destruct (decide (tile = r)) as [<-|Hne].
    + rewrite lookup_insert_eq. eexists. split; [done|]. simpl. congruence.
    + rewrite lookup_insert_ne by done. by exists t0.
  - destruct Heff as [[_ ->] | (t & Ht & _ & Htiles & [-> | Hc])];
      [by eauto | by eauto |].
    destruct Hc as (c & k' & Hc & -> & Hk'). rewrite Htiles.
    intros n c'. destruct (decide (this = n)) as [<-|Hne].
    + rewrite lookup_insert_eq. intros [= <-]. exists c. split; [done|]. simpl.
      split.
      * intros k r Hk. by apply lookup_delete_Some in Hk as [_ Hk].
      * intros r Hr. destruct Hk' as [-> | ->]; [by left|].
        apply Cache_add_tiles in Hr as [Hr | ->]; [by left|]. right.
        rewrite lookup_insert_eq. eexists. split; [done|]. simpl.
        apply lookup_delete_eq.
    + rewrite lookup_insert_ne by done. intros Hc'. exists c'. auto.
Qed.

(** X11: the ownership discipline stated at the head of the class.  In
    every reachable store and for every source cache, no tile is both in
    the in-use map and in the LRU cache of that source cache, and every
    tile in the in-use map is held under its own coordinate. *)
Theorem reachable_tile_in_at_most_one_place names w n c :
  reachable names w →
  sourceCaches w !! n = Some c →
  (∀ r, r ∈ tiles_in_use n w → r ∉ cached_tiles n w)
  ∧ (∀ k r, _tilesInUse c !! k = Some r →
            ∃ t, tiles w !! r = Some t ∧ tileID t = k).
Proof.
  intros Hreach Hc.
  assert (HI : owned_once w).
  { clear Hc. revert w Hreach. apply (reachable_invariant owned_once).
    - intros r f Hf _. by apply owned_once_update_tile.
    - apply owned_once_rendering.
    - apply owned_once_rendering_one.
    - intros e. apply preserves_modify. by apply owned_once_frame.
    - apply owned_once_acquireTile.
    - apply owned_once_releaseTile.
    - apply tile_steps_renderTiles.
      + intros r f Hf _. by apply owned_once_update_tile.
      + apply owned_once_acquireTile.
      + intros n0. by apply owned_once_frame.
      + intros n0. by apply owned_once_frame.
      + intros f. by apply owned_once_frame.
    - intros id. by apply owned_once_frame.
    - by apply owned_once_frame.
    - intros id state rest w' _. by apply owned_once_frame.
    - split; simpl.
      + intros r [t Hr]. by rewrite lookup_empty in Hr.
      + intros n0 c0 Hc0. apply elem_of_list_to_map_2 in Hc0.
        apply list_elem_of_fmap in Hc0 as (x & [= _ ->] & _). simpl. split.
        * intros k r Hk. by rewrite lookup_empty in Hk.
        * intros r Hr. by apply elem_of_nil in Hr. }
  destruct HI as [_ Hown]. destruct (Hown n c Hc) as [Hin Hout].
  split; [|exact Hin].
  unfold tiles_in_use, cached_tiles. rewrite Hc. intros r Hr Hcached.
  apply list_elem_of_fmap in Hr as ([k r'] & -> & Hkr).
  apply elem_of_map_to_list in Hkr. simpl in *.
  destruct (Hin k r' Hkr) as (t & Ht & Hid).
  destruct (Hout r' Hcached) as (t' & Ht' & Hne).
  rewrite Ht in Ht'. injection Ht' as <-. by rewrite Hid in Hne.
Qed.

(** The theorem on the store in which the example request is pending. *)
Lemma reachable_tile_places_witness :
  let c := mkSourceCache
             (list_to_map [((1, 0, 0), 0%nat); ((1, 1, 0), 1%nat)])
             (new_Cache TILE_CACHE_SIZE) [] in
  (reachable ["a"%string] submitted_example
   ∧ sourceCaches submitted_example !! "a"%string = Some c)
  ∧ (∀ r, r ∈ tiles_in_use "a" submitted_example
          → r ∉ cached_tiles "a" submitted_example).
Proof.
  intros c.
  assert (Hr : reachable ["a"%string] submitted_example).
  { apply rtc_once. apply step_renderTiles. }
  assert (Hc : sourceCaches submitted_example !! "a"%string = Some c)
    by (vm_compute; reflexivity).
  split; [exact (conj Hr Hc)|].
  exact (proj1 (reachable_tile_in_at_most_one_place ["a"%string]
                  submitted_example "a"%string c Hr Hc)).
Defined.

(** *** The registry of pending renders *)

Lemma Map_get_elem {V} k (v : V) m : Map_get k m = Some v → (k, v) ∈ m.
Proof.
  induction m as [|[k' v'] m IH]; simpl; [done|].
  destruct (decide (k' = k)) as [->|Hne].
  - intros [= ->]. by left.
  - intros Hget. right. by apply IH.
Qed.

Lemma Map_get_first {V} k (v : V) m :
  NoDup m.*1 → (k, v) ∈ m → Map_get k m = Some v.
Proof.
  induction m as [|[k' v'] m IH]; simpl; intros Hnd Hin.
  - by apply elem_of_nil in Hin.
  - apply NoDup_cons in Hnd as [Hk' Hnd].
    apply elem_of_cons in Hin as [[= <- <-]|Hin].
    + by rewrite decide_True.
    + rewrite decide_False; [by apply IH|]. intros ->. apply Hk'.
      apply list_elem_of_fmap. by exists (k, v).
Qed.

Lemma Map_get_None_keys {V} k (m : list (string * V)) :
  Map_get k m = None → k ∉ m.*1.
Proof.
  induction m as [|[k' v'] m IH]; simpl; [intros _; by apply not_elem_of_nil|].
  destruct (decide (k' = k)) as [->|Hne]; [done|].
  intros Hget. apply not_elem_of_cons. split; [done | by apply IH].
Qed.

Lemma Map_set_None {V} k (v : V) m :
  Map_get k m = None → Map_set k v m = m ++ [(k, v)].
Proof.
  induction m as [|[k' v'] m IH]; simpl; [done|].
  destruct (decide (k' = k)) as [->|Hne]; [done|].
  intros Hget. by rewrite IH.
Qed.

Lemma Map_set_Some_keys {V} k (v v0 : V) m :
  Map_get k m = Some v0 → (Map_set k v m).*1 = m.*1.
Proof.
  induction m as [|[k' v'] m IH]; [done|]. cbn [Map_set Map_get].
  destruct (decide (k' = k)) as [->|Hne]; [done|].
  intros Hget. by rewrite !fmap_cons, IH.
Qed.

Lemma Map_set_Some_values {V X} (g : V → X) k (v v0 : V) m :
  Map_get k m = Some v0 → g v = g v0 →
  g <$> (Map_set k v m).*2 = g <$> m.*2.
Proof.
  intros Hget Hg. induction m as [|[k' v'] m IH]; [done|].
  cbn [Map_set Map_get] in *.
  destruct (decide (k' = k)) as [->|Hne].
  - injection Hget as ->. rewrite !fmap_cons. simpl. by rewrite Hg.
  - by rewrite !fmap_cons, IH.
Qed.

Lemma elem_of_Map_set {V} k (v : V) m k' v' :
  (k', v') ∈ Map_set k v m → (k' = k ∧ v' = v) ∨ (k', v') ∈ m.
Proof.
  induction m as [|[k1 v1] m IH]; simpl.
  - intros Hin. apply list_elem_of_singleton in Hin as [= -> ->]. by left.
  - destruct (decide (k1 = k)) as [->|Hne].
    + intros Hin. apply elem_of_cons in Hin as [[= -> ->]|Hin]; [by left|].
      right. by right.
    + intros Hin. apply elem_of_cons in Hin as [[= -> ->]|Hin].
      * right. by left.
      * destruct (IH Hin) as [?|?]; [by left|]. right. by right.
Qed.

Lemma Map_delete_sublist {V} k (m : list (string * V)) :
  Map_delete k m `sublist_of` m.
Proof.
  induction m as [|[k' v'] m IH]; simpl; [done|].
  destruct (decide (k' = k)); [by apply sublist_cons | by apply sublist_skip].
Qed.

Lemma Map_delete_notin {V} k (m : list (string * V)) :
  k ∉ m.*1 → Map_delete k m = m.
Proof.
  induction m as [|[k' v'] m IH]; simpl; [done|].
  intros Hk. apply not_elem_of_cons in Hk as [Hne Hk].
  rewrite decide_False by done. by rewrite IH.
Qed.

Lemma registry_ok_frame (f : World → World) :
  (∀ w, _pendingRenders (f w) = _pendingRenders w
        ∧ _nextRenderId (f w) = _nextRenderId w) →
  ∀ w, registry_ok w → registry_ok (f w).
Proof.
  intros Hf w HI. destruct (Hf w) as [Hp Hn]. unfold registry_ok.
  by rewrite Hp, Hn.
Qed.

Lemma registry_ok_same w w' :
  _pendingRenders w' = _pendingRenders w →
  _nextRenderId w' = _nextRenderId w →
  registry_ok w → registry_ok w'.
Proof. intros Hp Hn. unfold registry_ok. by rewrite Hp, Hn. Qed.

Lemma registry_ok_delete id w :
  registry_ok w → registry_ok (set_pendingRenders (Map_delete id) w).
Proof.
  intros (Hk & Hr & Hall). pose proof (Map_delete_sublist id (_pendingRenders w))
    as Hsub.
  split; [|split]; simpl.
  - eapply sublist_NoDup; [exact Hk|]. by apply fmap_sublist.
  - eapply sublist_NoDup; [exact Hr|]. by do 2 apply fmap_sublist.
  - intros k state Hin. apply Hall. by eapply elem_of_sublist.
Qed.

Lemma registry_ok_detach id state rest w :
  Map_get id (_pendingRenders w) = Some state →
  registry_ok w →
  registry_ok (set_pendingRenders (Map_set id (set_consumers rest state)) w).
Proof.
  intros Hget (Hk & Hr & Hall). split; [|split]; simpl.
  - by rewrite (Map_set_Some_keys _ _ _ _ Hget).
  - by rewrite (Map_set_Some_values renderId _ _ _ _ Hget).
  - intros k s Hin. apply elem_of_Map_set in Hin as [[-> ->]|Hin]; [|by apply Hall].
    simpl. apply Hall. by apply Map_get_elem.
Qed.

Lemma mapM_acquire_nextRenderId ts : ∀ w,
  _nextRenderId (mapM acquire_spec ts w).2 = _nextRenderId w.
Proof.
  induction ts as [|s ts IH]; intros w; [done|].
  rewrite mapM_cons, acquire_spec_unfold.
  destruct (sourceCaches w !! source s); [|done].
  rewrite acquireTile_fresh.
  match goal with |- context [mapM _ ts ?x] =>
    specialize (IH x); destruct (mapM acquire_spec ts x) as [[l|e] w2] end;
    simpl in *; by rewrite IH.
Qed.

Lemma registry_ok_renderTiles cx d ts nxt :
  preserves registry_ok (renderTiles cx d ts nxt).
Proof.
  intros w HI. unfold renderTiles.
  destruct (_canonicalizeSpec ts d) as [ts' d'].
  set (id := _tileSpecToString ts').
  unfold gets, modify, bind at 1. unfold bind at 1. unfold pending, gets, bind at 1.
  cbn [_pendingRenders set_nextConsumer].
  destruct (Map_get id (_pendingRenders w)) as [state|] eqn:Hget.
  - destruct (forEach_update_tile (set_uses (λ u, u + 1)) (rs_tiles state)
                (set_nextConsumer (S (nextConsumer w)) w)) as (m & Hrun & _).
    unfold bind at 1. rewrite Hrun. cbn.
    by apply (registry_ok_detach id state _ w).
  - unfold gets, bind at 1. unfold modify, bind at 1. unfold bind at 1.
    match goal with |- context [mapM _ ts' ?x] =>
      pose proof (keeps_mapM acquire_spec ts' keeps_acquire_spec x) as Hkeep;
      pose proof (mapM_acquire_nextRenderId ts' x) as Hnext;
      destruct (mapM acquire_spec ts' x) as [[l|e] w2] eqn:Hacq end;
      cbn in Hkeep, Hnext |- *.
    + destruct HI as (Hk & Hr & Hall).
      split; [|split]; cbn; rewrite ?Hkeep, ?Hnext, (Map_set_None _ _ _ Hget).
      * rewrite fmap_app. apply NoDup_app. split; [done|]. split.
        -- intros k Hin Hk'. apply list_elem_of_singleton in Hk' as ->.
           by apply Map_get_None_keys in Hget.
        -- apply NoDup_singleton.
      * rewrite !fmap_app. apply NoDup_app. split; [done|]. split.
        -- intros r Hin Hr'. apply list_elem_of_singleton in Hr'. simpl in Hr'.
           apply list_elem_of_fmap in Hin as (s & -> & Hs).
           apply list_elem_of_fmap in Hs as ([k s'] & -> & Hs).
           destruct (Hall k s' Hs) as [_ Hle]. simpl in Hr'. lia.
        -- apply NoDup_singleton.
      * intros k s Hin. apply elem_of_app in Hin as [Hin|Hin].
        -- destruct (Hall k s Hin) as [Hid Hle]. split; [done | lia].
        -- apply list_elem_of_singleton in Hin as [= -> ->]. simpl.
           split; [done | lia].
    + destruct HI as (Hk & Hr & Hall).
      split; [|split]; cbn; rewrite ?Hkeep, ?Hnext; try done.
      intros k s Hin. destruct (Hall k s Hin) as [Hid Hle]. split; [done | lia].
Qed.

(** X12: the registry stays well formed.  In every reachable store the
    pending renders have pairwise distinct fingerprints and pairwise
    distinct render ids, no render id exceeds the last one handed out,
    and the state found under a fingerprint carries that fingerprint. *)
Theorem reachable_registry_ok names w :
  reachable names w →
  registry_ok w ∧ ∀ id, keyed_at id w.
Proof.
  intros Hreach.
  assert (HI : registry_ok w).
  { revert w Hreach. apply (reachable_invariant registry_ok).
    - intros r f _ _. apply preserves_modify. by apply registry_ok_frame.
    - intros g _. by apply registry_ok_frame.
    - intros n g _. apply preserves_modify. by apply registry_ok_frame.
    - intros e. apply preserves_modify. by apply registry_ok_frame.
    - intros this id sz w HI. rewrite acquireTile_fresh.
      by apply (registry_ok_same w).
    - intros this t w HI.
      destruct (releaseTile_effect this t w) as (_ & Hp & Hn & _).
      by apply (registry_ok_same w).
    - apply registry_ok_renderTiles.
    - apply registry_ok_delete.
    - intros w' _. split; [|split]; simpl; [constructor | constructor |].
      intros k s Hin. by apply elem_of_nil in Hin.
    - apply registry_ok_detach.
    - split; [|split]; simpl; [constructor | constructor |].
      intros k s Hin. by apply elem_of_nil in Hin. }
  split; [exact HI|]. intros id state Hget.
  destruct HI as (_ & _ & Hall). by apply (Hall id state), Map_get_elem.
Qed.

(** The theorem on the store in which the example request is pending. *)
Lemma reachable_registry_witness :
  reachable ["a"%string] submitted_example
  ∧ registry_ok submitted_example
  ∧ ∀ id, keyed_at id submitted_example.
Proof.
  assert (Hr : reachable ["a"%string] submitted_example).
  { apply rtc_once. apply step_renderTiles. }
  split; [exact Hr|].
  exact (reachable_registry_ok ["a"%string] submitted_example Hr).
Defined.

(** ** Cancelling all pending renders *)

Lemma finish_all_registered err : ∀ l w,
  _pendingRenders w = l →
  NoDup l.*1 →
  (∀ k state, (k, state) ∈ l → tileSetID state = k) →
  forEach (λ s : string * RenderState,
             _finishRender (tileSetID s.2) (renderId s.2) err) l w
  = (Ok tt,
     mkWorld (tiles w) (nextTile w) (sourceCaches w) []
             (_nextRenderId w) (nextConsumer w)
             (trace w ++ settle_all err l)).
Proof.
  induction l as [|[k s] l IH]; intros w Hp Hnd Hkeyed.
  - simpl. unfold ret, settle_all. simpl. rewrite app_nil_r.
    destruct w; simpl in *; by subst.
  - rewrite fmap_cons in Hnd. apply NoDup_cons in Hnd as [Hk Hnd].
    assert (Hks : tileSetID s = k) by (apply Hkeyed; by left).
    cbn [forEach snd].
    erewrite bind_ok; cycle 1.
    { apply (_finishRender_current _ _ _ _ s); [|done].
      rewrite Hp, Hks. simpl. by rewrite decide_True. }
    rewrite IH.
    + simpl. unfold settle_all. rewrite !fmap_cons, bind_cons, fmap_app.
      by rewrite <- app_assoc.
    + simpl. rewrite Hp, Hks. simpl. rewrite decide_True by done.
      by apply Map_delete_notin.
    + done.
    + intros k' s' Hin. apply Hkeyed. by right.
Qed.

(** X13: cancelling all pending renders.  When the registry is well
    formed, [_cancelAllPendingRenders] tells every consumer of every
    pending render "canceled", exactly once, render by render in the
    order of registration and consumer by consumer in the order of
    attachment, and makes no other external call; afterwards the registry
    is empty, and usage counts and source caches are what they were. *)
Theorem cancelAll_settles_every_consumer w :
  NoDup (_pendingRenders w).*1 →
  (∀ k state, (k, state) ∈ _pendingRenders w → tileSetID state = k) →
  ∃ w',
    _cancelAllPendingRenders w = (Ok tt, w')
    ∧ trace w' = trace w ++ settle_all (Some "canceled"%string) (_pendingRenders w)
    ∧ _pendingRenders w' = []
    ∧ sourceCaches w' = sourceCaches w
    ∧ ∀ r, uses_of w' r = uses_of w r.
Proof.
  intros Hnd Hkeyed. unfold _cancelAllPendingRenders.
  unfold gets, bind at 1.
  rewrite (bind_ok _ _ _ _ _
             (finish_all_registered _ _ w eq_refl Hnd Hkeyed)).
  unfold modify, bind at 1. unfold gets, bind at 1.
  match goal with |- context [forEach _ _ ?x] => set (w1 := x) end.
  set (P := λ w0, _pendingRenders w0 = [] ∧ trace w0 = trace w1
                  ∧ sourceCaches w0 = sourceCaches w1
                  ∧ ∀ r, uses_of w0 r = uses_of w1 r).
  assert (Hclear : ∀ r w0, P w0 →
    ∃ w', update_tile r (λ t, if _isDud t then t else set_loadedPromise false t) w0
          = (Ok tt, w') ∧ P w').
  { intros r w0 (Hp & Htr & Hsc & Hu). eexists. split; [reflexivity|].
    split; [done|]. split; [done|]. split; [done|].
    intros r'. rewrite <- Hu. unfold uses_of. simpl.
    destruct (decide (r = r')) as [<-|Hne].
    - rewrite lookup_alter_eq. destruct (tiles w0 !! r) as [t|]; [|done].
      simpl. by destruct (_isDud t).
    - by rewrite lookup_alter_ne. }
  destruct (forEach_inv P
              (λ c : string * BasicSourceCache, invalidateAllLoadedTiles c.2)
              (map_to_list (sourceCaches w1))) with (w := w1)
    as (w3 & Hrun & Hp & Htr & Hsc & Hu).
  { intros c w0 HP. unfold invalidateAllLoadedTiles.
    destruct (forEach_inv P _ (map_to_list (_tilesInUse c.2)).*2
                (λ r w', Hclear r w') w0 HP) as (wa & Hra & HPa).
    destruct (forEach_inv P _ (Cache_tiles (_tileCache c.2))
                (λ r w', Hclear r w') wa HPa) as (wb & Hrb & HPb).
    exists wb. by rewrite (bind_ok _ _ _ _ _ Hra). }
  { by repeat split. }
  exists w3. split; [exact Hrun|]. subst w1. simpl in *.
  rewrite Htr. repeat split; try done.
Qed.

(** The theorem on the store in which the example request is pending. *)
Lemma cancelAll_witness :
  let w := submitted_example in
  (NoDup (_pendingRenders w).*1
   ∧ (∀ k state, (k, state) ∈ _pendingRenders w → tileSetID state = k))
  ∧ ∃ w',
      _cancelAllPendingRenders w = (Ok tt, w')
      ∧ trace w' = trace w ++ [Next 9 (Some "canceled"%string)]
      ∧ _pendingRenders w' = [].
Proof.
  intros w.
  assert (Hnd : NoDup (_pendingRenders w).*1).
  { vm_compute. apply NoDup_singleton. }
  assert (Hk : ∀ k state, (k, state) ∈ _pendingRenders w → tileSetID state = k).
  { intros k state Hin. vm_compute in Hin.
    apply list_elem_of_singleton in Hin. by injection Hin as -> ->. }
  split; [exact (conj Hnd Hk)|].
  destruct (cancelAll_settles_every_consumer w Hnd Hk)
    as (w' & Hrun & Htr & Hp & _).
  exists w'. split; [exact Hrun|]. split; [exact Htr | exact Hp].
Defined.

(** ** Invalidation of loaded tiles *)

Lemma forEach_update_tile_idem f l :
  (∀ t, f (f t) = f t) →
  ∀ w, ∃ m,
    forEach (λ t, update_tile t f) l w = (Ok tt, set_tiles (λ _, m) w)
    ∧ ∀ r, m !! r = if decide (r ∈ l) then f <$> tiles w !! r
                    else tiles w !! r.
Proof.
  intros Hf. induction l as [|t l IH]; intros w.
  - exists (tiles w). split; [by destruct w|]. intros r.
    rewrite decide_False; [done|]. apply not_elem_of_nil.
  - destruct (IH (set_tiles (alter f t) w)) as (m & Hrun & Hm).
    exists m. split.
    + cbn [forEach]. erewrite bind_ok; [|reflexivity]. by rewrite Hrun.
    + intros r. rewrite Hm. simpl.
      destruct (decide (r = t)) as [->|Hne].
      * rewrite lookup_alter_eq.
        rewrite (decide_True (P := t ∈ t :: l)) by by left.
        destruct (decide (t ∈ l)); [|done].
        destruct (tiles w !! t); simpl; [|done]. by rewrite Hf.
      * rewrite lookup_alter_ne by done.
        destruct (decide (r ∈ l)) as [Hin|Hout].
        -- rewrite decide_True; [done|]. by right.
        -- rewrite decide_False; [done|].
           intros [?|?]%elem_of_cons; done.
Qed.

(** X14: what [invalidateAllLoadedTiles] does.  The call returns, makes
    no external call and changes nothing but load handles: a tile is
    either left as it is, or it is no dud and only its handle is dropped.
    Every tile of the in-use map that is no dud has no handle
    afterwards, and every dud keeps its own. *)
Theorem invalidateAllLoadedTiles_effect c w :
  ∃ m,
    invalidateAllLoadedTiles c w = (Ok tt, set_tiles (λ _, m) w)
    ∧ (∀ r, m !! r = tiles w !! r
            ∨ ∃ t, tiles w !! r = Some t ∧ _isDud t = false
                   ∧ m !! r = Some (set_loadedPromise false t))
    ∧ (∀ k r t, _tilesInUse c !! k = Some r → tiles w !! r = Some t →
         m !! r = Some (if _isDud t then t else set_loadedPromise false t)).
Proof.
  unfold invalidateAllLoadedTiles.
  set (clear := λ t : Tile, if _isDud t then t else set_loadedPromise false t).
  assert (Hidem : ∀ t, clear (clear t) = clear t).
  { intros t. unfold clear. destruct (_isDud t) eqn:Hd; [by rewrite Hd|].
    simpl. by rewrite Hd. }
  destruct (forEach_update_tile_idem clear (map_to_list (_tilesInUse c)).*2
              Hidem w) as (m1 & Hrun1 & Hm1).
  destruct (forEach_update_tile_idem clear (Cache_tiles (_tileCache c))
              Hidem (set_tiles (λ _, m1) w)) as (m2 & Hrun2 & Hm2).
  exists m2. split; [|split].
  - rewrite (bind_ok _ _ _ _ _ Hrun1). rewrite Hrun2. by destruct w.
  - intros r. rewrite Hm2. simpl. rewrite !Hm1.
    destruct (tiles w !! r) as [t|] eqn:Ht; simpl.
    2:{ left. by repeat case_decide. }
    destruct (_isDud t) eqn:Hd.
    + left. repeat case_decide; simpl; unfold clear; by rewrite ?Hd.
    + assert (Hc : clear t = set_loadedPromise false t)
        by (unfold clear; by rewrite Hd).
      repeat case_decide; simpl; rewrite ?Hidem, ?Hc;
        first [by left | right; by exists t].
  - intros k r t Hk Ht. rewrite Hm2. simpl. rewrite Hm1, Ht.
    assert (Hin : r ∈ (map_to_list (_tilesInUse c)).*2).
    { apply list_elem_of_fmap. exists (k, r). split; [done|].
      by apply elem_of_map_to_list. }
    rewrite (decide_True (P := r ∈ (map_to_list (_tilesInUse c)).*2)) by done.
    case_decide; simpl; by rewrite ?Hidem.
Qed.

(** ** Acquiring and releasing *)

(** X15: a tile released right after it was acquired.  For a known source
    cache [acquireTile] returns a new tile and, while it is held,
    [loaded()] answers false whatever the source says.  Releasing it at
    once returns, aborts and unloads the load that was just requested,
    leaves the tile with usage count 0 and out of the LRU cache, and
    empties the slot of its coordinate in the in-use map: a tile that
    was tracked under that coordinate before is no longer found. *)
Theorem acquire_then_release this id sz w c :
  sourceCaches w !! this = Some c →
  ∃ w1 w2,
    acquireTile this id sz w = (Ok (nextTile w), w1)
    ∧ (∀ source_loaded, loaded this source_loaded w1 = false)
    ∧ releaseTile this (nextTile w) w1 = (Ok tt, w2)
    ∧ trace w2 = trace w ++ [LoadTile this (nextTile w);
                             AbortTile this (nextTile w);
                             UnloadTile this (nextTile w)]
    ∧ sourceCaches w2
      = <[this := mkSourceCache (delete id (_tilesInUse c)) (_tileCache c)
                                (currentlyRenderingTiles c)]> (sourceCaches w)
    ∧ uses <$> tiles w2 !! nextTile w = Some 0
    ∧ getTile this id w2 = None.
Proof.
  intros Hc. eexists _, _. split; [apply acquireTile_fresh|].
  split.
  { intros b. unfold loaded. simpl. rewrite (alter_Some _ _ _ _ Hc).
    rewrite lookup_insert_eq. simpl. destruct b; simpl; [|done].
    assert (Hs : size (<[id := nextTile w]> (_tilesInUse c)) ≠ 0%nat).
    { intros H0. apply map_size_empty_iff in H0.
      by apply insert_non_empty in H0. }
    by destruct (size (<[id := nextTile w]> (_tilesInUse c))). }
  split.
  { erewrite releaseTile_last; [reflexivity| | |].
    - simpl. apply lookup_insert_eq.
    - simpl. rewrite (alter_Some _ _ _ _ Hc). apply lookup_insert_eq.
    - done. }
  simpl. split; [by rewrite <- app_assoc|]. split.
  { rewrite (alter_Some _ _ _ _ Hc). rewrite insert_insert_eq.
    by rewrite delete_insert_eq. }
  split; [by rewrite lookup_insert_eq|].
  unfold getTile. simpl. rewrite lookup_insert_eq. simpl.
  apply lookup_delete_eq.
Qed.

(** The theorem on a fresh renderer over the source "a". *)
Lemma acquire_then_release_witness :
  let w := init_world ["a"%string] in
  sourceCaches w !! "a"%string = Some new_BasicSourceCache
  ∧ ∃ w1 w2,
      acquireTile "a" (1, 0, 0) 512 w = (Ok 0%nat, w1)
      ∧ releaseTile "a" 0%nat w1 = (Ok tt, w2)
      ∧ trace w2 = [LoadTile "a" 0; AbortTile "a" 0; UnloadTile "a" 0].
Proof.
  intros w.
  assert (Hc : sourceCaches w !! "a"%string = Some new_BasicSourceCache)
    by (vm_compute; reflexivity).
  split; [exact Hc|].
  destruct (acquire_then_release "a" (1, 0, 0) 512 w new_BasicSourceCache Hc)
    as (w1 & w2 & Ha & _ & Hr & Htr & _).
  exists w1, w2. split; [exact Ha|]. split; [exact Hr | exact Htr].
Defined.

(** ** Configuration changes *)

Section config_properties.
Variable style_throws : list ConfigCall → Change → bool.

Lemma drain_fifo : ∀ queue calls,
  changes_of (drain style_throws calls queue).1.1
    ++ (drain style_throws calls queue).1.2
  = changes_of calls ++ queue.
Proof.
  induction queue as [|ch queue IH]; intros calls; simpl.
  - done.
  - destruct (style_throws calls ch); simpl.
    + unfold changes_of. rewrite omap_app. simpl. by rewrite <- app_assoc.
    + rewrite IH. unfold changes_of. rewrite omap_app. simpl.
      by rewrite <- app_assoc.
Qed.

Lemma drain_accepted : ∀ queue calls,
  (∀ calls' ch, ch ∈ queue → style_throws calls' ch = false) →
  drain style_throws calls queue = (calls ++ (StyleSet <$> queue), [], false).
Proof.
  induction queue as [|ch queue IH]; intros calls Hok; simpl.
  - by rewrite app_nil_r.
  - rewrite Hok by by left. rewrite IH.
    + by rewrite <- app_assoc.
    + intros calls' ch' Hin. apply Hok. by right.
Qed.

Lemma cancelAll_returns w :
  ∃ w', _cancelAllPendingRenders w = (Ok tt, w') ∧ _pendingRenders w' = [].
Proof.
  destruct (cancelAll_makes_stale w ""%string 0) as (w' & Hrun & Hp & _).
  by exists w'.
Qed.

Lemma run_continuations_app : ∀ ids1 ids2 sw,
  run_continuations style_throws (ids1 ++ ids2) sw
  = ((run_continuations style_throws ids1 sw).1
       ++ (run_continuations style_throws ids2
             (run_continuations style_throws ids1 sw).2).1,
     (run_continuations style_throws ids2
        (run_continuations style_throws ids1 sw).2).2).
Proof.
  induction ids1 as [|id ids1 IH]; intros ids2 sw; simpl.
  - by destruct (run_continuations style_throws ids2 sw).
  - destruct (_processConfigQueue style_throws id sw) as [r sw1].
    rewrite IH.
    destruct (run_continuations style_throws ids1 sw1) as [rs1 sw2]. simpl.
    by destruct (run_continuations style_throws ids2 sw2).
Qed.

Lemma run_continuations_stale : ∀ ids s w,
  _configId s ∉ ids →
  run_continuations style_throws ids (s, w)
  = ((λ _, Resolved false) <$> ids, (s, w)).
Proof.
  induction ids as [|id ids IH]; intros s w Hout; [done|].
  apply not_elem_of_cons in Hout as [Hne Hout].
  cbn [run_continuations _processConfigQueue].
  rewrite decide_True by done. by rewrite IH.
Qed.

Lemma set_all_spec : ∀ chs s,
  set_all chs s
  = (Promised <$> seqZ (_configId s + 1) (Z.of_nat (length chs)),
     mkConfig (_configId s + Z.of_nat (length chs))
              (_queuedConfigChanges s ++ chs) (config_calls s)).
Proof.
  induction chs as [|ch chs IH]; intros s.
  - simpl. rewrite Z.add_0_r, app_nil_r. by destruct s.
  - cbn [set_all queue_change]. rewrite IH. cbn [_configId _queuedConfigChanges
      config_calls length].
    rewrite Nat2Z.inj_succ.
    rewrite (seqZ_cons _ (Z.succ _)) by lia. rewrite fmap_cons.
    rewrite Z.pred_succ, <- app_assoc. simpl.
    replace (_configId s + 1 + 1) with (Z.succ (_configId s + 1)) by lia.
    replace (_configId s + 1 + Z.of_nat (length chs))
      with (_configId s + Z.succ (Z.of_nat (length chs))) by lia.
    done.
Qed.

(** X16: changes made in a burst take effect once.  When the changes
    [chs] are set one after the other and the continuations of their
    promises then run, in whatever order, and the style accepts the
    queued changes, then the promise of the last change resolves to true
    and all others to false; the style is called with every queued
    change exactly once, in the order of queuing, followed by one
    "configChanged" event; the queue is empty, no render is pending and
    the style was asked to update once, after the cancellations. *)
Theorem burst_of_changes_applies_once s w chs ids :
  chs ≠ [] →
  ids ≡ₚ seqZ (_configId s + 1) (Z.of_nat (length chs)) →
  (∀ calls ch, ch ∈ _queuedConfigChanges s ++ chs →
               style_throws calls ch = false) →
  let last := _configId s + Z.of_nat (length chs) in
  let w1 := (_cancelAllPendingRenders w).2 in
  (set_all chs s).1
    = Promised <$> seqZ (_configId s + 1) (Z.of_nat (length chs))
  ∧ run_continuations style_throws ids ((set_all chs s).2, w)
    = ((λ id, Resolved (bool_decide (id = last))) <$> ids,
       (mkConfig last []
          (config_calls s
             ++ (StyleSet <$> _queuedConfigChanges s ++ chs)
             ++ [Fire "configChanged"]),
        (emit (StyleUpdate 16) w1).2))
  ∧ _pendingRenders (emit (StyleUpdate 16) w1).2 = []
  ∧ trace (emit (StyleUpdate 16) w1).2 = trace w1 ++ [StyleUpdate 16].
Proof.
  intros Hne Hperm Hok last w1. rewrite set_all_spec. cbn [fst snd].
  split; [done|].
  destruct (cancelAll_returns w) as (w' & Hrun & Hp).
  assert (Hw1 : w1 = w') by (unfold w1; by rewrite Hrun). rewrite Hw1.
  split; [|by rewrite <- Hp].
  assert (Hnd : NoDup ids).
  { rewrite Hperm. apply NoDup_seqZ. }
  assert (Hin : last ∈ ids).
  { rewrite Hperm. apply elem_of_seqZ. unfold last.
    destruct chs; [done|]. simpl length. lia. }
  apply list_elem_of_split in Hin as (pre & post & ->).
  apply NoDup_app in Hnd as (_ & Hpre & Hpost).
  apply NoDup_cons in Hpost as [Hpost _].
  assert (Hpre' : last ∉ pre).
  { intros Hin. apply (Hpre _ Hin). by left. }
  rewrite run_continuations_app.
  rewrite run_continuations_stale by done. cbn [fst snd].
  cbn [run_continuations _processConfigQueue _configId].
  rewrite decide_False by (intros Hx; by apply Hx).
  rewrite Hrun. cbn [_queuedConfigChanges config_calls].
  rewrite drain_accepted by done.
  rewrite run_continuations_stale by done.
  cbn [fst snd]. rewrite (fmap_app _ pre), fmap_cons.
  rewrite bool_decide_true by done.
  rewrite <- app_assoc. fold last.
  f_equal. f_equal; [|f_equal].
  - apply list_fmap_ext. intros i x Hx.
    rewrite bool_decide_false; [done|]. intros ->.
    apply Hpre'. by eapply list_elem_of_lookup_2.
  - apply list_fmap_ext. intros i x Hx.
    rewrite bool_decide_false; [done|]. intros ->.
    apply Hpost. by eapply list_elem_of_lookup_2.
Qed.

Lemma queue_change_fifo ch exec s :
  changes_of (config_calls (queue_change ch exec s).2)
    ++ _queuedConfigChanges (queue_change ch exec s).2
  = changes_of (config_calls s) ++ _queuedConfigChanges s ++ [ch].
Proof. unfold queue_change. by destruct exec. Qed.

Lemma processConfigQueue_fifo id s w :
  changes_of (config_calls (_processConfigQueue style_throws id (s, w)).2.1)
    ++ _queuedConfigChanges (_processConfigQueue style_throws id (s, w)).2.1
  = changes_of (config_calls s) ++ _queuedConfigChanges s
  ∧ _configId (_processConfigQueue style_throws id (s, w)).2.1 = _configId s.
Proof.
  unfold _processConfigQueue. case_decide; [done|].
  destruct (_cancelAllPendingRenders w) as [[[]|e] w1]; [|done].
  pose proof (drain_fifo (_queuedConfigChanges s) (config_calls s)) as Hd.
  destruct (drain style_throws (config_calls s) (_queuedConfigChanges s))
    as [[calls queue] thrown].
  simpl in Hd. destruct thrown; simpl; [done|].
  split; [|done]. rewrite <- Hd. unfold changes_of. rewrite omap_app. simpl.
  by rewrite app_nil_r.
Qed.

(** X17: no queued change is lost, repeated or overtaken.  Whatever
    [setXYZ] calls, calls of deferred functions and continuations
    happen, in whatever order and whether or not the style throws, the
    changes the style has been called with, followed by the changes
    still queued, are the changes there were before followed by the
    changes set since, in the order they were set; and [_configId] has
    grown by the number of ids handed out. *)
Theorem config_changes_fifo ops : ∀ s w,
  let s' := (run_ops style_throws ops (s, w)).1 in
  changes_of (config_calls s') ++ _queuedConfigChanges s'
  = changes_of (config_calls s) ++ _queuedConfigChanges s ++ pushed ops
  ∧ _configId s' = _configId s + ids_issued ops.
Proof.
  unfold run_ops, ids_issued.
  induction ops as [|op ops IH] using rev_ind; intros s w.
  - simpl. rewrite app_nil_r. split; [done | lia].
  - rewrite foldl_app. cbn [foldl].
    destruct (IH s w) as [Hq Hid].
    destruct (foldl (run_op style_throws) (s, w) ops) as [s1 w1] eqn:Hrun.
    cbn [fst] in Hq, Hid.
    unfold pushed. rewrite omap_app, filter_app, length_app.
    fold (pushed ops). rewrite !app_assoc, <- (app_assoc _ _ (pushed ops)).
    rewrite <- Hq. rewrite Nat2Z.inj_add, Z.add_assoc, <- Hid.
    destruct op as [ch exec| |id]; cbn [run_op fst snd].
    + rewrite queue_change_fifo. split; [by rewrite <- !app_assoc|].
      destruct exec; simpl; lia.
    + simpl. rewrite !app_nil_r. split; [done | lia].
    + destruct (processConfigQueue_fifo id s1 w1) as [-> ->].
      simpl. rewrite !app_nil_r. split; [done | lia].
Qed.
End config_properties.

(** The burst theorem on a fresh renderer: a paint property and a filter
    are set, and the continuation of the second call runs first. *)
Lemma burst_of_changes_witness :
  let chs := [PaintProperty "roads" "line-color" "red"; Filter "roads" "all"] in
  let accepts := λ (_ : list ConfigCall) (_ : Change), false in
  (chs ≠ []
   ∧ [2; 1] ≡ₚ seqZ (_configId new_Config + 1) (Z.of_nat (length chs))
   ∧ (∀ calls ch, ch ∈ _queuedConfigChanges new_Config ++ chs →
                  accepts calls ch = false))
  ∧ (run_continuations accepts [2; 1]
       ((set_all chs new_Config).2, init_world ["a"%string])).1
    = [Resolved true; Resolved false].
Proof.
  intros chs accepts.
  assert (H1 : chs ≠ []) by done.
  assert (H2 : [2; 1] ≡ₚ seqZ (_configId new_Config + 1)
                             (Z.of_nat (length chs))).
  { change (seqZ _ _) with [1; 2]. apply perm_swap. }
  assert (H3 : ∀ calls ch, ch ∈ _queuedConfigChanges new_Config ++ chs →
                           accepts calls ch = false) by done.
  split; [exact (conj H1 (conj H2 H3))|].
  destruct (burst_of_changes_applies_once accepts new_Config
              (init_world ["a"%string]) chs [2; 1] H1 H2 H3) as (_ & -> & _).
  reflexivity.
Defined.

(** ** Queries *)

Lemma push_features_app : ∀ fs1 fs2 acc,
  push_features acc (fs1 ++ fs2)
  = acc' ← push_features acc fs1; push_features acc' fs2.
Proof.
  induction fs1 as [|f fs1 IH]; intros fs2 acc; [done|].
  simpl. destruct (push_feature acc f) as [acc'|]; simpl; [apply IH | done].
Qed.

Lemma push_render_layers_concat : ∀ l acc,
  push_render_layers acc l = push_features acc (concat l.*2).
Proof.
  induction l as [|[k fs] l IH]; intros acc; [done|].
  rewrite fmap_cons. simpl. rewrite push_features_app.
  destruct (push_features acc fs) as [acc'|]; simpl; [apply IH | done].
Qed.

Lemma push_features_own_names : ∀ fs acc,
  Forall (λ f, source_layer f ∉ Object_prototype_names) fs →
  ∃ acc',
    push_features acc fs = Some acc'
    ∧ ∀ sl, acc' !! sl
            = match properties <$> filter (λ f, source_layer f = sl) fs with
              | [] => acc !! sl
              | ps => Some (default [] (acc !! sl) ++ ps)
              end.
Proof.
  induction fs as [|f fs IH]; intros acc Hok.
  - by exists acc.
  - apply Forall_cons in Hok as [Hf Hok].
    assert (Hpush : push_feature acc f
              = Some (<[source_layer f :=
                          default [] (acc !! source_layer f) ++ [properties f]]>
                        acc)).
    { unfold push_feature. destruct (acc !! source_layer f); [done|].
      by rewrite decide_False. }
    destruct (IH (<[source_layer f :=
                      default [] (acc !! source_layer f) ++ [properties f]]> acc)
                 Hok) as (acc' & Hrun & Hacc').
    exists acc'. split; [simpl; by rewrite Hpush|].
    intros sl. rewrite Hacc', filter_cons.
    destruct (decide (source_layer f = sl)) as [->|Hne].
    + rewrite lookup_insert_eq, fmap_cons. simpl.
      destruct (properties <$> filter _ fs) as [|p ps]; [done|].
      by rewrite <- app_assoc.
    + by rewrite lookup_insert_ne.
Qed.

Lemma push_features_inherited_name : ∀ fs acc,
  (∀ k, k ∈ Object_prototype_names → acc !! k = None) →
  Exists (λ f, source_layer f ∈ Object_prototype_names) fs →
  push_features acc fs = None.
Proof.
  induction fs as [|f fs IH]; intros acc Hacc Hex.
  - by apply Exists_nil in Hex.
  - simpl. unfold push_feature.
    destruct (decide (source_layer f ∈ Object_prototype_names)) as [Hin|Hout].
    + by rewrite (Hacc _ Hin).
    + apply Exists_cons in Hex as [Hin|Hex]; [done|].
      destruct (acc !! source_layer f) as [lyr|]; simpl; apply IH; try done.
      * intros k Hk. rewrite lookup_insert_ne; [by apply Hacc|].
        intros Heq. apply Hout. by rewrite Heq.
      * intros k Hk. rewrite lookup_insert_ne; [by apply Hacc|].
        intros Heq. apply Hout. by rewrite Heq.
Qed.

(** X18: features are regrouped by source layer.  With a source given and
    no source layer named like a property of [Object.prototype],
    [queryRenderedFeatures] returns an object that has an entry for a
    source layer exactly when the style returned a feature of that source
    layer, and the entry lists the properties of all those features, each
    once, in the order the style returned them. *)
Theorem queryRenderedFeatures_groups source byRenderLayer :
  source ≠ ""%string →
  Forall (λ f, source_layer f ∉ Object_prototype_names)
         (concat byRenderLayer.*2) →
  ∃ result,
    queryRenderedFeatures (Some source) byRenderLayer = Returns result
    ∧ ∀ sl,
        result !! sl
        = match filter (λ f, source_layer f = sl) (concat byRenderLayer.*2) with
          | [] => None
          | fs => Some (properties <$> fs)
          end.
Proof.
  intros Hs Hok.
  destruct (push_features_own_names _ ∅ Hok) as (result & Hrun & Hres).
  exists result. split.
  { unfold queryRenderedFeatures. rewrite push_render_layers_concat, Hrun.
    by destruct source. }
  intros sl. rewrite Hres, lookup_empty.
  by destruct (filter _ (concat byRenderLayer.*2)).
Qed.

(** The theorem on two render layers that draw the source layer "road". *)
Lemma queryRenderedFeatures_groups_witness :
  let answer :=
    [("casing"%string, [mkFeature "road" "p1"; mkFeature "water" "p2"]);
     ("fill"%string, [mkFeature "road" "p3"])] in
  ("a"%string ≠ ""%string
   ∧ Forall (λ f, source_layer f ∉ Object_prototype_names) (concat answer.*2))
  ∧ ∃ result,
      queryRenderedFeatures (Some "a"%string) answer = Returns result
      ∧ result !! "road"%string = Some ["p1"; "p3"]%string.
Proof.
  intros answer.
  assert (Hs : "a"%string ≠ ""%string) by done.
  assert (Hok : Forall (λ f, source_layer f ∉ Object_prototype_names)
                       (concat answer.*2)).
  { apply Forall_forall. intros f Hf Hin.
    vm_compute in Hf.
    repeat (apply elem_of_cons in Hf as [->|Hf];
            [by repeat (apply elem_of_cons in Hin as [?|Hin]; [done|]);
                apply elem_of_nil in Hin|]).
    by apply elem_of_nil in Hf. }
  split; [exact (conj Hs Hok)|].
  destruct (queryRenderedFeatures_groups "a" answer Hs Hok)
    as (result & Hrun & Hres).
  exists result. split; [exact Hrun | exact (Hres "road"%string)].
Defined.

(** X19: a source layer named like an inherited property.  When a feature
    returned by the style has a source layer named like a property of
    [Object.prototype], such as "constructor" or "toString", then
    [queryRenderedFeatures] throws a TypeError and returns nothing: the
    inherited value is taken for the list of the source layer. *)
Theorem queryRenderedFeatures_inherited_name source byRenderLayer :
  source ≠ ""%string →
  Exists (λ f, source_layer f ∈ Object_prototype_names)
         (concat byRenderLayer.*2) →
  queryRenderedFeatures (Some source) byRenderLayer = Throws_TypeError.
Proof.
  intros Hs Hex. unfold queryRenderedFeatures.
  rewrite push_render_layers_concat.
  rewrite push_features_inherited_name; [by destruct source | | done].
  intros k _. apply lookup_empty.
Qed.

(** The theorem on a style with a source layer "constructor". *)
Lemma queryRenderedFeatures_inherited_name_witness :
  let answer :=
    [("fill"%string, [mkFeature "road" "p1"; mkFeature "constructor" "p2"])] in
  ("a"%string ≠ ""%string
   ∧ Exists (λ f, source_layer f ∈ Object_prototype_names) (concat answer.*2))
  ∧ queryRenderedFeatures (Some "a"%string) answer = Throws_TypeError.
Proof.
  intros answer.
  assert (Hs : "a"%string ≠ ""%string) by done.
  assert (Hex : Exists (λ f, source_layer f ∈ Object_prototype_names)
                       (concat answer.*2)).
  { apply Exists_cons_tl, Exists_cons_hd. simpl. by left. }
  split; [exact (conj Hs Hex)|].
  exact (queryRenderedFeatures_inherited_name "a" answer Hs Hex).
Defined.
